(** * spotifydata: analytics over a streaming-history export

    A shallow embedding of [data_loader.py] (the aggregation and playlist
    analysis functions over pandas frames) and of [spotify_api.py] (the
    genre enrichment client and its on-disk cache), with the properties the
    specification states about them.

    Frames are lists of row records, in row order.  Python values the code
    inspects dynamically ([None], missing keys) are option fields.  Library
    calls are embedded by their documented behaviour: [groupby] lists the
    groups in ascending key order and drops rows whose key is null,
    [sort_values] is an interface (class [Sorter]) because its default
    algorithm makes no promise about tied rows, [str.contains] compiles its
    pattern as a regular expression. *)

From Stdlib Require Import ZArith QArith List Ascii String Lia Permutation Sorted.
From stdpp Require Import base decidable option list gmap sets strings.
Import ListNotations.

Local Open Scope Z_scope.
Local Open Scope string_scope.
Local Open Scope list_scope.

(** ** Python values and built-ins used by both modules *)

Module Py.

(** Exceptions the code can meet. *)
Inductive exn :=
| ParseError        (* pd.to_datetime / json.load on a malformed export *)
| KeyError
| ValueError
| TypeError
| AttributeError
| ReError           (* re.error: the pattern does not compile *)
| JSONDecodeError
| IOError           (* OSError and its subclasses *)
| OverflowError
| UnicodeDecodeError
| HTTPError         (* response.raise_for_status() *)
| ConnectionError   (* requests: connection failure *)
| Timeout.          (* requests: socket timeout *)

(** [isna] / [notna] on a cell. *)
Definition isna {A} (x : option A) : bool :=
  match x with None => true | Some _ => false end.
Definition notna {A} (x : option A) : bool := negb (isna x).

(** Truth value of a string: [bool(s)]. *)
Definition truthy (s : string) : bool :=
  match s with EmptyString => false | String _ _ => true end.

(** Truth value of [str | None]. *)
Definition truthy_opt (s : option string) : bool :=
  match s with None => false | Some s => truthy s end.

(** [c.lower()] on the ASCII range; other bytes are left as they are. *)
Definition lower_ascii (c : ascii) : ascii :=
  let n := nat_of_ascii c in
  if (Nat.leb 65 n && Nat.leb n 90)%bool then ascii_of_nat (n + 32) else c.

(** [s.lower()] *)
Fixpoint lower (s : string) : string :=
  match s with
  | EmptyString => EmptyString
  | String c s' => String (lower_ascii c) (lower s')
  end.

(** [sub in s] : plain substring test. *)
Fixpoint contains (sub s : string) : bool :=
  if String.prefix sub s then true
  else match s with
       | EmptyString => false
       | String _ s' => contains sub s'
       end.

(** [s.split(sep)[-1]] for a one-character separator: the text after the
    last separator (the whole string when there is none). *)
Fixpoint split_last (sep : ascii) (s : string) : string :=
  match s with
  | EmptyString => EmptyString
  | String c s' =>
      if existsb (Ascii.eqb sep) (list_ascii_of_string s')
      then split_last sep s'
      else if Ascii.eqb c sep then s' else s
  end.

(** [df.head(n)], that is [df.iloc[:n]]: the first [n] rows, and for a
    negative [n] all rows but the last [-n]. *)
Definition head {A} (n : Z) (l : list A) : list A :=
  if Z.leb 0 n then firstn (Z.to_nat n) l
  else firstn (length l - Z.to_nat (- n)) l.

(** [l[i:j]] for [0 <= i <= j]. *)
Definition slice {A} (i j : nat) (l : list A) : list A :=
  firstn (j - i) (skipn i l).

(** [range(start, stop, step)] for a positive step.  [stop] iterations
    are always enough, which is what the fuel says. *)
Fixpoint range_from (fuel : nat) (i stop step : nat) : list nat :=
  match fuel with
  | O => []
  | S f => if Nat.ltb i stop then i :: range_from f (i + step) stop step else []
  end.
Definition range (start stop step : nat) : list nat :=
  range_from stop start stop step.

(** *** [int(s)] on a header value

    A header value reaches the code as [http.client] decodes it, one
    character per byte (ISO-8859-1), so a string here is read as that
    text.  [int] on such a text, as CPython does it: white space at both
    ends is dropped, where white space is tab to carriage return and the
    space, and also U+0085 and U+00A0 (the file, group, record and unit
    separators 0x1C-0x1F are not dropped); then comes an optional sign and
    decimal digits 0-9 with single underscores between them, no more than
    4300 digits. *)

Definition is_space (c : ascii) : bool :=
  let n := nat_of_ascii c in
  (Nat.eqb n 32 || (Nat.leb 9 n && Nat.leb n 13) || Nat.eqb n 133 || Nat.eqb n 160)%bool.

Definition digit_of (c : ascii) : option Z :=
  let n := nat_of_ascii c in
  if (Nat.leb 48 n && Nat.leb n 57)%bool then Some (Z.of_nat (n - 48)) else None.

(** [sys.get_int_max_str_digits()] *)
Definition MAX_STR_DIGITS : nat := 4300.

Definition count_digits (l : list ascii) : nat :=
  length (List.filter (fun c => match digit_of c with Some _ => true | None => false end) l).

Fixpoint lstrip (l : list ascii) : list ascii :=
  match l with
  | c :: l' => if is_space c then lstrip l' else l
  | [] => []
  end.
Definition strip (l : list ascii) : list ascii := rev (lstrip (rev (lstrip l))).

(** Digits with single underscores between them, as [int] accepts.
    [prev] tells whether the previous character was a digit. *)
Fixpoint digits (acc : Z) (prev : bool) (l : list ascii) : option Z :=
  match l with
  | [] => if prev then Some acc else None
  | c :: l' =>
      match digit_of c with
      | Some d => digits (10 * acc + d) true l'
      | None =>
          if (Ascii.eqb c "_" && prev)%bool
          then match l' with
               | [] => None
               | _ => digits acc false l'
               end
          else None
      end
  end.

(** [int(s)]: surrounding white space, an optional sign, decimal digits.
    Anything else raises [ValueError], and so do more than 4300 digits. *)
Definition int (s : string) : exn + Z :=
  let text := strip (list_ascii_of_string s) in
  if Nat.ltb MAX_STR_DIGITS (count_digits text) then inl ValueError
  else
    match text with
    | [] => inl ValueError
    | c :: l' =>
        if Ascii.eqb c "-" then
          match digits 0 false l' with Some z => inr (- z) | None => inl ValueError end
        else if Ascii.eqb c "+" then
          match digits 0 false l' with Some z => inr z | None => inl ValueError end
        else
          match digits 0 false (c :: l') with Some z => inr z | None => inl ValueError end
    end.

(** *** The part of [re] that [str.contains] relies on

    [Series.str.contains(pat)] treats [pat] as a regular expression
    ([regex=True] is the default) and tests [re.search].  Patterns are
    modelled on the fragment where every character stands for itself or
    is a dot; a pattern that opens a group it cannot close does not
    compile; any other use of a special character is outside the
    model. *)
Module Re.
Inductive item := Char (c : ascii) | AnyChar.

Inductive compiled :=
| Pattern (p : list item)
| Invalid                   (* re.compile raises re.error *)
| Unmodelled.               (* syntax this model does not cover *)

(** The characters with a meaning of their own in a pattern:
    [. ^ $ * + ? { } [ ] \ | ( )] *)
Definition special (c : ascii) : bool :=
  existsb (Ascii.eqb c) (list_ascii_of_string ".^$*+?{}[]\|()").

Definition item_of (c : ascii) : item :=
  if Ascii.eqb c "." then AnyChar else Char c.

Definition compile (pat : string) : compiled :=
  let cs := list_ascii_of_string pat in
  if forallb (fun c => negb (special c) || Ascii.eqb c ".")%bool cs
  then Pattern (map item_of cs)
  else if forallb (fun c => negb (special c) || Ascii.eqb c "." || Ascii.eqb c "(")%bool cs
  then Invalid              (* "missing ), unterminated subpattern" *)
  else Unmodelled.

(** A dot matches any character but a newline. *)
Definition item_matches (i : item) (c : ascii) : bool :=
  match i with
  | Char c' => Ascii.eqb c' c
  | AnyChar => negb (Ascii.eqb c "010")
  end.

Fixpoint match_here (p : list item) (s : string) : bool :=
  match p, s with
  | [], _ => true
  | i :: p', String c s' => (item_matches i c && match_here p' s')%bool
  | _ :: _, EmptyString => false
  end.

(** [re.search(p, s) is not None] *)
Fixpoint search (p : list item) (s : string) : bool :=
  if match_here p s then true
  else match s with
       | EmptyString => false
       | String _ s' => search p s'
       end.
End Re.

End Py.

(** ** data_loader.py *)

Module DataLoader.
Import Py.

(** *** Rows *)

(** A parsed [ts] value with the [.dt] accessors the loader reads.
    [instant] orders timestamps. *)
Record Timestamp := {
  instant : Z;
  dt_year : Z;
  dt_month : Z;
  dt_day : Z;
  dt_hour : Z;
  dt_dayofweek : Z;        (* 0 = Monday .. 6 = Sunday *)
  dt_day_name : string
}.

(** One record of a [Streaming_History_Audio_*.json] file. *)
Module Raw.
Record Event := {
  ts : string;
  ms_played : Z;
  master_metadata_track_name : option string;
  master_metadata_album_artist_name : option string;
  master_metadata_album_album_name : option string;
  episode_name : option string;
  audiobook_title : option string;
  skipped : option bool;
  platform : option string;
  spotify_track_uri : option string
}.
End Raw.

(** One row of the frame [preprocess_data] returns.  The float column
    [minutes_played] holds exact rationals here. *)
Record PlayEvent := {
  ts : Timestamp;
  year : Z;
  month : Z;
  day : Z;
  hour : Z;
  day_of_week : Z;
  day_name : string;
  ms_played : Z;
  minutes_played : Q;
  track : option string;
  artist : option string;
  album : option string;
  episode_name : option string;
  audiobook_title : option string;
  skipped : option bool;
  platform : option string;
  spotify_track_uri : option string
}.

(** One row of the frame [get_all_playlist_tracks] returns. *)
Record PlaylistEntry := {
  playlist : string;
  pl_track : option string;
  pl_artist : option string;
  pl_album : option string;
  pl_uri : option string
}.

(** *** preprocess_data *)

Section Preprocess.
(** [pd.to_datetime] on one cell; [None] when it cannot be parsed. *)
Variable to_datetime : string -> option Timestamp.

Definition add_columns (r : Raw.Event) (t : Timestamp) : PlayEvent :=
  {| ts := t;
     year := dt_year t; month := dt_month t; day := dt_day t;
     hour := dt_hour t; day_of_week := dt_dayofweek t;
     day_name := dt_day_name t;
     ms_played := Raw.ms_played r;
     minutes_played := (inject_Z (Raw.ms_played r) / inject_Z 60000)%Q;
     track := Raw.master_metadata_track_name r;
     artist := Raw.master_metadata_album_artist_name r;
     album := Raw.master_metadata_album_album_name r;
     episode_name := Raw.episode_name r;
     audiobook_title := Raw.audiobook_title r;
     skipped := Raw.skipped r;
     platform := Raw.platform r;
     spotify_track_uri := Raw.spotify_track_uri r |}.

(** The whole [ts] column is parsed first; one bad cell fails the load. *)
Fixpoint parse_all (df : list Raw.Event) : exn + list PlayEvent :=
  match df with
  | [] => inr []
  | r :: df' =>
      match to_datetime (Raw.ts r) with
      | None => inl ParseError
      | Some t =>
          match parse_all df' with
          | inl e => inl e
          | inr rows => inr (add_columns r t :: rows)
          end
      end
  end.

(** The music-only mask. *)
Definition is_music (e : PlayEvent) : bool :=
  (notna (track e) && isna (episode_name e) && isna (audiobook_title e))%bool.

(** The raw frame is taken with all its columns, also when it has no
    rows. *)
Definition preprocess_data (df : list Raw.Event) : exn + list PlayEvent :=
  match parse_all df with
  | inl e => inl e
  | inr rows => inr (List.filter is_music rows)
  end.
End Preprocess.

(** *** groupby *)

(** Group keys are compared as Python compares them: strings by code
    unit, tuples component by component. *)
Definition cmp_pair {A B} (ca : A -> A -> comparison) (cb : B -> B -> comparison)
    (x y : A * B) : comparison :=
  match ca (fst x) (fst y) with
  | Eq => cb (snd x) (snd y)
  | c => c
  end.

Definition cmp_str : string -> string -> comparison := String.compare.
Definition cmp_str2 := cmp_pair cmp_str cmp_str.
Definition cmp_str3 := cmp_pair cmp_str2 cmp_str.
Definition cmp_Z2 := cmp_pair Z.compare Z.compare.

Section GroupBy.
Context {K R : Type}.
Variable cmp : K -> K -> comparison.

(** Put row [r] in the group of [k]; groups stay in ascending key
    order and rows keep their order inside a group. *)
Fixpoint group_insert (k : K) (r : R) (gs : list (K * list R)) : list (K * list R) :=
  match gs with
  | [] => [(k, [r])]
  | (k', rs) :: gs' =>
      match cmp k k' with
      | Lt => (k, [r]) :: gs
      | Eq => (k', rs ++ [r]) :: gs'
      | Gt => (k', rs) :: group_insert k r gs'
      end
  end.

(** [df.groupby(keys)]: a row whose key holds a null is dropped
    ([dropna=True]), groups come sorted by key ([sort=True]). *)
Definition groupby (key : R -> option K) (df : list R) : list (K * list R) :=
  fold_left
    (fun gs r => match key r with Some k => group_insert k r gs | None => gs end)
    df [].
End GroupBy.

Definition key_artist (e : PlayEvent) : option string := artist e.

Definition key_track_artist (e : PlayEvent) : option (string * string) :=
  match track e, artist e with
  | Some t, Some a => Some (t, a)
  | _, _ => None
  end.

Definition key_track_artist_album (e : PlayEvent) : option (string * string * string) :=
  match track e, artist e, album e with
  | Some t, Some a, Some b => Some (t, a, b)
  | _, _, _ => None
  end.

(** Column sums.  [Zsum] is the sum over the integers; the sum of an
    int64 column is that sum as long as it stays within 64 bits, and wraps
    beyond. *)
Definition Qsum (l : list Q) : Q := fold_left Qplus l (0 # 1)%Q.
Definition Zsum (l : list Z) : Z := fold_left Z.add l 0.

(** *** sort_values *)

(** [frame.sort_values(col, ascending=False)].  pandas's default sort
    kind is not a stable one, so the order of rows with equal values is
    not fixed by the call: the interface promises a rearrangement of the
    rows in descending order of the column and nothing more. *)
Class Sorter := {
  sort_values_desc : forall {A : Type}, (A -> Q) -> list A -> list A;
  sort_values_perm : forall (A : Type) (col : A -> Q) (l : list A),
      Permutation l (sort_values_desc col l);
  sort_values_sorted : forall (A : Type) (col : A -> Q) (l : list A),
      StronglySorted (fun a b => (col b <= col a)%Q) (sort_values_desc col l)
}.

(** A sorter that keeps tied rows in place (insertion from the right). *)
Fixpoint insert_desc {A} (col : A -> Q) (x : A) (l : list A) : list A :=
  match l with
  | [] => [x]
  | y :: l' => if Qle_bool (col y) (col x) then x :: l else y :: insert_desc col x l'
  end.

Definition stable_sort_desc {A} (col : A -> Q) (l : list A) : list A :=
  fold_right (insert_desc col) [] l.

(** *** get_top_artists / get_top_tracks *)

(** A row of [groupby(...).agg(play_count, total_minutes).reset_index()]. *)
Record Stats (K : Type) := {
  key : K;
  play_count : Z;
  total_minutes : Q
}.
Arguments key {K} _.
Arguments play_count {K} _.
Arguments total_minutes {K} _.

Definition agg_stats {K} (g : K * list PlayEvent) : Stats K :=
  {| key := fst g;
     play_count := Z.of_nat (length (snd g));
     total_minutes := Qsum (map minutes_played (snd g)) |}.

Definition filter_year (df : list PlayEvent) (y : option Z) : list PlayEvent :=
  match y with
  | None => df
  | Some y => List.filter (fun e => Z.eqb (year e) y) df
  end.

(** [sort_col = "play_count" if by == "plays" else "total_minutes"] *)
Definition sort_col {K} (by_ : string) : Stats K -> Q :=
  if String.eqb by_ "plays" then (fun s => inject_Z (play_count s))
  else total_minutes.

Section TopN.
Context {sorter : Sorter}.

Definition get_top_artists (df : list PlayEvent) (year : option Z) (limit : Z)
    (by_ : string) : list (Stats string) :=
  let filtered := filter_year df year in
  let stats := map agg_stats (groupby cmp_str key_artist filtered) in
  head limit (sort_values_desc (sort_col by_) stats).

Definition get_top_tracks (df : list PlayEvent) (year : option Z) (limit : Z)
    (by_ : string) : list (Stats (string * string)) :=
  let filtered := filter_year df year in
  let stats := map agg_stats (groupby cmp_str2 key_track_artist filtered) in
  head limit (sort_values_desc (sort_col by_) stats).
End TopN.

(** *** get_heatmap_data *)

(** A frame with an integer index and integer column labels. *)
Record Frame (V : Type) := {
  index : list Z;
  columns : list Z;
  values : list (list V)
}.
Arguments index {V} _.
Arguments columns {V} _.
Arguments values {V} _.

Definition shape {V} (f : Frame V) : nat * nat :=
  (length (index f), length (columns f)).

Fixpoint insert_unique (x : Z) (l : list Z) : list Z :=
  match l with
  | [] => [x]
  | y :: l' =>
      match Z.compare x y with
      | Lt => x :: l
      | Eq => l
      | Gt => y :: insert_unique x l'
      end
  end.

(** The distinct labels of a column, ascending. *)
Definition sorted_unique (l : list Z) : list Z :=
  fold_left (fun acc x => insert_unique x acc) l [].

(** [df.groupby(["day_of_week", "hour"]).size().reset_index(name="count")]:
    one row per (day, hour) that occurs in [df]. *)
Definition size_by_day_hour (df : list PlayEvent) : list (Z * Z * Z) :=
  map (fun g => (fst g, Z.of_nat (length (snd g))))
      (groupby cmp_Z2 (fun e => Some (day_of_week e, hour e)) df).

(** The cell of the long table at (d, h); [None] is NaN. *)
Definition cell (long : list (Z * Z * Z)) (d h : Z) : option Z :=
  option_map snd
    (find (fun r => (Z.eqb (fst (fst r)) d && Z.eqb (snd (fst r)) h)%bool) long).

(** [long.pivot(index="day_of_week", columns="hour", values="count")]:
    the labels are those that occur in the long table. *)
Definition pivot (long : list (Z * Z * Z)) : Frame (option Z) :=
  let idx := sorted_unique (map (fun r => fst (fst r)) long) in
  let cols := sorted_unique (map (fun r => snd (fst r)) long) in
  {| index := idx;
     columns := cols;
     values := map (fun d => map (fun h => cell long d h) cols) idx |}.

Definition fillna (v : Z) (f : Frame (option Z)) : Frame Z :=
  {| index := index f;
     columns := columns f;
     values := map (map (fun c => match c with Some x => x | None => v end)) (values f) |}.

Definition get_heatmap_data (df : list PlayEvent) : Frame Z :=
  let heatmap := size_by_day_hour df in
  fillna 0 (pivot heatmap).

(** [frame.loc[d, h]] *)
Definition loc {V} (f : Frame V) (d h : Z) : option V :=
  match list_find (fun x => x = d) (index f), list_find (fun x => x = h) (columns f) with
  | Some (i, _), Some (j, _) =>
      match values f !! i with
      | Some row => row !! j
      | None => None
      end
  | _, _ => None
  end.

(** *** get_one_hit_wonders / get_one_hit_wonder_stats *)

(** [set(zip(playlist_tracks["track"], playlist_tracks["artist"]))] *)
Definition playlist_set (playlist_tracks : list PlaylistEntry)
    : gset (option string * option string) :=
  list_to_set (map (fun p => (pl_track p, pl_artist p)) playlist_tracks).

Definition on_playlist (ps : gset (option string * option string))
    (t a : string) : bool :=
  bool_decide ((Some t, Some a) ∈ ps).

(** A row of [track_counts] in [get_one_hit_wonders]. *)
Record HitRow := {
  hit_track : string;
  hit_artist : string;
  hit_album : string;
  hit_play_count : Z;
  played_on : Timestamp;
  hit_ms_played : Z
}.

Definition agg_hit (g : string * string * string * list PlayEvent) : option HitRow :=
  match snd g with
  | [] => None
  | e :: _ =>
      Some {| hit_track := fst (fst (fst g));
              hit_artist := snd (fst (fst g));
              hit_album := snd (fst g);
              hit_play_count := Z.of_nat (length (snd g));
              played_on := ts e;
              hit_ms_played := Zsum (map ms_played (snd g)) |}
  end.

Section OneHit.
Context {sorter : Sorter}.
(** The frame [get_all_playlist_tracks()] returns. *)
Variable playlist_tracks : list PlaylistEntry.

(** The rows [get_one_hit_wonders] returns when some group has one play
    of 120000 ms or more.  When none has, [apply] on the frame without
    rows gives no boolean column and the code raises; the list is empty
    there, and stands for no result of the code. *)
Definition get_one_hit_wonders (df : list PlayEvent) (limit : Z) : list HitRow :=
  let ps := playlist_set playlist_tracks in
  let track_counts := omap agg_hit (groupby cmp_str3 key_track_artist_album df) in
  let one_hits :=
    List.filter (fun r => (Z.eqb (hit_play_count r) 1 && Z.leb 120000 (hit_ms_played r))%bool)
                track_counts in
  let one_hits :=
    List.filter (fun r => negb (on_playlist ps (hit_track r) (hit_artist r))) one_hits in
  let one_hits := sort_values_desc (fun r => inject_Z (instant (played_on r))) one_hits in
  head limit one_hits.
End OneHit.

(** A row of [track_counts] in [get_one_hit_wonder_stats]. *)
Record PairRow := {
  pair_track : string;
  pair_artist : string;
  pair_play_count : Z;
  pair_ms_played : Z
}.

Definition agg_pair (g : string * string * list PlayEvent) : PairRow :=
  {| pair_track := fst (fst g);
     pair_artist := snd (fst g);
     pair_play_count := Z.of_nat (length (snd g));
     pair_ms_played := Zsum (map ms_played (snd g)) |}.

(** The result dictionary, without the rounded percentage. *)
Record OneHitStats := {
  total_unique_tracks : nat;
  one_hit_count : nat
}.

(** The pairs [get_one_hit_wonder_stats] counts as one-hit wonders. *)
Definition one_hit_pairs (playlist_tracks : list PlaylistEntry) (df : list PlayEvent)
    : list PairRow :=
  let ps := playlist_set playlist_tracks in
  let track_counts := map agg_pair (groupby cmp_str2 key_track_artist df) in
  let track_counts := List.filter (fun r => Z.leb 120000 (pair_ms_played r)) track_counts in
  List.filter
    (fun r => (Z.eqb (pair_play_count r) 1
               && negb (on_playlist ps (pair_track r) (pair_artist r)))%bool)
    track_counts.

Definition get_one_hit_wonder_stats (playlist_tracks : list PlaylistEntry)
    (df : list PlayEvent) : OneHitStats :=
  let track_counts := map agg_pair (groupby cmp_str2 key_track_artist df) in
  let track_counts := List.filter (fun r => Z.leb 120000 (pair_ms_played r)) track_counts in
  {| total_unique_tracks := length track_counts;
     one_hit_count := length (one_hit_pairs playlist_tracks df) |}.

(** *** search_tracks / search_artists *)

(** [col.str.lower().str.contains(pat, na=False)] for a compiled pattern. *)
Definition cell_contains (p : list Re.item) (c : option string) : bool :=
  match c with
  | None => false
  | Some s => Re.search p (lower s)
  end.

(** The mask of [search_tracks]: track, artist or album matches. *)
Definition track_mask (p : list Re.item) (e : PlayEvent) : bool :=
  (cell_contains p (track e) || cell_contains p (artist e) || cell_contains p (album e))%bool.

(** The mask of [search_artists]. *)
Definition artist_mask (p : list Re.item) (e : PlayEvent) : bool :=
  cell_contains p (artist e).

Definition ts_min (l : list Timestamp) : option Timestamp :=
  match l with
  | [] => None
  | t :: l' => Some (fold_left (fun m x => if Z.ltb (instant x) (instant m) then x else m) l' t)
  end.

Definition ts_max (l : list Timestamp) : option Timestamp :=
  match l with
  | [] => None
  | t :: l' => Some (fold_left (fun m x => if Z.ltb (instant m) (instant x) then x else m) l' t)
  end.

(** A row of the aggregated search result. *)
Record SearchRow (K : Type) := {
  s_key : K;
  s_play_count : Z;
  s_total_minutes : Q;
  unique_tracks : nat;          (* search_artists only; 0 in search_tracks *)
  first_played : Timestamp;
  last_played : Timestamp
}.
Arguments s_key {K} _.
Arguments s_play_count {K} _.
Arguments s_total_minutes {K} _.
Arguments unique_tracks {K} _.
Arguments first_played {K} _.
Arguments last_played {K} _.

Definition nunique (l : list (option string)) : nat :=
  size (list_to_set (omap id l) : gset string).

Definition agg_search {K} (with_tracks : bool) (g : K * list PlayEvent)
    : option (SearchRow K) :=
  match ts_min (map ts (snd g)), ts_max (map ts (snd g)) with
  | Some lo, Some hi =>
      Some {| s_key := fst g;
              s_play_count := Z.of_nat (length (snd g));
              s_total_minutes := Qsum (map minutes_played (snd g));
              unique_tracks := if with_tracks then nunique (map track (snd g)) else O;
              first_played := lo;
              last_played := hi |}
  | _, _ => None
  end.

(** What a search call does: it returns a frame, or raises, or runs on a
    pattern outside the modelled fragment. *)
Inductive outcome (A : Type) :=
| Returns (a : A)
| Raises (e : exn)
| NotModelled.
Arguments Returns {A} _.
Arguments Raises {A} _.
Arguments NotModelled {A}.

Section Search.
Context {sorter : Sorter}.

Definition search_tracks (df : list PlayEvent) (query : string) (limit : Z)
    : outcome (list (SearchRow (string * string * string))) :=
  let query_lower := lower query in
  match Re.compile query_lower with
  | Re.Unmodelled => NotModelled
  | Re.Invalid => Raises ReError
  | Re.Pattern p =>
      let matches := List.filter (track_mask p) df in
      match matches with
      | [] => Returns []
      | _ =>
          let stats :=
            omap (agg_search false) (groupby cmp_str3 key_track_artist_album matches) in
          Returns (head limit (sort_values_desc (fun r => inject_Z (s_play_count r)) stats))
      end
  end.

Definition search_artists (df : list PlayEvent) (query : string) (limit : Z)
    : outcome (list (SearchRow string)) :=
  let query_lower := lower query in
  match Re.compile query_lower with
  | Re.Unmodelled => NotModelled
  | Re.Invalid => Raises ReError
  | Re.Pattern p =>
      let matches := List.filter (artist_mask p) df in
      match matches with
      | [] => Returns []
      | _ =>
          let stats := omap (agg_search true) (groupby cmp_str key_artist matches) in
          Returns (head limit (sort_values_desc (fun r => inject_Z (s_play_count r)) stats))
      end
  end.
End Search.

(** *** get_playlist_overlap *)

Record Overlap := {
  playlist1 : string;
  playlist2 : string;
  p1_track_count : nat;
  p2_track_count : nat;
  p1_artist_count : nat;
  p2_artist_count : nat;
  shared_artists : gset (option string);
  shared_artist_count : nat;
  shared_tracks : gset (option string * option string);
  shared_track_count : nat
}.

(** [df] is the frame [get_all_playlist_tracks()] returns; the empty
    dictionary returned for an empty frame is [None]. *)
Definition get_playlist_overlap (df : list PlaylistEntry) (playlist1 playlist2 : string)
    : option Overlap :=
  match df with
  | [] => None
  | _ =>
      let p1 := List.filter (fun r => String.eqb (playlist r) playlist1) df in
      let p2 := List.filter (fun r => String.eqb (playlist r) playlist2) df in
      let p1_artists : gset (option string) := list_to_set (map pl_artist p1) in
      let p2_artists : gset (option string) := list_to_set (map pl_artist p2) in
      let shared_artists := p1_artists ∩ p2_artists in
      let p1_tracks : gset (option string * option string) :=
        list_to_set (map (fun r => (pl_track r, pl_artist r)) p1) in
      let p2_tracks : gset (option string * option string) :=
        list_to_set (map (fun r => (pl_track r, pl_artist r)) p2) in
      let shared_tracks := p1_tracks ∩ p2_tracks in
      Some {| playlist1 := playlist1;
              playlist2 := playlist2;
              p1_track_count := length p1;
              p2_track_count := length p2;
              p1_artist_count := size p1_artists;
              p2_artist_count := size p2_artists;
              shared_artists := shared_artists;
              shared_artist_count := size shared_artists;
              shared_tracks := shared_tracks;
              shared_track_count := size shared_tracks |}
  end.

End DataLoader.

(** ** spotify_api.py *)

Module SpotifyApi.
Import Py.

(** *** What the Web API sends back *)

(** An entry of the ["artists"] list that is a non-empty object.  A field
    is [None] when the key is missing. *)
Record ArtistObj := {
  artist_id : option string;
  artist_genres : option (list string)
}.

Record ArtistRef := {
  ref_id : option string;
  ref_name : option string
}.

(** An entry of the ["tracks"] list that is a non-empty object. *)
Record TrackObj := {
  track_id : option string;
  track_artists : option (list ArtistRef)
}.

(** A JSON object, by the keys the client reads.  In the two lists an
    entry is [None] when it is falsy ([null] or an empty object). *)
Record JsonObject := {
  j_artists : option (list (option ArtistObj));
  j_tracks : option (list (option TrackObj));
  j_access_token : option string;
  j_expires_in : option Z
}.

Inductive Body :=
| NoObject                  (* not JSON, or JSON that is not an object *)
| Object (o : JsonObject).

Record Response := {
  status_code : Z;
  retry_after : option string;     (* the Retry-After header *)
  body : Body
}.

Inductive Request :=
| GetArtists (ids : string) (token : string)
| GetTracks (ids : string) (token : string)
| PostToken (client_id client_secret : string).

(** [requests.get] / [requests.post] either raise or hand back a response. *)
Inductive Reply :=
| Fails (e : exn)
| Answers (r : Response).

(** *** The world the client runs in *)

Definition GenreCache := gmap string (list string).

(** A cache file, by what reading it does.  A file holding a JSON value
    that is not an object is outside the model. *)
Inductive File (A : Type) :=
| Missing
| Garbled                   (* cannot be opened or read (IOError), or is not valid JSON *)
| Undecodable               (* its bytes are not UTF-8: UnicodeDecodeError *)
| Content (a : A).          (* a JSON object *)
Arguments Missing {A}.
Arguments Garbled {A}.
Arguments Undecodable {A}.
Arguments Content {A} _.

(** The ["expires_at"] entry of the token file.  Dates are local dates
    without a time zone, as [isoformat] writes them, in ms on the clock
    of the world; an entry that is not a string is outside the model. *)
Inductive Expiry :=
| NoExpiry                  (* key missing: the default is 2000-01-01 *)
| BadExpiry                 (* a string that is not an ISO date: ValueError *)
| ExpiresAt (t : Z).

(** The token file's object; [tf_access_token] is [None] when the key is
    missing, [tf_other_keys] tells whether it has keys besides the two. *)
Record TokenFile := {
  tf_access_token : option string;
  tf_expires_at : Expiry;
  tf_other_keys : bool
}.

(** [bool(d)] on the token file's object: it has a key. *)
Definition token_file_truthy (data : TokenFile) : bool :=
  (match tf_access_token data with Some _ => true | None => false end
   || match tf_expires_at data with NoExpiry => false | _ => true end
   || tf_other_keys data)%bool.

Inductive Event :=
| Requested (r : Request)
| Slept (ms : Z)
| Printed (msg : string)
| WroteGenreCache (c : GenreCache)
| WroteTokenCache (token : string) (expires_at : Z).

Record World := {
  requests_available : bool;                   (* REQUESTS_AVAILABLE *)
  client_id : option string;                   (* SPOTIFY_CLIENT_ID *)
  client_secret : option string;               (* SPOTIFY_CLIENT_SECRET *)
  genre_cache_file : File GenreCache;
  token_cache_file : File TokenFile;
  cache_writable : bool;                       (* .cache can be made and its files written *)
  now : Z;                                     (* the clock: ms since 0001-01-01, local time *)
  longest_sleep : Z;                           (* the longest sleep the platform takes, in ms *)
  server : nat -> Request -> Reply;            (* reply to the n-th request *)
  sent : nat;                                  (* requests sent so far *)
  trace : list Event                           (* what has been done, oldest first *)
}.

Definition set_trace (w : World) (t : list Event) : World :=
  {| requests_available := requests_available w; client_id := client_id w;
     client_secret := client_secret w; genre_cache_file := genre_cache_file w;
     token_cache_file := token_cache_file w; cache_writable := cache_writable w;
     now := now w; longest_sleep := longest_sleep w; server := server w;
     sent := sent w; trace := t |}.

Definition log (ev : Event) (w : World) : World := set_trace w (trace w ++ [ev]).

Definition set_sent (w : World) (n : nat) : World :=
  {| requests_available := requests_available w; client_id := client_id w;
     client_secret := client_secret w; genre_cache_file := genre_cache_file w;
     token_cache_file := token_cache_file w; cache_writable := cache_writable w;
     now := now w; longest_sleep := longest_sleep w; server := server w;
     sent := n; trace := trace w |}.

Definition set_now (w : World) (t : Z) : World :=
  {| requests_available := requests_available w; client_id := client_id w;
     client_secret := client_secret w; genre_cache_file := genre_cache_file w;
     token_cache_file := token_cache_file w; cache_writable := cache_writable w;
     now := t; longest_sleep := longest_sleep w; server := server w;
     sent := sent w; trace := trace w |}.

Definition set_genre_cache_file (w : World) (f : File GenreCache) : World :=
  {| requests_available := requests_available w; client_id := client_id w;
     client_secret := client_secret w; genre_cache_file := f;
     token_cache_file := token_cache_file w; cache_writable := cache_writable w;
     now := now w; longest_sleep := longest_sleep w; server := server w;
     sent := sent w; trace := trace w |}.

Definition set_token_cache_file (w : World) (f : File TokenFile) : World :=
  {| requests_available := requests_available w; client_id := client_id w;
     client_secret := client_secret w; genre_cache_file := genre_cache_file w;
     token_cache_file := f; cache_writable := cache_writable w;
     now := now w; longest_sleep := longest_sleep w; server := server w;
     sent := sent w; trace := trace w |}.

(** *** Computations: state, and exceptions that keep the state *)

Inductive result (A : Type) :=
| Ok (a : A)
| Raise (e : exn).
Arguments Ok {A} _.
Arguments Raise {A} _.

(** A computation over the world and the local variables [L] of the
    running function.  An exception leaves the state as it was when it
    was raised: nothing is rolled back. *)
Definition M (L A : Type) : Type := World * L -> result A * (World * L).

Definition ret {L A} (a : A) : M L A := fun s => (Ok a, s).

Definition bind {L A B} (c : M L A) (k : A -> M L B) : M L B :=
  fun s => match c s with
           | (Ok a, s') => k a s'
           | (Raise e, s') => (Raise e, s')
           end.

Definition raise {L A} (e : exn) : M L A := fun s => (Raise e, s).

(** [try: c  except Exception as e: h e] *)
Definition try_except {L A} (c : M L A) (h : exn -> M L A) : M L A :=
  fun s => match c s with
           | (Raise e, s') => h e s'
           | r => r
           end.

Notation "x <- c ;; k" := (bind c (fun x => k))
  (at level 100, c at next level, right associativity).
Notation "c ;;; k" := (bind c (fun _ => k))
  (at level 100, right associativity).

Definition get_world {L} : M L World := fun s => (Ok (fst s), s).
Definition update_world {L} (f : World -> World) : M L unit :=
  fun s => (Ok tt, (f (fst s), snd s)).
Definition update_local {L} (f : L -> L) : M L unit :=
  fun s => (Ok tt, (fst s, f (snd s))).

(** Lift a fallible pure step. *)
Definition lift {L A} (r : exn + A) : M L A :=
  match r with inl e => raise e | inr a => ret a end.

(** [for x in l: body x] *)
Fixpoint for_each {L A} (l : list A) (body : A -> M L unit) : M L unit :=
  match l with
  | [] => ret tt
  | x :: l' => body x ;;; for_each l' body
  end.

(** Call a function: it runs on locals of its own, starting from [init];
    the caller's locals are untouched. *)
Definition call {L L' A} (init : L') (c : M L' A) : M L (A * L') :=
  fun s => match c (fst s, init) with
           | (Ok a, (w', l')) => (Ok (a, l'), (w', snd s))
           | (Raise e, (w', _)) => (Raise e, (w', snd s))
           end.

(** Run a top-level call in a world. *)
Definition run {A} (c : M unit A) (w : World) : result A * World :=
  match c (w, tt) with (r, (w', _)) => (r, w') end.

(** *** Effects *)

Definition print {L} (msg : string) : M L unit := update_world (log (Printed msg)).

(** The largest and the smallest 64-bit integer. *)
Definition INT64_MAX : Z := 9223372036854775807.
Definition INT64_MIN : Z := -9223372036854775808.

(** The platform takes every sleep up to [longest_sleep], which is a day
    at the least. *)
Definition DAY : Z := 86400000.
Definition sleep_limit (w : World) : Z := Z.max DAY (longest_sleep w).

(** What [time.sleep] raises for a length, if anything: [OverflowError]
    when the length in nanoseconds does not fit 64 bits, [ValueError] when
    it is negative, [OSError] when the platform refuses it. *)
Definition sleep_error (w : World) (ms : Z) : option exn :=
  if (Z.ltb INT64_MAX (1000000 * ms) || Z.ltb (1000000 * ms) INT64_MIN)%bool
  then Some OverflowError
  else if Z.ltb ms 0 then Some ValueError
  else if Z.ltb (sleep_limit w) ms then Some IOError
  else None.

(** [time.sleep(ms / 1000)] *)
Definition time_sleep {L} (ms : Z) : M L unit :=
  w <- get_world ;;
  match sleep_error w ms with
  | Some e => raise e
  | None => update_world (fun w => log (Slept ms) (set_now w (now w + ms)))
  end.

(** [requests.get(...)] / [requests.post(...)] *)
Definition send {L} (req : Request) : M L Response :=
  w <- get_world ;;
  update_world (fun w => log (Requested req) (set_sent w (S (sent w)))) ;;;
  match server w (sent w) req with
  | Fails e => raise e
  | Answers r => ret r
  end.

(** [response.raise_for_status()] *)
Definition raise_for_status {L} (r : Response) : M L unit :=
  if (Z.leb 400 (status_code r) && Z.ltb (status_code r) 600)%bool
  then raise HTTPError else ret tt.

(** [response.json()], which must be an object for [.get] and [[...]]. *)
Definition json {L} (r : Response) : M L JsonObject :=
  match body r with
  | NoObject => raise JSONDecodeError
  | Object o => ret o
  end.

(** [d[key]] *)
Definition getitem {L A} (field : option A) : M L A :=
  match field with
  | None => raise KeyError
  | Some a => ret a
  end.

(** [d.get(key, default)] *)
Definition get_or {A} (field : option A) (default : A) : A :=
  match field with
  | None => default
  | Some a => a
  end.

(** *** Credentials and the two cache files *)

Definition is_api_available {L} : M L bool :=
  w <- get_world ;;
  if negb (requests_available w) then ret false
  else ret (truthy_opt (client_id w) && truthy_opt (client_secret w))%bool.

(** A file that is missing, cannot be read or is not JSON reads as the
    empty cache; the handler does not catch [UnicodeDecodeError]. *)
Definition load_genre_cache {L} : M L GenreCache :=
  w <- get_world ;;
  match genre_cache_file w with
  | Content c => ret c
  | Missing | Garbled => ret ∅
  | Undecodable => raise UnicodeDecodeError
  end.

(** [CACHE_DIR.mkdir(exist_ok=True)], together with the [open(file, "w")]
    that follows it: when the cache cannot be written, one or the other
    raises [OSError]. *)
Definition _ensure_cache_dir {L} : M L unit :=
  w <- get_world ;;
  if cache_writable w then ret tt else raise IOError.

Definition save_genre_cache {L} (cache : GenreCache) : M L unit :=
  _ensure_cache_dir ;;;
  update_world (fun w => log (WroteGenreCache cache) (set_genre_cache_file w (Content cache))).

(** 2000-01-01 and the end of 9999-12-31 on the clock: [datetime] has
    the dates from [0] up to [DATETIME_END]. *)
Definition Y2000 : Z := 730119 * 86400000.
Definition DATETIME_END : Z := 3652059 * 86400000.

(** The token file is returned when it holds an expiry date in the
    future; [UnicodeDecodeError] is a [ValueError], which is caught. *)
Definition _load_token_cache {L} : M L (option TokenFile) :=
  w <- get_world ;;
  match token_cache_file w with
  | Missing | Garbled | Undecodable => ret None
  | Content data =>
      match tf_expires_at data with
      | ExpiresAt t => if Z.ltb (now w) t then ret (Some data) else ret None
      | NoExpiry => if Z.ltb (now w) Y2000 then ret (Some data) else ret None
      | BadExpiry => ret None
      end
  end.

(** [timedelta(seconds=s)]: no more than 999999999 days either way. *)
Definition timedelta_fits (s : Z) : bool :=
  Z.leb (Z.abs (s / 86400)) 999999999.

(** [expires_at = datetime.now() + timedelta(seconds=expires_in - 60)],
    which raises [OverflowError] when the time span or the date is out of
    range, before the file is opened. *)
Definition _save_token_cache {L} (token : string) (expires_in : Z) : M L unit :=
  _ensure_cache_dir ;;;
  w <- get_world ;;
  let expires_at := now w + 1000 * (expires_in - 60) in
  if negb (timedelta_fits (expires_in - 60) && Z.leb 0 expires_at
           && Z.ltb expires_at DATETIME_END)%bool
  then raise OverflowError
  else
    update_world (fun w =>
      log (WroteTokenCache token expires_at)
          (set_token_cache_file w
             (Content {| tf_access_token := Some token;
                         tf_expires_at := ExpiresAt expires_at;
                         tf_other_keys := false |}))).

(** The client-credentials request of [get_access_token]. *)
Definition request_token {L} : M L (option string) :=
  try_except
    (w <- get_world ;;
     id <- getitem (client_id w) ;;
     secret <- getitem (client_secret w) ;;
     response <- send (PostToken id secret) ;;
     raise_for_status response ;;;
     data <- json response ;;
     token <- getitem (j_access_token data) ;;
     _save_token_cache token (get_or (j_expires_in data) 3600) ;;;
     ret (Some token))
    (fun _ => print "Failed to get Spotify access token" ;;; ret None).

Definition get_access_token {L} : M L (option string) :=
  available <- is_api_available ;;
  if negb available then ret None
  else
    cached <- _load_token_cache ;;
    match cached with
    | Some data =>
        if token_file_truthy data
        then token <- getitem (tf_access_token data) ;; ret (Some token)
        else request_token
    | None => request_token
    end.

(** *** The batch fetches *)

(** A Python dictionary with string keys, in insertion order. *)
Definition Dict (V : Type) := list (string * V).

(** [d[k] = v] *)
Fixpoint dict_set {V} (k : string) (v : V) (d : Dict V) : Dict V :=
  match d with
  | [] => [(k, v)]
  | (k', v') :: d' =>
      if String.eqb k k' then (k, v) :: d' else (k', v') :: dict_set k v d'
  end.

(** [list(set(x for x in ids if x))]: the distinct non-empty identifiers,
    in an order of the set's choosing. *)
Definition unique_ids (ids : list string) : list string :=
  elements (list_to_set (List.filter truthy ids) : gset string).

(** The iterations of [for i in range(0, len(unique_ids), 50)], each
    with its [batch = unique_ids[i:i + 50]]. *)
Definition batches (unique_ids : list string) : list (nat * list string) :=
  map (fun i => (i, slice i (i + 50) unique_ids)) (range 0 (length unique_ids) 50).

(** [int(response.headers.get("Retry-After", 5))] *)
Definition retry_after_seconds (r : Response) : exn + Z :=
  match retry_after r with
  | None => inr 5
  | Some v => int v
  end.

(** The request of one batch up to [raise_for_status]; the two fetch
    functions have the same text here, but for the message the artist
    one prints before it sleeps. *)
Definition get_with_retry {L} (req : Request) (announce : bool) : M L Response :=
  response <- send req ;;
  response <-
    (if Z.eqb (status_code response) 429 then
       retry_after <- lift (retry_after_seconds response) ;;
       (if announce then print "Rate limited. Waiting" else ret tt) ;;;
       time_sleep (1000 * retry_after) ;;;
       send req
     else ret response) ;;
  raise_for_status response ;;;
  ret response.

Definition store_artist (artist : option ArtistObj) : M (Dict (list string)) unit :=
  match artist with
  | None => ret tt
  | Some a =>
      id <- getitem (artist_id a) ;;
      update_local (dict_set id (get_or (artist_genres a) []))
  end.

(** One iteration of the loop of [fetch_artists_genres]; [n] is
    [len(unique_ids)]. *)
Definition fetch_artists_batch (token : string) (n : nat) (b : nat * list string)
    : M (Dict (list string)) unit :=
  ok <- try_except
          (response <- get_with_retry (GetArtists (String.concat "," (snd b)) token) true ;;
           data <- json response ;;
           for_each (get_or (j_artists data) []) store_artist ;;;
           ret true)
          (fun _ => print "Error fetching artist batch" ;;; ret false) ;;
  if (ok && Nat.ltb (fst b + 50) n)%bool then time_sleep 100 else ret tt.

Definition fetch_artists_genres {L} (artist_ids : list string) (token : string)
    : M L (Dict (list string)) :=
  if (match artist_ids with [] => true | _ => false end || negb (truthy token))%bool
  then ret []
  else
    let unique_ids := unique_ids artist_ids in
    r <- call [] (for_each (batches unique_ids)
                           (fetch_artists_batch token (length unique_ids))) ;;
    ret (snd r).

Fixpoint map_m {L A B} (f : A -> M L B) (l : list A) : M L (list B) :=
  match l with
  | [] => ret []
  | x :: l' => y <- f x ;; ys <- map_m f l' ;; ret (y :: ys)
  end.

(** [{"id": a["id"], "name": a["name"]}] *)
Definition artist_of_ref {L} (a : ArtistRef) : M L (string * string) :=
  id <- getitem (ref_id a) ;;
  name <- getitem (ref_name a) ;;
  ret (id, name).

Definition store_track (track : option TrackObj) : M (Dict (list (string * string))) unit :=
  match track with
  | None => ret tt
  | Some t =>
      artists <- map_m artist_of_ref (get_or (track_artists t) []) ;;
      id <- getitem (track_id t) ;;
      update_local (dict_set id artists)
  end.

Definition fetch_tracks_batch (token : string) (n : nat) (b : nat * list string)
    : M (Dict (list (string * string))) unit :=
  ok <- try_except
          (response <- get_with_retry (GetTracks (String.concat "," (snd b)) token) false ;;
           data <- json response ;;
           for_each (get_or (j_tracks data) []) store_track ;;;
           ret true)
          (fun _ => print "Error fetching track batch" ;;; ret false) ;;
  if (ok && Nat.ltb (fst b + 50) n)%bool then time_sleep 100 else ret tt.

Definition fetch_track_artists {L} (track_ids : list string) (token : string)
    : M L (Dict (list (string * string))) :=
  if (match track_ids with [] => true | _ => false end || negb (truthy token))%bool
  then ret []
  else
    let unique_ids := unique_ids track_ids in
    r <- call [] (for_each (batches unique_ids)
                           (fetch_tracks_batch token (length unique_ids))) ;;
    ret (snd r).

(** *** enrich_with_genres *)

Definition extract_track_id (uri : string) : option string :=
  if negb (truthy uri) then None
  else if String.prefix "spotify:track:" uri then Some (split_last ":" uri)
  else None.

(** [series.unique()]: distinct values in order of first appearance. *)
Definition unique (l : list string) : list string :=
  fold_left (fun acc x => if bool_decide (x ∈ acc) then acc else acc ++ [x]) l [].

Definition keep_truthy (l : list (option string)) : list string :=
  omap (fun x => match x with
                 | Some s => if truthy s then Some s else None
                 | None => None
                 end) l.

Definition enrich_with_genres (artist_names : list string)
    (streaming_df : option (list DataLoader.PlayEvent)) (force_refresh : bool)
    : M unit GenreCache :=
  cache <- load_genre_cache ;;
  if (negb (bool_decide (cache = ∅)) && negb force_refresh)%bool then ret cache
  else
    available <- is_api_available ;;
    if negb available then
      print "Spotify API not configured. Using cached data only." ;;; ret cache
    else
      token <- get_access_token ;;
      if negb (truthy_opt token) then
        print "Could not get Spotify access token. Using cached data only." ;;; ret cache
      else
        let token := get_or token "" in
        match streaming_df with
        | None => ret cache
        | Some df =>
            let track_uris := unique (omap DataLoader.spotify_track_uri df) in
            let track_ids := keep_truthy (map extract_track_id track_uris) in
            print "Fetching artist info for tracks" ;;;
            track_artists <- fetch_track_artists (firstn 1000 track_ids) token ;;
            let refs := concat (map snd track_artists) in
            let artist_ids : gset string := list_to_set (map fst refs) in
            let artist_id_to_name : gmap string string :=
              fold_left (fun m r => <[fst r := snd r]> m) refs ∅ in
            print "Fetching genres for artists" ;;;
            artist_genres <- fetch_artists_genres (elements artist_ids) token ;;
            let result : GenreCache :=
              fold_left
                (fun m g =>
                   match artist_id_to_name !! fst g with
                   | Some name => if truthy name then <[name := snd g]> m else m
                   | None => m
                   end)
                artist_genres ∅ in
            let cache := result ∪ cache in
            save_genre_cache cache ;;;
            print "Cached genres for artists" ;;;
            ret cache
        end.

End SpotifyApi.

(** * More of data_loader.py *)

(** ** Loading, track statistics, platforms, skips, tracks off playlists *)

Module Aggregates.
Import Py DataLoader.

(** *** load_all_data *)



Section Load.
Variable to_datetime : string -> option Timestamp.

End Load.

(** *** get_track_stats *)

(** [col.str.lower() == name.lower()] on one cell; a null cell is no
    match. *)
Definition eq_lower (c : option string) (name : string) : bool :=
  match c with
  | None => false
  | Some s => String.eqb (lower s) (lower name)
  end.

(** The mask of [get_track_stats]; an artist name that is [None] or
    empty adds no condition. *)
Definition track_stats_mask (track_name : string) (artist_name : option string)
    (e : PlayEvent) : bool :=
  match artist_name with
  | Some a =>
      if truthy a then (eq_lower (track e) track_name && eq_lower (artist e) a)%bool
      else eq_lower (track e) track_name
  | None => eq_lower (track e) track_name
  end.

Definition ts_min_from (t : Timestamp) (l : list Timestamp) : Timestamp :=
  fold_left (fun m x => if Z.ltb (instant x) (instant m) then x else m) l t.

Definition ts_max_from (t : Timestamp) (l : list Timestamp) : Timestamp :=
  fold_left (fun m x => if Z.ltb (instant m) (instant x) then x else m) l t.

(** The dictionary [get_track_stats] returns. *)
Record TrackStats := {
  st_track : option string;
  st_artist : option string;
  st_album : option string;
  st_play_count : nat;
  st_total_minutes : Q;
  st_first_played : Timestamp;
  st_last_played : Timestamp;
  plays_by_year : list (Z * nat);       (* ascending by year *)
  plays_df : list PlayEvent
}.

Definition get_track_stats (df : list PlayEvent) (track_name : string)
    (artist_name : option string) : option TrackStats :=
  let track_df := List.filter (track_stats_mask track_name artist_name) df in
  match track_df with
  | [] => None
  | e :: rest =>
      Some {| st_track := track e;
              st_artist := artist e;
              st_album := album e;
              st_play_count := length track_df;
              st_total_minutes := Qsum (map minutes_played track_df);
              st_first_played := ts_min_from (ts e) (map ts rest);
              st_last_played := ts_max_from (ts e) (map ts rest);
              plays_by_year :=
                map (fun g => (fst g, length (snd g)))
                    (groupby Z.compare (fun e => Some (year e)) track_df);
              plays_df := track_df |}
  end.

(** *** get_artist_plays *)

Definition get_artist_plays (df : list PlayEvent) (artist_name : string) : list PlayEvent :=
  List.filter (fun e => eq_lower (artist e) artist_name) df.

(** *** get_top_albums *)

Definition key_album_artist (e : PlayEvent) : option (string * string) :=
  match album e, artist e with
  | Some b, Some a => Some (b, a)
  | _, _ => None
  end.

(** *** get_platform_stats *)

(** The keywords are ASCII, and [str.lower] turns no character outside
    A-Z into an ASCII letter but U+0130 (into "i" and a combining dot) and
    U+212A (into "k"); no keyword holds a "k", and none has anything but a
    letter after its "i".  So folding A-Z finds a keyword exactly when
    [p.lower()] holds it. *)
Definition simplify_platform (p : option string) : string :=
  match p with
  | None => "Unknown"
  | Some p =>
      let p_lower := lower p in
      if (contains "iphone" p_lower || contains "ios" p_lower)%bool then "iPhone"
      else if contains "android" p_lower then "Android"
      else if contains "windows" p_lower then "Windows"
      else if (contains "mac" p_lower || contains "osx" p_lower)%bool then "Mac"
      else if contains "web" p_lower then "Web Player"
      else if contains "linux" p_lower then "Linux"
      else "Other"
  end.

Definition key_platform (e : PlayEvent) : option string :=
  Some (simplify_platform (platform e)).

(** *** get_most_skipped *)

(** [df["skipped"] == True] on one cell. *)
Definition is_skipped (e : PlayEvent) : bool :=
  match skipped e with
  | Some true => true
  | _ => false
  end.

Record SkipRow := {
  skip_track : string;
  skip_artist : string;
  skip_count : Z
}.

Definition agg_skip (g : string * string * list PlayEvent) : SkipRow :=
  {| skip_track := fst (fst g);
     skip_artist := snd (fst g);
     skip_count := Z.of_nat (length (snd g)) |}.

(** *** get_not_on_playlist_stats *)

(** The result dictionary, without the rounded percentage. *)
Record NotOnPlaylistStats := {
  nop_total_unique_tracks : nat;
  on_playlist_count : nat;
  not_on_playlist_count : nat;
  not_on_playlist_plays : Z;
  not_on_playlist_minutes : Q
}.

Definition stats_on_playlist (ps : gset (option string * option string))
    (s : Stats (string * string)) : bool :=
  on_playlist ps (fst (key s)) (snd (key s)).

(** [playlist_tracks] is the frame [get_all_playlist_tracks()] returns.
    On a [track_counts] without rows, [apply(..., axis=1)] hands back a
    frame instead of a column of booleans; what the assignment to
    ["on_playlist"] does with it is left out of the model. *)
Definition get_not_on_playlist_stats (playlist_tracks : list PlaylistEntry)
    (df : list PlayEvent) : outcome NotOnPlaylistStats :=
  let ps := playlist_set playlist_tracks in
  let track_counts := map agg_stats (groupby cmp_str2 key_track_artist df) in
  match track_counts with
  | [] => NotModelled
  | _ =>
      let on_pl := List.filter (stats_on_playlist ps) track_counts in
      let not_on_pl := List.filter (fun s => negb (stats_on_playlist ps s)) track_counts in
      Returns {| nop_total_unique_tracks := length track_counts;
                 on_playlist_count := length on_pl;
                 not_on_playlist_count := length not_on_pl;
                 not_on_playlist_plays := Zsum (map play_count not_on_pl);
                 not_on_playlist_minutes := Qsum (map total_minutes not_on_pl) |}
  end.

(** *** get_top_not_on_playlist *)

Record OffPlaylistRow := {
  off_track : string;
  off_artist : string;
  off_album : string;
  off_play_count : Z;
  off_total_minutes : Q;
  off_last_played : Timestamp
}.

Definition agg_off (g : string * string * string * list PlayEvent) : option OffPlaylistRow :=
  match snd g with
  | [] => None
  | e :: rest =>
      Some {| off_track := fst (fst (fst g));
              off_artist := snd (fst (fst g));
              off_album := snd (fst g);
              off_play_count := Z.of_nat (length (snd g));
              off_total_minutes := Qsum (map minutes_played (snd g));
              off_last_played := ts_max_from (ts e) (map ts rest) |}
  end.

Section Ranked.
Context {sorter : Sorter}.

(** As in [get_not_on_playlist_stats], a [track_counts] without rows is
    left out of the model. *)
Definition get_top_not_on_playlist (playlist_tracks : list PlaylistEntry)
    (df : list PlayEvent) (limit : Z) : outcome (list OffPlaylistRow) :=
  let ps := playlist_set playlist_tracks in
  let track_counts := omap agg_off (groupby cmp_str3 key_track_artist_album df) in
  match track_counts with
  | [] => NotModelled
  | _ =>
      let not_on_playlist :=
        List.filter (fun r => negb (on_playlist ps (off_track r) (off_artist r)))
                    track_counts in
      Returns (head limit
                 (sort_values_desc (fun r => inject_Z (off_play_count r)) not_on_playlist))
  end.

Definition get_top_albums (df : list PlayEvent) (year : option Z) (limit : Z)
    : list (Stats (string * string)) :=
  let filtered := filter_year df year in
  let stats := map agg_stats (groupby cmp_str2 key_album_artist filtered) in
  head limit (sort_values_desc (fun s => inject_Z (play_count s)) stats).

Definition get_platform_stats (df : list PlayEvent) : list (Stats string) :=
  let stats := map agg_stats (groupby cmp_str key_platform df) in
  sort_values_desc (fun s => inject_Z (play_count s)) stats.

Definition get_most_skipped (df : list PlayEvent) (limit : Z) : list SkipRow :=
  let skipped := List.filter is_skipped df in
  let stats := map agg_skip (groupby cmp_str2 key_track_artist skipped) in
  head limit (sort_values_desc (fun r => inject_Z (skip_count r)) stats).
End Ranked.

End Aggregates.

(** ** The playlist export and its analysis *)

Module Playlists.
Import Py DataLoader.

(** *** Playlist1.json *)

(** The ["track"] object of an item; a field is [None] when the key is
    missing. *)
Record TrackJson := {
  trackName : option string;
  artistName : option string;
  albumName : option string;
  trackUri : option string
}.

(** An item of a playlist; [item_track] is [None] when [item.get("track")]
    is falsy (no key, [null], an empty object). *)
Record ItemJson := {
  item_track : option TrackJson
}.

(** A playlist object; a field is [None] when the key is missing. *)
Record PlaylistJson := {
  name : option string;
  lastModifiedDate : option string;
  collaborators : option (list string);
  items : option (list ItemJson)
}.

Definition EXCLUDED_PLAYLISTS : list string :=
  [ "SD/TB - Thanks 4 Sharing"; "SD/TB - Client Confirmed Bangers" ].

(** [x in EXCLUDED_PLAYLISTS] *)
Definition excluded (x : option string) : bool :=
  match x with
  | None => false
  | Some s => existsb (String.eqb s) EXCLUDED_PLAYLISTS
  end.

(** [p.get("name", "Unknown")] *)
Definition name_or_unknown (p : PlaylistJson) : string :=
  match name p with
  | Some s => s
  | None => "Unknown"
  end.

(** [load_playlists().get("playlists", [])]: the list is empty when the
    file is missing. *)
Definition load_playlists (file : option (list PlaylistJson)) : list PlaylistJson :=
  match file with
  | Some playlists => playlists
  | None => []
  end.

Definition get_playlist_names (data : list PlaylistJson) : list string :=
  map name_or_unknown (List.filter (fun p => negb (excluded (name p))) data).

(** [[i for i in items if i.get("track")]], as the track objects. *)
Definition track_items (p : PlaylistJson) : list TrackJson :=
  omap item_track (match items p with Some l => l | None => [] end).

Record PlaylistStat := {
  stat_name : string;
  track_count : nat;
  unique_artists : nat;
  last_modified : option string;
  collaborator_count : nat
}.

Definition stat_of (p : PlaylistJson) : PlaylistStat :=
  {| stat_name := name_or_unknown p;
     track_count := length (track_items p);
     unique_artists := size (list_to_set (map artistName (track_items p))
                             : gset (option string));
     last_modified := lastModifiedDate p;
     collaborator_count :=
       length (match collaborators p with Some l => l | None => [] end) |}.

Definition entry_of (playlist_name : string) (t : TrackJson) : PlaylistEntry :=
  {| playlist := playlist_name;
     pl_track := trackName t;
     pl_artist := artistName t;
     pl_album := albumName t;
     pl_uri := trackUri t |}.

Definition get_all_playlist_tracks (data : list PlaylistJson) : list PlaylistEntry :=
  flat_map
    (fun p =>
       let playlist_name := name_or_unknown p in
       if excluded (Some playlist_name) then []
       else map (entry_of playlist_name) (track_items p))
    data.

(** *** Queries over the flattened frame *)

Definition get_playlist_tracks (df : list PlaylistEntry) (playlist_name : string)
    : list PlaylistEntry :=
  match df with
  | [] => []
  | _ => List.filter (fun e => String.eqb (playlist e) playlist_name) df
  end.

Definition key_pair (e : PlaylistEntry) : option (string * string) :=
  match pl_track e, pl_artist e with
  | Some t, Some a => Some (t, a)
  | _, _ => None
  end.

(** [series.nunique()] of the playlist column of some rows. *)
Definition playlists_nunique (rows : list PlaylistEntry) : nat :=
  size (list_to_set (map playlist rows) : gset string).

Record DupRow := {
  dup_track : string;
  dup_artist : string;
  playlist_count : nat;
  playlists : list string
}.

Definition agg_dup (g : string * string * list PlaylistEntry) : DupRow :=
  {| dup_track := fst (fst g);
     dup_artist := snd (fst g);
     playlist_count := playlists_nunique (snd g);
     playlists := SpotifyApi.unique (map playlist (snd g)) |}.

(** A row of [get_artist_playlist_distribution]; [ar_track_count] counts
    the track cells of the group that are not null. *)
Record ArtistRow := {
  ar_artist : string;
  ar_playlist_count : nat;
  ar_track_count : nat;
  ar_playlists : list string
}.

Definition agg_artist (g : string * list PlaylistEntry) : ArtistRow :=
  {| ar_artist := fst g;
     ar_playlist_count := playlists_nunique (snd g);
     ar_track_count := length (omap pl_track (snd g));
     ar_playlists := SpotifyApi.unique (map playlist (snd g)) |}.

(** [series == value] on one cell: a null on either side is no match. *)
Definition cell_eq (c v : option string) : bool :=
  match c, v with
  | Some x, Some y => String.eqb x y
  | _, _ => false
  end.

(** [frame.drop_duplicates()] on (track, artist) rows: first occurrences,
    in order. *)
Definition drop_duplicates (l : list (option string * option string))
    : list (option string * option string) :=
  fold_left (fun acc x => if bool_decide (x ∈ acc) then acc else acc ++ [x]) l [].

Record OverlapRow := {
  ov_track : option string;
  ov_artist : option string;
  other_playlists : list string;
  overlap_count : nat
}.

(** The playlists other than [playlist_name] that hold the pair. *)
Definition others_with (df : list PlaylistEntry) (playlist_name : string)
    (pair : option string * option string) : list string :=
  SpotifyApi.unique
    (map playlist
       (List.filter
          (fun e => (cell_eq (pl_track e) (fst pair) && cell_eq (pl_artist e) (snd pair)
                     && negb (String.eqb (playlist e) playlist_name))%bool)
          df)).

(** The dictionary [get_overall_playlist_summary] returns, without the
    rounded average. *)
Record Summary := {
  total_playlists : nat;
  total_tracks : nat;
  sum_unique_tracks : nat;
  sum_unique_artists : nat;
  largest_playlist : string;
  largest_playlist_size : nat
}.

Section Sorted.
Context {sorter : Sorter}.

Definition get_playlist_stats (data : list PlaylistJson) : list PlaylistStat :=
  let stats := map stat_of (List.filter (fun p => negb (excluded (name p))) data) in
  match stats with
  | [] => []
  | _ => sort_values_desc (fun s => inject_Z (Z.of_nat (track_count s))) stats
  end.

Definition get_artist_playlist_distribution (df : list PlaylistEntry) (limit : Z)
    : list ArtistRow :=
  match df with
  | [] => []
  | _ =>
      let artist_playlists := map agg_artist (groupby cmp_str pl_artist df) in
      head limit
        (sort_values_desc (fun r => inject_Z (Z.of_nat (ar_playlist_count r)))
           artist_playlists)
  end.

Definition get_track_duplicates (df : list PlaylistEntry) : list DupRow :=
  match df with
  | [] => []
  | _ =>
      let dupes := map agg_dup (groupby cmp_str2 key_pair df) in
      let dupes := List.filter (fun r => Nat.ltb 1 (playlist_count r)) dupes in
      sort_values_desc (fun r => inject_Z (Z.of_nat (playlist_count r))) dupes
  end.

Definition get_playlist_track_overlaps (df : list PlaylistEntry) (playlist_name : string)
    : list OverlapRow :=
  match df with
  | [] => []
  | _ =>
      let playlist_tracks :=
        drop_duplicates
          (map (fun e => (pl_track e, pl_artist e))
               (List.filter (fun e => String.eqb (playlist e) playlist_name) df)) in
      match playlist_tracks with
      | [] => []
      | _ =>
          let results :=
            omap (fun pair =>
                    match others_with df playlist_name pair with
                    | [] => None
                    | others =>
                        Some {| ov_track := fst pair; ov_artist := snd pair;
                                other_playlists := others;
                                overlap_count := length others |}
                    end)
                 playlist_tracks in
          match results with
          | [] => []
          | _ => sort_values_desc (fun r => inject_Z (Z.of_nat (overlap_count r))) results
          end
      end
  end.

Definition get_overall_playlist_summary (data : list PlaylistJson) : option Summary :=
  let df := get_all_playlist_tracks data in
  let stats := get_playlist_stats data in
  match df with
  | [] => None
  | _ =>
      Some {| total_playlists := length stats;
              total_tracks := length df;
              sum_unique_tracks := size (playlist_set df);
              sum_unique_artists := nunique (map pl_artist df);
              largest_playlist :=
                match stats with s :: _ => stat_name s | [] => EmptyString end;
              largest_playlist_size :=
                match stats with s :: _ => track_count s | [] => O end |}
  end.
End Sorted.

End Playlists.

(** * Properties of data_loader.py *)

Module DataLoaderSpec.
Import Py DataLoader.

(** ** Sample data *)

Definition tuesday_1pm : Timestamp :=
  {| instant := 1578402000; dt_year := 2020; dt_month := 1; dt_day := 7;
     dt_hour := 13; dt_dayofweek := 1; dt_day_name := "Tuesday" |}.

Definition friday_9am : Timestamp :=
  {| instant := 1578646800; dt_year := 2020; dt_month := 1; dt_day := 10;
     dt_hour := 9; dt_dayofweek := 4; dt_day_name := "Friday" |}.

(** A toy [to_datetime] that knows two dates. *)
Definition sample_to_datetime (s : string) : option Timestamp :=
  if String.eqb s "2020-01-07T13:00:00Z" then Some tuesday_1pm
  else if String.eqb s "2020-01-10T09:00:00Z" then Some friday_9am
  else None.

Definition raw_music (when_ : string) (t a b : string) (ms : Z) : Raw.Event :=
  {| Raw.ts := when_; Raw.ms_played := ms;
     Raw.master_metadata_track_name := Some t;
     Raw.master_metadata_album_artist_name := Some a;
     Raw.master_metadata_album_album_name := Some b;
     Raw.episode_name := None; Raw.audiobook_title := None;
     Raw.skipped := Some false; Raw.platform := Some "linux";
     Raw.spotify_track_uri := None |}.

Definition raw_podcast (when_ : string) (episode : string) (ms : Z) : Raw.Event :=
  {| Raw.ts := when_; Raw.ms_played := ms;
     Raw.master_metadata_track_name := None;
     Raw.master_metadata_album_artist_name := None;
     Raw.master_metadata_album_album_name := None;
     Raw.episode_name := Some episode; Raw.audiobook_title := None;
     Raw.skipped := Some false; Raw.platform := Some "linux";
     Raw.spotify_track_uri := None |}.

(** A loaded music row. *)
Definition music (t : Timestamp) (tr ar al : string) (ms : Z) : PlayEvent :=
  add_columns (raw_music "" tr ar al ms) t.

Definition entry (p tr ar : string) : PlaylistEntry :=
  {| playlist := p; pl_track := Some tr; pl_artist := Some ar;
     pl_album := None; pl_uri := None |}.

(** ** The stable sorter is a [Sorter] *)

Lemma insert_desc_perm {A} (col : A -> Q) x l :
  Permutation (x :: l) (insert_desc col x l).
Proof.
  induction l as [|y l IH]; simpl; [reflexivity|].
  destruct (Qle_bool (col y) (col x)); [reflexivity|].
  rewrite perm_swap. now apply perm_skip.
Qed.

Lemma stable_sort_desc_perm {A} (col : A -> Q) l :
  Permutation l (stable_sort_desc col l).
Proof.
  induction l as [|x l IH]; simpl; [reflexivity|].
  rewrite <- insert_desc_perm. now apply perm_skip.
Qed.

Lemma insert_desc_sorted {A} (col : A -> Q) x l :
  StronglySorted (fun a b => (col b <= col a)%Q) l ->
  StronglySorted (fun a b => (col b <= col a)%Q) (insert_desc col x l).
Proof.
  induction 1 as [|y l Hs IH Hy]; simpl.
  - repeat constructor.
  - destruct (Qle_bool (col y) (col x)) eqn:E.
    + apply Qle_bool_iff in E.
      constructor; [now constructor|].
      constructor; [exact E|].
      eapply List.Forall_impl; [|exact Hy].
      intros z Hz. simpl in Hz. now apply Qle_trans with (col y).
    + assert (Hlt : (col x < col y)%Q).
      { apply Qnot_le_lt. intros Hle. apply Qle_bool_iff in Hle. congruence. }
      constructor; [exact IH|].
      apply (Permutation_Forall (insert_desc_perm col x l)).
      constructor; [now apply Qlt_le_weak | exact Hy].
Qed.

Lemma stable_sort_desc_sorted {A} (col : A -> Q) l :
  StronglySorted (fun a b => (col b <= col a)%Q) (stable_sort_desc col l).
Proof.
  induction l as [|x l IH]; simpl; [constructor|].
  now apply insert_desc_sorted.
Qed.

Definition stable_sorter : Sorter :=
  {| sort_values_desc := @stable_sort_desc;
     sort_values_perm := @stable_sort_desc_perm;
     sort_values_sorted := @stable_sort_desc_sorted |}.

(** ** groupby lists each key once, in ascending order *)

(** A comparison that is a strict total order. *)
Class CmpOk {K : Type} (cmp : K -> K -> comparison) : Prop := {
  cmp_eq : forall a b, cmp a b = Eq <-> a = b;
  cmp_antisym : forall a b, cmp b a = CompOpp (cmp a b);
  cmp_trans : forall a b c, cmp a b = Lt -> cmp b c = Lt -> cmp a c = Lt
}.

Lemma ascii_compare_refl (a : ascii) : Ascii.compare a a = Eq.
Proof. apply N.compare_refl. Qed.

Lemma ascii_compare_trans (a b c : ascii) :
  Ascii.compare a b = Lt -> Ascii.compare b c = Lt -> Ascii.compare a c = Lt.
Proof.
  unfold Ascii.compare. rewrite !N.compare_lt_iff. apply N.lt_trans.
Qed.

Lemma string_compare_refl (s : string) : String.compare s s = Eq.
Proof.
  induction s as [|a s IH]; simpl; [reflexivity|].
  now rewrite ascii_compare_refl.
Qed.

Lemma string_compare_trans (s1 s2 s3 : string) :
  String.compare s1 s2 = Lt -> String.compare s2 s3 = Lt -> String.compare s1 s3 = Lt.
Proof.
  revert s2 s3. induction s1 as [|a s1 IH]; intros [|b s2] [|c s3]; simpl;
    try discriminate; try reflexivity.
  destruct (Ascii.compare a b) eqn:Hab; try discriminate;
    destruct (Ascii.compare b c) eqn:Hbc; try discriminate; intros H12 H23.
  - apply Ascii.compare_eq_iff in Hab, Hbc. subst.
    rewrite ascii_compare_refl. now apply IH with s2.
  - apply Ascii.compare_eq_iff in Hab. subst. now rewrite Hbc.
  - apply Ascii.compare_eq_iff in Hbc. subst. now rewrite Hab.
  - now rewrite (ascii_compare_trans a b c).
Qed.

#[export] Instance cmp_str_ok : CmpOk cmp_str.
Proof.
  split.
  - intros a b. split; [apply String.compare_eq_iff | intros ->; apply string_compare_refl].
  - intros a b. apply String.compare_antisym.
  - apply string_compare_trans.
Qed.

#[export] Instance cmp_Z_ok : CmpOk Z.compare.
Proof.
  split.
  - apply Z.compare_eq_iff.
  - intros a b. apply Z.compare_antisym.
  - intros a b c. rewrite !Z.compare_lt_iff. apply Z.lt_trans.
Qed.

#[export] Instance cmp_pair_ok {A B} (ca : A -> A -> comparison) (cb : B -> B -> comparison)
    `{!CmpOk ca} `{!CmpOk cb} : CmpOk (cmp_pair ca cb).
Proof.
  split.
  - intros [a1 b1] [a2 b2]. unfold cmp_pair. simpl.
    destruct (ca a1 a2) eqn:Ha.
    + apply cmp_eq in Ha as ->. rewrite cmp_eq. split; [now intros -> | now intros [= ->]].
    + split; [discriminate | intros [= -> ->]].
      rewrite (proj2 (cmp_eq a2 a2) eq_refl) in Ha. discriminate.
    + split; [discriminate | intros [= -> ->]].
      rewrite (proj2 (cmp_eq a2 a2) eq_refl) in Ha. discriminate.
  - intros [a1 b1] [a2 b2]. unfold cmp_pair. simpl.
    rewrite (cmp_antisym a1 a2). destruct (ca a1 a2); simpl; try reflexivity.
    apply cmp_antisym.
  - intros [a1 b1] [a2 b2] [a3 b3]. unfold cmp_pair. simpl.
    destruct (ca a1 a2) eqn:H12; try discriminate;
      destruct (ca a2 a3) eqn:H23; try discriminate; intros Hb12 Hb23.
    + apply cmp_eq in H12, H23. subst.
      rewrite (proj2 (cmp_eq a3 a3) eq_refl). now apply cmp_trans with b2.
    + apply cmp_eq in H12. subst. now rewrite H23.
    + apply cmp_eq in H23. subst. now rewrite H12.
    + now rewrite (cmp_trans a1 a2 a3).
Qed.

Section GroupByFacts.
Context {K R : Type} (cmp : K -> K -> comparison) `{!CmpOk cmp}.

Definition keys_ascending (gs : list (K * list R)) : Prop :=
  StronglySorted (fun g1 g2 => cmp (fst g1) (fst g2) = Lt) gs.

(** The rows of the group of [k], or none. *)
Fixpoint group_rows (k : K) (gs : list (K * list R)) : list R :=
  match gs with
  | [] => []
  | g :: gs' =>
      match cmp k (fst g) with
      | Eq => snd g
      | _ => group_rows k gs'
      end
  end.

Lemma cmp_refl (k : K) : cmp k k = Eq.
Proof. now apply cmp_eq. Qed.

Lemma cmp_gt_lt (a b : K) : cmp a b = Gt -> cmp b a = Lt.
Proof. intros H. rewrite cmp_antisym, H. reflexivity. Qed.

Lemma cmp_neq (a b : K) : a <> b -> cmp a b <> Eq.
Proof. intros Hne He. now apply cmp_eq in He. Qed.

Lemma group_insert_above (k0 k : K) (r : R) (gs : list (K * list R)) :
  cmp k0 k = Lt ->
  Forall (fun g => cmp k0 (fst g) = Lt) gs ->
  Forall (fun g => cmp k0 (fst g) = Lt) (group_insert cmp k r gs).
Proof.
  intros Hk. induction 1 as [|[k' rs] gs Hg Hgs IH]; simpl.
  - now repeat constructor.
  - destruct (cmp k k'); repeat constructor; auto.
Qed.

Lemma group_insert_ascending (k : K) (r : R) (gs : list (K * list R)) :
  keys_ascending gs -> keys_ascending (group_insert cmp k r gs).
Proof.
  induction 1 as [|[k' rs] gs Hs IH Hall]; simpl.
  - repeat constructor.
  - destruct (cmp k k') eqn:Hc.
    + constructor; [exact Hs | exact Hall].
    + constructor; [now constructor|].
      constructor; [exact Hc|].
      eapply List.Forall_impl; [|exact Hall].
      intros g Hg. simpl in *. now apply cmp_trans with k'.
    + constructor; [exact IH|].
      apply group_insert_above; [now apply cmp_gt_lt | exact Hall].
Qed.

Lemma group_rows_absent (k : K) (gs : list (K * list R)) :
  Forall (fun g => cmp k (fst g) = Lt) gs -> group_rows k gs = [].
Proof.
  induction 1 as [|g gs Hg Hgs IH]; simpl; [reflexivity|].
  now rewrite Hg.
Qed.

Lemma group_rows_insert_same (k : K) (r : R) (gs : list (K * list R)) :
  keys_ascending gs ->
  group_rows k (group_insert cmp k r gs) = group_rows k gs ++ [r].
Proof.
  induction 1 as [|[k' rs] gs Hs IH Hall]; simpl.
  - now rewrite cmp_refl.
  - destruct (cmp k k') eqn:Hc; simpl.
    + now rewrite Hc.
    + rewrite cmp_refl. rewrite group_rows_absent; [reflexivity|].
      eapply List.Forall_impl; [|exact Hall].
      intros g Hg. simpl in *. now apply cmp_trans with k'.
    + rewrite Hc. exact IH.
Qed.

Lemma group_rows_insert_other (k k0 : K) (r : R) (gs : list (K * list R)) :
  k <> k0 ->
  group_rows k0 (group_insert cmp k r gs) = group_rows k0 gs.
Proof.
  intros Hne. induction gs as [|[k' rs] gs IH]; simpl.
  - destruct (cmp k0 k) eqn:Hc; try reflexivity.
    apply cmp_eq in Hc. congruence.
  - destruct (cmp k k') eqn:Hc; simpl.
    + apply cmp_eq in Hc as <-.
      destruct (cmp k0 k) eqn:Hc0; try reflexivity.
      apply cmp_eq in Hc0. congruence.
    + destruct (cmp k0 k) eqn:Hc0; try reflexivity.
      apply cmp_eq in Hc0. congruence.
    + destruct (cmp k0 k'); [reflexivity | exact IH | exact IH].
Qed.

Lemma group_insert_nonempty (k : K) (r : R) (gs : list (K * list R)) :
  Forall (fun g => snd g <> []) gs ->
  Forall (fun g => snd g <> []) (group_insert cmp k r gs).
Proof.
  induction 1 as [|[k' rs] gs Hg Hgs IH]; simpl.
  - now repeat constructor.
  - destruct (cmp k k'); repeat constructor; auto.
    simpl. now destruct rs.
Qed.

Lemma in_group_rows (k : K) (rs : list R) (gs : list (K * list R)) :
  keys_ascending gs -> In (k, rs) gs -> group_rows k gs = rs.
Proof.
  induction 1 as [|[k' rs'] gs Hs IH Hall]; simpl; [tauto|].
  intros [[= -> ->] | Hin].
  - now rewrite cmp_refl.
  - rewrite List.Forall_forall in Hall. specialize (Hall _ Hin). simpl in Hall.
    rewrite cmp_antisym, Hall. simpl. now apply IH.
Qed.

Lemma group_rows_in (k : K) (gs : list (K * list R)) :
  group_rows k gs <> [] -> In (k, group_rows k gs) gs.
Proof.
  induction gs as [|[k' rs] gs IH]; simpl; [tauto|].
  destruct (cmp k k') eqn:Hc; intros Hne.
  - apply cmp_eq in Hc as ->. now left.
  - right. now apply IH.
  - right. now apply IH.
Qed.

Variable key : R -> option K.

Lemma groupby_snoc (df : list R) (r : R) :
  groupby cmp key (df ++ [r])
  = match key r with
    | Some k => group_insert cmp k r (groupby cmp key df)
    | None => groupby cmp key df
    end.
Proof. unfold groupby. now rewrite fold_left_app. Qed.

Lemma groupby_ascending (df : list R) : keys_ascending (groupby cmp key df).
Proof.
  induction df as [|r df IH] using rev_ind; [constructor|].
  rewrite groupby_snoc. destruct (key r); [|exact IH].
  now apply group_insert_ascending.
Qed.

Lemma groupby_nonempty (df : list R) :
  Forall (fun g => snd g <> []) (groupby cmp key df).
Proof.
  induction df as [|r df IH] using rev_ind; [constructor|].
  rewrite groupby_snoc. destruct (key r); [|exact IH].
  now apply group_insert_nonempty.
Qed.

(** The rows of [df] whose key is [k]. *)
Definition rows_with_key (k : K) (df : list R) : list R :=
  List.filter (fun r => match key r with
                        | Some k' => match cmp k k' with Eq => true | _ => false end
                        | None => false
                        end) df.

Lemma groupby_rows (k : K) (df : list R) :
  group_rows k (groupby cmp key df) = rows_with_key k df.
Proof.
  unfold rows_with_key.
  induction df as [|r df IH] using rev_ind; [reflexivity|].
  rewrite groupby_snoc, List.filter_app. simpl.
  destruct (key r) as [k'|]; [|now rewrite app_nil_r].
  destruct (cmp k k') eqn:Hc.
  - apply cmp_eq in Hc as <-.
    rewrite group_rows_insert_same by apply groupby_ascending. now rewrite IH.
  - rewrite group_rows_insert_other, IH, app_nil_r; [reflexivity|].
    intros <-. now rewrite cmp_refl in Hc.
  - rewrite group_rows_insert_other, IH, app_nil_r; [reflexivity|].
    intros <-. now rewrite cmp_refl in Hc.
Qed.

(** The groups are the keys that occur, each with its rows in order. *)
Lemma in_groupby (k : K) (rs : list R) (df : list R) :
  In (k, rs) (groupby cmp key df) <-> rs = rows_with_key k df /\ rs <> [].
Proof.
  split.
  - intros Hin. split.
    + rewrite <- groupby_rows. symmetry.
      apply in_group_rows; [apply groupby_ascending | exact Hin].
    + pose proof (groupby_nonempty df) as Hne.
      rewrite List.Forall_forall in Hne. exact (Hne _ Hin).
  - intros [-> Hne]. rewrite <- groupby_rows in *. now apply group_rows_in.
Qed.
End GroupByFacts.

(** Evaluate the rows handed to [sort_values] and recall that the
    result is a rearrangement of them. *)
Ltac compute_sorted_rows H :=
  match goal with
  | |- context [@sort_values_desc ?S ?A ?col ?l] =>
      let v := eval vm_compute in l in
      change l with v;
      pose proof (@sort_values_perm S A col v) as H
  end.

(** ** preprocess_data *)

Definition music_only (e : PlayEvent) : Prop :=
  track e <> None /\ episode_name e = None /\ audiobook_title e = None.

Lemma is_music_spec e : is_music e = true <-> music_only e.
Proof.
  unfold is_music, music_only, notna, isna.
  destruct (track e), (episode_name e), (audiobook_title e); simpl;
    split; try discriminate; try (intros (? & ? & ?); congruence);
    intros _; repeat split; congruence.
Qed.

Definition sample_raw : list Raw.Event :=
  [ raw_music "2020-01-07T13:00:00Z" "Song" "Band" "Album" 150000;
    raw_podcast "2020-01-10T09:00:00Z" "Episode 1" 900000 ].

(** C9.  Whatever the raw table, every row that [preprocess_data] keeps
    has a track name and has neither an episode name nor an audiobook
    title. *)
Theorem preprocess_keeps_music_only :
  forall (to_datetime : string -> option Timestamp) (df : list Raw.Event)
         (loaded : list PlayEvent),
    preprocess_data to_datetime df = inr loaded ->
    Forall music_only loaded.
Proof.
  intros to_datetime df loaded Hload. unfold preprocess_data in Hload.
  destruct (parse_all to_datetime df) as [e|rows]; [discriminate|].
  injection Hload as <-.
  apply List.Forall_forall. intros e He.
  apply List.filter_In in He as [_ He]. now apply is_music_spec.
Qed.

(** The theorem at work on a table with one song and one podcast episode. *)
Lemma preprocess_keeps_music_only_witness :
  Forall music_only [music tuesday_1pm "Song" "Band" "Album" 150000].
Proof.
  apply (preprocess_keeps_music_only sample_to_datetime sample_raw).
  reflexivity.
Defined.

(** ** get_playlist_overlap *)

(** C5.  The shared artists and the shared (track, artist) pairs of
    [get_playlist_overlap a b] are those of [get_playlist_overlap b a];
    the two calls differ in which playlist's counts are labelled p1 and
    which p2. *)
Theorem overlap_shared_sets_symmetric :
  forall (df : list PlaylistEntry) (a b : string),
    shared_artists <$> get_playlist_overlap df a b
      = shared_artists <$> get_playlist_overlap df b a
    /\ shared_tracks <$> get_playlist_overlap df a b
      = shared_tracks <$> get_playlist_overlap df b a
    /\ shared_artist_count <$> get_playlist_overlap df a b
      = shared_artist_count <$> get_playlist_overlap df b a
    /\ shared_track_count <$> get_playlist_overlap df a b
      = shared_track_count <$> get_playlist_overlap df b a
    /\ p1_track_count <$> get_playlist_overlap df a b
      = p2_track_count <$> get_playlist_overlap df b a
    /\ p1_artist_count <$> get_playlist_overlap df a b
      = p2_artist_count <$> get_playlist_overlap df b a
    /\ playlist1 <$> get_playlist_overlap df a b
      = playlist2 <$> get_playlist_overlap df b a.
Proof.
  intros df a b. unfold get_playlist_overlap.
  destruct df as [|r df]; [repeat split|].
  cbn [fmap option_fmap option_map shared_artists shared_tracks shared_artist_count
       shared_track_count p1_track_count p2_track_count p1_artist_count
       p2_artist_count playlist1 playlist2].
  repeat split; f_equal; try apply (comm_L (∩)); f_equal; apply (comm_L (∩)).
Qed.

Definition two_playlists : list PlaylistEntry :=
  [ entry "Road" "Song" "Band"; entry "Road" "Tune" "Duo";
    entry "Gym" "Song" "Band"; entry "Gym" "Anthem" "Duo" ].

(** Two playlists with one pair and two artists in common. *)
Example overlap_of_two_playlists :
  shared_tracks <$> get_playlist_overlap two_playlists "Road" "Gym"
    = Some {[ (Some "Song", Some "Band") ]}
  /\ shared_artists <$> get_playlist_overlap two_playlists "Gym" "Road"
    = Some {[ Some "Band"; Some "Duo" ]}
  /\ get_playlist_overlap [] "Road" "Gym" = None.
Proof.
  repeat split; vm_compute; reflexivity.
Qed.

(** ** get_heatmap_data *)

Definition one_play : list PlayEvent :=
  [music tuesday_1pm "Song" "Band" "Album" 150000].

(** C1.  On a table with a single play (a Tuesday, 13h) the heatmap is a
    1x1 frame: the only row label is day 1 and the only column label is
    hour 13, so the other 167 cells of a 7x24 matrix are absent, not
    zero; on the empty table the frame is 0x0. *)
Theorem heatmap_of_one_play_is_1x1 :
  get_heatmap_data one_play = {| index := [1]; columns := [13]; values := [[1]] |}
  /\ shape (get_heatmap_data one_play) = (1%nat, 1%nat)
  /\ loc (get_heatmap_data one_play) 1 13 = Some 1
  /\ loc (get_heatmap_data one_play) 0 0 = None
  /\ shape (get_heatmap_data []) = (0%nat, 0%nat).
Proof. repeat split. Qed.

(** ** get_one_hit_wonders / get_one_hit_wonder_stats *)

Lemma head_all {A} (n : Z) (l : list A) :
  Z.of_nat (length l) <= n -> head n l = l.
Proof.
  intros Hn. unfold head.
  destruct (Z.leb_spec 0 n); [|lia].
  apply firstn_all2. lia.
Qed.

(** The same track of the same artist, played once from the single and
    once from the album. *)
Definition played_from_two_albums : list PlayEvent :=
  [ music tuesday_1pm "Song" "Band" "Single" 150000;
    music friday_9am "Song" "Band" "Album" 200000 ].

(** The plays of a (track, artist) pair in a table. *)
Definition plays_of (t a : string) (df : list PlayEvent) : list PlayEvent :=
  List.filter (fun e => bool_decide (track e = Some t /\ artist e = Some a)) df.

(** C3.  A pair played twice, from two albums, with no playlists at all:
    [get_one_hit_wonders] reports it (twice, once per album), while
    [get_one_hit_wonder_stats] counts no one-hit wonder. *)
Theorem one_hit_wonders_counts_per_album :
  forall (S : Sorter),
    length (plays_of "Song" "Band" played_from_two_albums) = 2%nat
    /\ length (get_one_hit_wonders [] played_from_two_albums 50) = 2%nat
    /\ Forall (fun r => hit_track r = "Song" /\ hit_artist r = "Band"
                        /\ hit_play_count r = 1)
              (get_one_hit_wonders [] played_from_two_albums 50)
    /\ one_hit_count (get_one_hit_wonder_stats [] played_from_two_albums) = 0%nat.
Proof.
  intros S. split; [reflexivity|].
  unfold get_one_hit_wonders.
  compute_sorted_rows Hperm.
  rewrite head_all
    by (rewrite <- (Permutation_length Hperm); simpl; lia).
  split; [now rewrite <- (Permutation_length Hperm)|].
  split; [|reflexivity].
  apply (Permutation_Forall Hperm).
  repeat constructor.
Qed.

(** ** search_tracks / search_artists *)

(** Modelled on the spec's words: the query occurs, case folded, as a
    substring of the cell. *)
Definition cell_has_substring (query : string) (c : option string) : bool :=
  match c with
  | None => false
  | Some s => contains (lower query) (lower s)
  end.

Definition substring_in_track_scope (query : string) (e : PlayEvent) : bool :=
  (cell_has_substring query (track e) || cell_has_substring query (artist e)
   || cell_has_substring query (album e))%bool.

Definition substring_in_artist_scope (query : string) (e : PlayEvent) : bool :=
  cell_has_substring query (artist e).

Definition plain_row : PlayEvent := music tuesday_1pm "a" "b" "c" 150000.

(** C4.  The query is compiled as a regular expression.  A dot matches a
    row none of whose fields holds a dot, and the row is returned; a
    query with an open parenthesis raises instead of returning an empty
    table. *)
Theorem search_compiles_query_as_regex :
  forall (S : Sorter),
    substring_in_track_scope "." plain_row = false
    /\ substring_in_artist_scope "." plain_row = false
    /\ (exists r, search_tracks [plain_row] "." 50 = Returns [r]
                  /\ s_key r = ("a", "b", "c"))
    /\ (exists r, search_artists [plain_row] "." 20 = Returns [r] /\ s_key r = "b")
    /\ search_tracks [plain_row] "(" 50 = Raises ReError
    /\ search_artists [plain_row] "(" 20 = Raises ReError
    /\ search_tracks [] "(" 50 = Raises ReError.
Proof.
  intros S. split; [reflexivity|]. split; [reflexivity|].
  split; [|split; [|repeat split]].
  - unfold search_tracks.
    change (Re.compile (lower ".")) with (Re.Pattern [Re.AnyChar]).
    change (List.filter (track_mask [Re.AnyChar]) [plain_row]) with [plain_row].
    cbv iota beta.
    compute_sorted_rows Hperm.
    apply Permutation_length_1_inv in Hperm. rewrite Hperm.
    eexists. split; reflexivity.
  - unfold search_artists.
    change (Re.compile (lower ".")) with (Re.Pattern [Re.AnyChar]).
    change (List.filter (artist_mask [Re.AnyChar]) [plain_row]) with [plain_row].
    cbv iota beta.
    compute_sorted_rows Hperm.
    apply Permutation_length_1_inv in Hperm. rewrite Hperm.
    eexists. split; reflexivity.
Qed.

(** ** get_top_artists / get_top_tracks *)

Lemma head_prefix {A} (n : Z) (l : list A) : exists rest, l = head n l ++ rest.
Proof.
  unfold head. destruct (Z.leb 0 n).
  - exists (skipn (Z.to_nat n) l). now rewrite firstn_skipn.
  - exists (skipn (length l - Z.to_nat (- n)) l). now rewrite firstn_skipn.
Qed.

Lemma head_length {A} (n : Z) (l : list A) :
  0 <= n -> Z.of_nat (length (head n l)) <= n.
Proof.
  intros Hn. unfold head. destruct (Z.leb_spec 0 n); [|lia].
  pose proof (firstn_le_length (Z.to_nat n) l). lia.
Qed.

Lemma StronglySorted_app_l {A} (R : A -> A -> Prop) (l1 l2 : list A) :
  StronglySorted R (l1 ++ l2) -> StronglySorted R l1.
Proof.
  induction l1 as [|x l1 IH]; simpl; intros Hs; [constructor|].
  apply StronglySorted_inv in Hs as [Hs Hx].
  constructor; [now apply IH|].
  apply List.Forall_app in Hx. tauto.
Qed.

Lemma head_sorted {A} (R : A -> A -> Prop) (n : Z) (l : list A) :
  StronglySorted R l -> StronglySorted R (head n l).
Proof.
  intros Hs. destruct (head_prefix n l) as [rest Hl].
  rewrite Hl in Hs. now apply StronglySorted_app_l in Hs.
Qed.

(** What holds of [head limit (sort_values_desc col stats)]. *)
Lemma top_of_stats `{Sorter} {A} (col : A -> Q) (stats : list A) (limit : Z) :
  0 <= limit ->
  let out := head limit (sort_values_desc col stats) in
  Z.of_nat (length out) <= limit
  /\ StronglySorted (fun a b => (col b <= col a)%Q) out
  /\ exists rest, Permutation (out ++ rest) stats.
Proof.
  intros Hlimit out. split; [now apply head_length|].
  split; [apply head_sorted, sort_values_sorted|].
  destruct (head_prefix limit (sort_values_desc col stats)) as [rest Hrest].
  exists rest. fold out in Hrest. rewrite <- Hrest.
  symmetry. apply sort_values_perm.
Qed.

(** The position of the first row of [df] with group key [k]. *)
Definition first_occurrence {K} `{EqDecision K} (key : PlayEvent -> option K)
    (k : K) (df : list PlayEvent) : option nat :=
  fst <$> list_find (fun e => key e = Some k) df.

(** The tie rule of the specification: of two output rows with equal
    metric values, the one listed first has the group key that occurs
    first in the input table. *)
Definition ties_in_first_occurrence_order {K} `{EqDecision K}
    (key : PlayEvent -> option K) (by_ : string) (df : list PlayEvent)
    (out : list (Stats K)) : Prop :=
  forall (i j : nat) (r1 r2 : Stats K),
    out !! i = Some r1 -> out !! j = Some r2 -> (i < j)%nat ->
    (sort_col by_ r1 == sort_col by_ r2)%Q ->
    exists n1 n2 : nat,
      first_occurrence key (DataLoader.key r1) df = Some n1
      /\ first_occurrence key (DataLoader.key r2) df = Some n2
      /\ (n1 < n2)%nat.

Definition b_then_a : list PlayEvent :=
  [ music tuesday_1pm "Song B" "B" "Album" 180000;
    music friday_9am "Song A" "A" "Album" 180000 ].

Definition a_then_b : list PlayEvent :=
  [ music tuesday_1pm "Song A" "A" "Album" 180000;
    music friday_9am "Song B" "B" "Album" 180000 ].

(** Whatever the sorter does with ties, it sees the same group table for
    the two inputs, so it cannot follow the input order in both. *)
Lemma top_artists_ties_fail_for_every_sorter :
  forall (S : Sorter),
    ~ ties_in_first_occurrence_order key_artist "plays" b_then_a
        (get_top_artists b_then_a None 20 "plays")
    \/ ~ ties_in_first_occurrence_order key_artist "plays" a_then_b
        (get_top_artists a_then_b None 20 "plays").
Proof.
  intros S. unfold get_top_artists.
  set (col := @sort_col string "plays").
  set (rows := [ {| key := "A"; play_count := 1; total_minutes := 0 + 180000 / 60000 |};
                 {| key := "B"; play_count := 1; total_minutes := 0 + 180000 / 60000 |} ]).
  change (map agg_stats (groupby cmp_str key_artist (filter_year b_then_a None))) with rows.
  change (map agg_stats (groupby cmp_str key_artist (filter_year a_then_b None))) with rows.
  pose proof (sort_values_perm _ col rows) as Hperm.
  rewrite head_all by (rewrite <- (Permutation_length Hperm); simpl; lia).
  apply Permutation_length_2_inv in Hperm as [-> | ->].
  - left. intros Hties.
    destruct (Hties 0%nat 1%nat _ _ eq_refl eq_refl ltac:(lia) ltac:(reflexivity))
      as (n1 & n2 & H1 & H2 & Hlt).
    vm_compute in H1, H2. injection H1 as <-. injection H2 as <-. lia.
  - right. intros Hties.
    destruct (Hties 0%nat 1%nat _ _ eq_refl eq_refl ltac:(lia) ltac:(reflexivity))
      as (n1 & n2 & H1 & H2 & Hlt).
    vm_compute in H1, H2. injection H1 as <-. injection H2 as <-. lia.
Qed.

(** No sorter makes the top-N results follow first-occurrence order on
    ties for every table: the groups reach the sort in key order. *)
Lemma top_artists_ties_not_in_input_order :
  ~ exists (S : Sorter),
      forall (df : list PlayEvent) (year : option Z) (limit : Z) (by_ : string),
        Z.of_nat (length (get_top_artists df year limit by_)) <= limit
        /\ StronglySorted (fun a b => (sort_col by_ b <= sort_col by_ a)%Q)
             (get_top_artists df year limit by_)
        /\ ties_in_first_occurrence_order key_artist by_ df
             (get_top_artists df year limit by_).
Proof.
  intros [S Hclaim].
  destruct (top_artists_ties_fail_for_every_sorter S) as [Hno | Hno]; apply Hno.
  - apply (Hclaim b_then_a None 20 "plays").
  - apply (Hclaim a_then_b None 20 "plays").
Qed.

(** ** What the grouped statistics are *)

(** A row of the group table is the aggregate of the rows of its key. *)
Lemma stats_rows_spec {K} (cmp : K -> K -> comparison) `{!CmpOk cmp}
    (keyf : PlayEvent -> option K) (df : list PlayEvent) (s : Stats K) :
  In s (map agg_stats (groupby cmp keyf df))
  <-> rows_with_key cmp keyf (key s) df <> []
      /\ s = agg_stats (key s, rows_with_key cmp keyf (key s) df).
Proof.
  rewrite List.in_map_iff. split.
  - intros ([k rs] & <- & Hin). apply in_groupby in Hin as [-> Hne]; [|exact _].
    now split.
  - intros [Hne Hs]. eexists. split; [symmetry; exact Hs|].
    apply in_groupby; [exact _|]. now split.
Qed.

(** What a top-N result owes: at most [limit] rows, in descending order
    of the metric, taken from the head of a rearrangement of the group
    table; the group table lists each key of the year-filtered input once,
    in ascending key order, and each output row is the aggregate of the
    rows of its key. *)
Definition top_n_contract {K} (cmp : K -> K -> comparison)
    (keyf : PlayEvent -> option K) (df : list PlayEvent) (year : option Z)
    (limit : Z) (by_ : string) (out : list (Stats K)) : Prop :=
  let filtered := filter_year df year in
  let groups := groupby cmp keyf filtered in
  Z.of_nat (length out) <= limit
  /\ StronglySorted (fun a b => (sort_col by_ b <= sort_col by_ a)%Q) out
  /\ (exists rest, Permutation (out ++ rest) (map agg_stats groups))
  /\ keys_ascending cmp groups
  /\ Forall (fun s => rows_with_key cmp keyf (key s) filtered <> []
                      /\ s = agg_stats (key s, rows_with_key cmp keyf (key s) filtered))
            out.

Lemma top_n_contract_intro `{Sorter} {K} (cmp : K -> K -> comparison) `{!CmpOk cmp}
    (keyf : PlayEvent -> option K) (df : list PlayEvent) (year : option Z)
    (limit : Z) (by_ : string) :
  0 <= limit ->
  top_n_contract cmp keyf df year limit by_
    (head limit (sort_values_desc (sort_col by_)
                   (map agg_stats (groupby cmp keyf (filter_year df year))))).
Proof.
  intros Hlimit. unfold top_n_contract.
  destruct (top_of_stats (sort_col by_)
              (map agg_stats (groupby cmp keyf (filter_year df year))) limit Hlimit)
    as (Hlen & Hsorted & rest & Hperm).
  split; [exact Hlen|]. split; [exact Hsorted|]. split; [now exists rest|].
  split; [now apply groupby_ascending|].
  apply List.Forall_forall. intros s Hs.
  apply stats_rows_spec; [exact _|].
  apply (Permutation_in s Hperm). apply in_or_app. now left.
Qed.

(** C2.  For a limit [N >= 0], [get_top_artists] and [get_top_tracks]
    return at most [N] rows, in descending order of the requested
    metric; the rows are the head of a rearrangement of the group table
    of the year-filtered input, which lists the groups (one per artist,
    or per track and artist) in ascending key order, and each row holds
    the play count and total minutes of the rows of its key. *)
Theorem top_n_bounded_and_descending :
  forall (S : Sorter) (df : list PlayEvent) (year : option Z) (limit : Z) (by_ : string),
    0 <= limit ->
    top_n_contract cmp_str key_artist df year limit by_
      (get_top_artists df year limit by_)
    /\ top_n_contract cmp_str2 key_track_artist df year limit by_
         (get_top_tracks df year limit by_).
Proof.
  intros S df year limit by_ Hlimit.
  split; [unfold get_top_artists | unfold get_top_tracks];
    apply top_n_contract_intro; try exact _; exact Hlimit.
Qed.

(** The theorem at work: the top artist of 2020 by minutes. *)
Lemma top_n_bounded_and_descending_witness :
  top_n_contract cmp_str key_artist b_then_a (Some 2020) 1 "minutes"
    (get_top_artists (sorter := stable_sorter) b_then_a (Some 2020) 1 "minutes").
Proof.
  apply (top_n_bounded_and_descending stable_sorter b_then_a (Some 2020) 1 "minutes").
  lia.
Defined.

Lemma plays_of_rows_with_key (t a : string) (df : list PlayEvent) :
  rows_with_key cmp_str2 key_track_artist (t, a) df = plays_of t a df.
Proof.
  unfold rows_with_key, plays_of. apply List.filter_ext. intros e.
  unfold key_track_artist.
  destruct (track e) as [t'|], (artist e) as [a'|];
    try (symmetry; apply bool_decide_eq_false_2; intros [? ?]; discriminate).
  destruct (cmp_str2 (t, a) (t', a')) eqn:Hc.
  - apply cmp_eq in Hc. injection Hc as <- <-.
    symmetry. now apply bool_decide_eq_true_2.
  - symmetry. apply bool_decide_eq_false_2. intros [[= ->] [= ->]].
    now rewrite (proj2 (cmp_eq (t, a) (t, a)) eq_refl) in Hc.
  - symmetry. apply bool_decide_eq_false_2. intros [[= ->] [= ->]].
    now rewrite (proj2 (cmp_eq (t, a) (t, a)) eq_refl) in Hc.
Qed.

(** [get_one_hit_wonder_stats] applies the rule per (track, artist) pair:
    a pair is among its one-hit wonders exactly when it has a single play
    in the table, of at least 120000 ms, and is on no playlist. *)
Lemma one_hit_wonder_stats_counts_pairs :
  forall (playlist_tracks : list PlaylistEntry) (df : list PlayEvent) (t a : string),
    (exists r, In r (one_hit_pairs playlist_tracks df)
               /\ pair_track r = t /\ pair_artist r = a)
    <-> (exists e, plays_of t a df = [e] /\ 120000 <= ms_played e)
        /\ (Some t, Some a) ∉ playlist_set playlist_tracks.
Proof.
  intros pl df t a. unfold one_hit_pairs. split.
  - intros (r & Hin & Ht & Ha).
    apply List.filter_In in Hin as [Hin Hone].
    apply List.filter_In in Hin as [Hin Hms].
    apply List.in_map_iff in Hin as ([[t' a'] rs] & Hr & Hin).
    subst r. simpl in Ht, Ha. subst t' a'.
    apply in_groupby in Hin as [Hrs Hne]; [|exact _].
    rewrite plays_of_rows_with_key in Hrs. simpl in *.
    apply andb_prop in Hone as [Hcount Hpl].
    apply Z.eqb_eq in Hcount. apply Z.leb_le in Hms.
    apply negb_true_iff, bool_decide_eq_false in Hpl.
    split; [|exact Hpl].
    destruct rs as [|e [|e' rs]]; simpl in Hcount; try lia.
    exists e. split; [now symmetry|]. unfold Zsum in Hms. simpl in Hms. exact Hms.
  - intros [(e & Hplays & Hms) Hpl].
    exists (agg_pair (t, a, [e])). split; [|now split].
    apply List.filter_In. split.
    + apply List.filter_In. split.
      * apply List.in_map. apply in_groupby; [exact _|].
        rewrite plays_of_rows_with_key, Hplays. now split.
      * simpl. unfold Zsum. simpl. now apply Z.leb_le.
    + simpl. apply negb_true_iff, bool_decide_eq_false. exact Hpl.
Qed.

(** ** Literal queries *)






(** ** The cells of the heatmap that are present *)

Lemma fold_left_Zadd (l : list Z) (a : Z) :
  fold_left Z.add l a = a + fold_left Z.add l 0.
Proof.
  revert a. induction l as [|x l IH]; intros a; cbn [fold_left]; [lia|].
  rewrite (IH (a + x)), (IH (0 + x)). lia.
Qed.

Lemma Zsum_cons (x : Z) (l : list Z) : Zsum (x :: l) = x + Zsum l.
Proof. unfold Zsum. simpl. apply fold_left_Zadd. Qed.

(** [sum(f(x) for x in l)] *)
Definition sum_over {A} (l : list A) (f : A -> Z) : Z := Zsum (map f l).

Lemma sum_over_cons {A} (x : A) (l : list A) (f : A -> Z) :
  sum_over (x :: l) f = f x + sum_over l f.
Proof. apply Zsum_cons. Qed.

Lemma sum_over_plus {A} (l : list A) (f g : A -> Z) :
  sum_over l (fun x => f x + g x) = sum_over l f + sum_over l g.
Proof.
  induction l as [|x l IH]; [reflexivity|].
  rewrite !sum_over_cons, IH. lia.
Qed.

Lemma sum_over_ext {A} (l : list A) (f g : A -> Z) :
  (forall x, In x l -> f x = g x) -> sum_over l f = sum_over l g.
Proof.
  intros Hfg. unfold sum_over. f_equal. now apply map_ext_in.
Qed.

Lemma sum_over_zero {A} (l : list A) : sum_over l (fun _ => 0) = 0.
Proof.
  induction l as [|x l IH]; [reflexivity|]. now rewrite sum_over_cons, IH.
Qed.

(** Over a duplicate-free list, the indicator of one of its members sums to 1. *)
Lemma sum_over_indicator (l : list Z) (x : Z) (v : Z) :
  List.NoDup l -> In x l ->
  sum_over l (fun y => if Z.eqb y x then v else 0) = v.
Proof.
  induction 1 as [|y l Hy Hl IH]; simpl; [tauto|].
  rewrite sum_over_cons. intros [-> | Hin].
  - rewrite Z.eqb_refl.
    rewrite (sum_over_ext l _ (fun _ => 0)), sum_over_zero; [lia|].
    intros z Hz. destruct (Z.eqb_spec z x); [congruence | reflexivity].
  - destruct (Z.eqb_spec y x); [congruence|]. now rewrite IH.
Qed.

Lemma insert_unique_in (x y : Z) (l : list Z) :
  In y (insert_unique x l) <-> y = x \/ In y l.
Proof.
  induction l as [|z l IH]; simpl; [intuition|].
  destruct (Z.compare_spec x z) as [-> | Hlt | Hgt]; simpl.
  - intuition.
  - intuition.
  - rewrite IH. intuition.
Qed.

Lemma insert_unique_sorted (x : Z) (l : list Z) :
  StronglySorted Z.lt l -> StronglySorted Z.lt (insert_unique x l).
Proof.
  induction 1 as [|z l Hs IH Hall]; simpl; [repeat constructor|].
  destruct (Z.compare_spec x z) as [-> | Hlt | Hgt].
  - now constructor.
  - constructor; [now constructor|]. constructor; [exact Hlt|].
    eapply List.Forall_impl; [|exact Hall]. intros; lia.
  - constructor; [exact IH|].
    apply List.Forall_forall. intros y Hy. apply insert_unique_in in Hy as [-> | Hy]; [lia|].
    rewrite List.Forall_forall in Hall. now apply Hall.
Qed.

Lemma sorted_unique_snoc (l : list Z) (x : Z) :
  sorted_unique (l ++ [x]) = insert_unique x (sorted_unique l).
Proof. unfold sorted_unique. now rewrite fold_left_app. Qed.

Lemma sorted_unique_in (l : list Z) (y : Z) : In y (sorted_unique l) <-> In y l.
Proof.
  induction l as [|x l IH] using rev_ind; [reflexivity|].
  rewrite sorted_unique_snoc, insert_unique_in, IH, in_app_iff. simpl. intuition.
Qed.

Lemma sorted_unique_sorted (l : list Z) : StronglySorted Z.lt (sorted_unique l).
Proof.
  induction l as [|x l IH] using rev_ind; [constructor|].
  rewrite sorted_unique_snoc. now apply insert_unique_sorted.
Qed.

Lemma sorted_unique_nodup (l : list Z) : List.NoDup (sorted_unique l).
Proof.
  pose proof (sorted_unique_sorted l) as Hs.
  induction Hs as [|z l' Hs IH Hall]; constructor; [|exact IH].
  intros Hin. rewrite List.Forall_forall in Hall. specialize (Hall _ Hin). lia.
Qed.

Definition key_day_hour (e : PlayEvent) : option (Z * Z) := Some (day_of_week e, hour e).

(** The number of plays on day [d] at hour [h]. *)
Definition plays_at (df : list PlayEvent) (d h : Z) : Z :=
  Z.of_nat (length (rows_with_key cmp_Z2 key_day_hour (d, h) df)).

Lemma cell_of_groups (gs : list (Z * Z * list PlayEvent)) (d h : Z) :
  match cell (map (fun g => (fst g, Z.of_nat (length (snd g)))) gs) d h with
  | Some x => x
  | None => 0
  end = Z.of_nat (length (group_rows cmp_Z2 (d, h) gs)).
Proof.
  unfold cell. induction gs as [|[[d' h'] rs] gs IH]; [reflexivity|].
  cbn [map find fst snd group_rows]. unfold cmp_Z2 at 1, cmp_pair. cbn [fst snd].
  rewrite (Z.eqb_sym d' d), (Z.eqb_sym h' h), !Z.eqb_compare.
  destruct (Z.compare d d'); cbn [andb]; try exact IH.
  destruct (Z.compare h h'); cbn [option_map snd]; try exact IH. reflexivity.
Qed.

(** A cell that is present holds the number of plays at its day and hour. *)
Lemma heatmap_values (df : list PlayEvent) :
  values (get_heatmap_data df)
  = map (fun d => map (fun h => plays_at df d h) (columns (get_heatmap_data df)))
        (index (get_heatmap_data df)).
Proof.
  unfold get_heatmap_data, fillna, pivot, size_by_day_hour. cbn [values index columns].
  rewrite map_map. apply map_ext. intros d. rewrite map_map. apply map_ext. intros h.
  unfold plays_at. rewrite <- groupby_rows by exact _. apply cell_of_groups.
Qed.

Lemma plays_at_cons (e : PlayEvent) (df : list PlayEvent) (d h : Z) :
  plays_at (e :: df) d h
  = (if Z.eqb d (day_of_week e) then if Z.eqb h (hour e) then 1 else 0 else 0)
    + plays_at df d h.
Proof.
  unfold plays_at, rows_with_key. cbn [List.filter key_day_hour].
  unfold cmp_Z2 at 1, cmp_pair. cbn [fst snd]. rewrite !Z.eqb_compare.
  destruct (Z.compare d (day_of_week e)); try lia.
  destruct (Z.compare h (hour e)); cbn [length]; lia.
Qed.

Lemma plays_at_total (df : list PlayEvent) (days hours : list Z) :
  List.NoDup days -> List.NoDup hours ->
  (forall e, In e df -> In (day_of_week e) days /\ In (hour e) hours) ->
  sum_over days (fun d => sum_over hours (fun h => plays_at df d h))
  = Z.of_nat (length df).
Proof.
  intros Hdays Hhours. induction df as [|e df IH]; intros Hin.
  - rewrite (sum_over_ext days _ (fun _ => 0)); [apply sum_over_zero|].
    intros d _. apply sum_over_zero.
  - rewrite (sum_over_ext days _
               (fun d => (if Z.eqb d (day_of_week e) then 1 else 0)
                         + sum_over hours (fun h => plays_at df d h))).
    + rewrite sum_over_plus, IH by (intros e' He'; apply Hin; now right).
      destruct (Hin e (or_introl eq_refl)) as [Hd _].
      rewrite sum_over_indicator by assumption.
      cbn [length]. lia.
    + intros d _.
      rewrite (sum_over_ext hours _
                 (fun h => (if Z.eqb d (day_of_week e)
                            then if Z.eqb h (hour e) then 1 else 0 else 0)
                           + plays_at df d h))
        by (intros h _; apply plays_at_cons).
      rewrite sum_over_plus. f_equal.
      destruct (Hin e (or_introl eq_refl)) as [_ Hh].
      destruct (Z.eqb d (day_of_week e)); [now apply sum_over_indicator | apply sum_over_zero].
Qed.

(** The row labels are the days that occur, the column labels the hours
    that occur, each once. *)
Lemma heatmap_labels (df : list PlayEvent) :
  List.NoDup (index (get_heatmap_data df))
  /\ List.NoDup (columns (get_heatmap_data df))
  /\ (forall d, In d (index (get_heatmap_data df))
                <-> exists e, In e df /\ day_of_week e = d)
  /\ (forall h, In h (columns (get_heatmap_data df))
                <-> exists e, In e df /\ hour e = h).
Proof.
  unfold get_heatmap_data, fillna, pivot, size_by_day_hour. cbn [index columns].
  split; [apply sorted_unique_nodup|]. split; [apply sorted_unique_nodup|].
  assert (Hkeys : forall d h,
            (exists rs, In (d, h, rs) (groupby cmp_Z2 key_day_hour df))
            <-> exists e, In e df /\ day_of_week e = d /\ hour e = h).
  { intros d h. split.
    - intros (rs & Hin).
      apply in_groupby in Hin as [-> Hne]; [|exact _].
      destruct (rows_with_key cmp_Z2 key_day_hour (d, h) df) as [|e rs] eqn:Hrows;
        [congruence|].
      assert (He : In e (rows_with_key cmp_Z2 key_day_hour (d, h) df))
        by (rewrite Hrows; now left).
      apply List.filter_In in He as [He Hmatch]. exists e. split; [exact He|].
      unfold key_day_hour in Hmatch.
      destruct (cmp_Z2 (d, h) (day_of_week e, hour e)) eqn:Hc; try discriminate.
      apply cmp_eq in Hc. now injection Hc as -> ->.
    - intros (e & He & <- & <-).
      exists (rows_with_key cmp_Z2 key_day_hour (day_of_week e, hour e) df).
      apply in_groupby; [exact _|]. split; [reflexivity|].
      intros Hnil.
      assert (Hin : In e (rows_with_key cmp_Z2 key_day_hour (day_of_week e, hour e) df)).
      { apply List.filter_In. split; [exact He|]. unfold key_day_hour.
        now rewrite (proj2 (cmp_eq (day_of_week e, hour e) _) eq_refl). }
      now rewrite Hnil in Hin. }
  split.
  - intros d. rewrite sorted_unique_in, !map_map. cbn [fst snd].
    rewrite List.in_map_iff. split.
    + intros ([[d' h'] rs] & <- & Hin). cbn [fst].
      destruct (proj1 (Hkeys d' h') (ex_intro _ rs Hin)) as (e & He & Hd & _).
      now exists e.
    + intros (e & He & <-).
      destruct (proj2 (Hkeys (day_of_week e) (hour e))) as (rs & Hin);
        [now exists e|].
      now exists (day_of_week e, hour e, rs).
  - intros h. rewrite sorted_unique_in, !map_map. cbn [fst snd].
    rewrite List.in_map_iff. split.
    + intros ([[d' h'] rs] & <- & Hin). cbn [fst snd].
      destruct (proj1 (Hkeys d' h') (ex_intro _ rs Hin)) as (e & He & _ & Hh).
      now exists e.
    + intros (e & He & <-).
      destruct (proj2 (Hkeys (day_of_week e) (hour e))) as (rs & Hin);
        [now exists e|].
      now exists (day_of_week e, hour e, rs).
Qed.

(** The cells that are present add up to the number of rows of the table. *)
Lemma heatmap_cells_sum_to_row_count (df : list PlayEvent) :
  Zsum (map Zsum (values (get_heatmap_data df))) = Z.of_nat (length df).
Proof.
  rewrite heatmap_values, map_map.
  destruct (heatmap_labels df) as (Hdays & Hhours & Hd & Hh).
  apply (plays_at_total df _ _ Hdays Hhours).
  intros e He. split; [apply Hd | apply Hh]; now exists e.
Qed.

(** The frame is 7x24 only if plays occur on seven days and at 24 hours. *)
Lemma heatmap_shape (df : list PlayEvent) :
  shape (get_heatmap_data df)
  = (length (sorted_unique (map day_of_week df)), length (sorted_unique (map hour df))).
Proof.
  destruct (heatmap_labels df) as (Hdays & Hhours & Hd & Hh).
  unfold shape. f_equal.
  - apply Permutation_length, Permutation.NoDup_Permutation;
      [exact Hdays | apply sorted_unique_nodup|].
    intros d. rewrite Hd, sorted_unique_in, List.in_map_iff.
    split; intros (e & H1 & H2); exists e; tauto.
  - apply Permutation_length, Permutation.NoDup_Permutation;
      [exact Hhours | apply sorted_unique_nodup|].
    intros h. rewrite Hh, sorted_unique_in, List.in_map_iff.
    split; intros (e & H1 & H2); exists e; tauto.
Qed.

End DataLoaderSpec.

(** * Properties of spotify_api.py *)

Module SpotifyApiSpec.
Import Py SpotifyApi.

(** ** Sample worlds *)

Definition some_genres : GenreCache := {[ "Band" := ["rock"; "indie"] ]}.

Definition no_reply : nat -> Request -> Reply := fun _ _ => Fails Timeout.

(** 2024-01-01 on the clock, and a platform that sleeps up to a day. *)
Definition new_year_2024 : Z := 738885 * 86400000.
Definition one_day : Z := 86400000.

(** Credentials set, a cache on disk, and a server that is down. *)
Definition offline_world (cache : File GenreCache) : World :=
  {| requests_available := true;
     client_id := Some "id"; client_secret := Some "secret";
     genre_cache_file := cache; token_cache_file := Missing;
     cache_writable := true; now := new_year_2024; longest_sleep := one_day;
     server := no_reply; sent := 0; trace := [] |}.

(** No credentials in the environment. *)
Definition unconfigured_world (cache : File GenreCache) : World :=
  {| requests_available := true;
     client_id := None; client_secret := None;
     genre_cache_file := cache; token_cache_file := Missing;
     cache_writable := true; now := new_year_2024; longest_sleep := one_day;
     server := no_reply; sent := 0; trace := [] |}.

(** ** enrich_with_genres *)

(** The cache [load_genre_cache] reads in a world, when it reads one. *)
Definition existing_cache (w : World) : GenreCache :=
  match genre_cache_file w with
  | Content c => c
  | Missing | Garbled | Undecodable => ∅
  end.

(** The genre cache file, if there is one, is UTF-8 text. *)
Definition cache_decodes (w : World) : Prop := genre_cache_file w <> Undecodable.

(** What [is_api_available] answers in a world. *)
Definition api_configured (w : World) : bool :=
  (requests_available w && truthy_opt (client_id w) && truthy_opt (client_secret w))%bool.

Lemma load_genre_cache_run {L} (s : World * L) :
  cache_decodes (fst s) ->
  load_genre_cache s = (Ok (existing_cache (fst s)), s).
Proof.
  unfold cache_decodes, load_genre_cache, existing_cache, bind, get_world.
  destruct (genre_cache_file (fst s)); congruence || reflexivity.
Qed.


Lemma load_genre_cache_undecodable {L} (s : World * L) :
  genre_cache_file (fst s) = Undecodable ->
  load_genre_cache s = (Raise UnicodeDecodeError, s).
Proof.
  unfold load_genre_cache, bind, get_world. now intros ->.
Qed.

Lemma is_api_available_run {L} (s : World * L) :
  is_api_available s = (Ok (api_configured (fst s)), s).
Proof.
  unfold is_api_available, api_configured, bind, get_world.
  now destruct (requests_available (fst s)).
Qed.

(** The cache is not returned at once when it is empty or a refresh is
    forced. *)
Lemma cache_gate_closed (w : World) (force_refresh : bool) :
  existing_cache w = ∅ \/ force_refresh = true ->
  (negb (bool_decide (existing_cache w = ∅)) && negb force_refresh)%bool = false.
Proof.
  intros [He | ->]; [|apply andb_false_r].
  rewrite bool_decide_eq_true_2 by exact He. reflexivity.
Qed.

(** C10.  Two calls of [enrich_with_genres] that differ in
    [artist_names] only, started in the same world, return the same
    mapping and leave the same world behind, cache file included. *)
Theorem enrich_ignores_artist_names :
  forall (names1 names2 : list string) (streaming_df : option (list DataLoader.PlayEvent))
         (force_refresh : bool) (w : World),
    run (enrich_with_genres names1 streaming_df force_refresh) w
    = run (enrich_with_genres names2 streaming_df force_refresh) w.
Proof. reflexivity. Qed.

(** ** Batching *)

Lemma range_from_length (fuel i stop : nat) :
  (stop - i <= fuel)%nat ->
  length (range_from fuel i stop 50) = ((stop - i + 49) / 50)%nat.
Proof.
  revert i. induction fuel as [|fuel IH]; intros i Hfuel; cbn [range_from].
  - replace (stop - i)%nat with 0%nat by lia. reflexivity.
  - destruct (Nat.ltb_spec i stop) as [Hlt | Hge].
    + cbn [length]. rewrite IH by lia.
      destruct (Nat.le_gt_cases 50 (stop - i)) as [Hbig | Hsmall].
      * replace (stop - i + 49)%nat with ((stop - (i + 50) + 49) + 1 * 50)%nat by lia.
        rewrite Nat.div_add by lia. lia.
      * replace (stop - (i + 50))%nat with 0%nat by lia.
        change ((0 + 49) / 50)%nat with 0%nat.
        apply (Nat.div_unique (stop - i + 49) 50 1 (stop - i - 1)); lia.
    + replace (stop - i)%nat with 0%nat by lia. reflexivity.
Qed.

Lemma range_from_below (fuel i stop : nat) :
  Forall (fun k => (k < stop)%nat) (range_from fuel i stop 50).
Proof.
  revert i. induction fuel as [|fuel IH]; intros i; simpl; [constructor|].
  destruct (Nat.ltb_spec i stop); constructor; auto.
Qed.

Lemma slice_length {A} (i : nat) (l : list A) :
  (i < length l)%nat ->
  (1 <= length (slice i (i + 50) l) <= 50)%nat.
Proof.
  intros Hi. unfold slice.
  rewrite length_firstn, length_skipn. lia.
Qed.

Lemma batches_concat_from {A} (l : list A) (fuel i : nat) :
  (length l - i <= fuel)%nat ->
  concat (map (fun k => slice k (k + 50) l) (range_from fuel i (length l) 50))
  = skipn i l.
Proof.
  revert i. induction fuel as [|fuel IH]; intros i Hfuel; simpl.
  - symmetry. apply skipn_all2. lia.
  - destruct (Nat.ltb_spec i (length l)) as [Hlt | Hge].
    + simpl. rewrite IH by lia. unfold slice.
      replace (i + 50 - i)%nat with 50%nat by lia.
      replace (i + 50)%nat with (50 + i)%nat by lia.
      rewrite <- skipn_skipn. apply firstn_skipn.
    + symmetry. apply skipn_all2. lia.
Qed.

Lemma unique_ids_spec (ids : list string) :
  NoDup (unique_ids ids)
  /\ forall x, x ∈ unique_ids ids <-> x ∈ ids /\ truthy x = true.
Proof.
  unfold unique_ids. split; [apply NoDup_elements|].
  intros x. rewrite elem_of_elements, elem_of_list_to_set.
  rewrite !list_elem_of_In. apply List.filter_In.
Qed.

Lemma map_snd_batches (l : list string) :
  map snd (batches l) = map (fun k => slice k (k + 50) l) (range 0 (length l) 50).
Proof. unfold batches. rewrite map_map. reflexivity. Qed.

(** The batches of a list: their number, their sizes, their contents. *)
Lemma batches_spec (l : list string) :
  length (batches l) = ((length l + 49) / 50)%nat
  /\ Forall (fun b => (1 <= length (snd b) <= 50)%nat) (batches l)
  /\ concat (map snd (batches l)) = l.
Proof.
  split; [|split].
  - unfold batches, range. rewrite length_map, range_from_length by lia.
    now rewrite Nat.sub_0_r.
  - unfold batches, range. apply List.Forall_map.
    eapply List.Forall_impl; [|apply range_from_below].
    intros k Hk. simpl. now apply slice_length.
  - rewrite map_snd_batches. unfold range.
    rewrite batches_concat_from by lia. reflexivity.
Qed.

Lemma unique_ids_nil : unique_ids [] = [].
Proof. unfold unique_ids. simpl. apply elements_empty. Qed.

(** The loop of [fetch_artists_genres] over given batches. *)
Definition artists_loop {L} (token : string) (n : nat) (bs : list (nat * list string))
    : M L (Dict (list string)) :=
  r <- call [] (for_each bs (fetch_artists_batch token n)) ;; ret (snd r).

(** The loop of [fetch_track_artists] over given batches. *)
Definition tracks_loop {L} (token : string) (n : nat) (bs : list (nat * list string))
    : M L (Dict (list (string * string))) :=
  r <- call [] (for_each bs (fetch_tracks_batch token n)) ;; ret (snd r).

(** ** One batch: rate limit, retry, skip *)

Definition requested (req : Request) (w : World) : World :=
  log (Requested req) (set_sent w (S (sent w))).
Definition slept (ms : Z) (w : World) : World :=
  log (Slept ms) (set_now w (now w + ms)).
Definition printed (msg : string) (w : World) : World := log (Printed msg) w.
Definition announced (announce : bool) (w : World) : World :=
  if announce then printed "Rate limited. Waiting" w else w.

(** [raise_for_status] raises on this response. *)
Definition error_status (r : Response) : bool :=
  (Z.leb 400 (status_code r) && Z.ltb (status_code r) 600)%bool.

(** How a request ends once its response, if any, went through
    [raise_for_status]. *)
Definition settle {L} (reply : Reply) (s : World * L) : result Response * (World * L) :=
  match reply with
  | Fails e => (Raise e, s)
  | Answers r => if error_status r then (Raise HTTPError, s) else (Ok r, s)
  end.

(** [time.sleep], case by case. *)
Lemma time_sleep_run {L} (ms : Z) (w : World) (l : L) :
  time_sleep ms (w, l)
  = match sleep_error w ms with
    | Some e => (Raise e, (w, l))
    | None => (Ok tt, (slept ms w, l))
    end.
Proof.
  unfold time_sleep, bind, get_world. cbn [fst snd].
  now destruct (sleep_error w ms).
Qed.

(** The pause between two batches is always taken. *)
Lemma sleep_between_batches {L} (w : World) (l : L) :
  time_sleep 100 (w, l) = (Ok tt, (slept 100 w, l)).
Proof.
  rewrite time_sleep_run. unfold sleep_error, sleep_limit.
  change (Z.ltb INT64_MAX (1000000 * 100) || Z.ltb (1000000 * 100) INT64_MIN)%bool
    with false.
  change (Z.ltb 100 0) with false. cbv iota.
  destruct (Z.ltb_spec (Z.max DAY (longest_sleep w)) 100); [unfold DAY in *; lia | reflexivity].
Qed.

(** A number of seconds [time.sleep] takes in this world: not negative,
    within 64 bits as nanoseconds, and no longer than the platform's
    longest sleep. *)
Definition sleepable (w : World) (s : Z) : Prop :=
  0 <= s /\ 1000000000 * s <= INT64_MAX /\ 1000 * s <= sleep_limit w.


Lemma sleep_error_none (w : World) (s : Z) :
  sleep_error w (1000 * s) = None <-> sleepable w s.
Proof.
  unfold sleep_error, sleepable, INT64_MAX, INT64_MIN.
  destruct (Z.ltb_spec 9223372036854775807 (1000000 * (1000 * s)));
    destruct (Z.ltb_spec (1000000 * (1000 * s)) (-9223372036854775808));
    cbn [orb]; try (split; [discriminate | lia]).
  destruct (Z.ltb_spec (1000 * s) 0); [split; [discriminate | lia]|].
  destruct (Z.ltb_spec (sleep_limit w) (1000 * s)); [split; [discriminate | lia]|].
  split; [lia | reflexivity].
Qed.

(** [get_with_retry], case by case. *)
Lemma get_with_retry_run {L} (req : Request) (announce : bool) (w : World) (l : L) :
  get_with_retry req announce (w, l) =
  match server w (sent w) req with
  | Fails e => (Raise e, (requested req w, l))
  | Answers r =>
      if Z.eqb (status_code r) 429 then
        match retry_after_seconds r with
        | inl e => (Raise e, (requested req w, l))
        | inr s =>
            match sleep_error w (1000 * s) with
            | Some e => (Raise e, (announced announce (requested req w), l))
            | None =>
                settle (server w (S (sent w)) req)
                  (requested req (slept (1000 * s) (announced announce (requested req w))), l)
            end
        end
      else settle (Answers r) (requested req w, l)
  end.
Proof.
  unfold get_with_retry. unfold bind at 1.
  assert (Hsend : forall (w0 : World),
            send (L := L) req (w0, l)
            = match server w0 (sent w0) req with
              | Fails e => (Raise e, (requested req w0, l))
              | Answers r => (Ok r, (requested req w0, l))
              end).
  { intros w0. cbv [send bind get_world update_world ret raise fst snd requested].
    now destruct (server w0 (sent w0) req). }
  assert (Hstatus : forall (r : Response) (s0 : World * L),
            (raise_for_status r ;;; ret r) s0 = settle (Answers r) s0).
  { intros r s0. unfold settle, error_status, raise_for_status, bind.
    now destruct (_ && _)%bool. }
  rewrite Hsend. destruct (server w (sent w) req) as [e|r]; [reflexivity|].
  unfold bind at 1.
  destruct (Z.eqb (status_code r) 429).
  - unfold bind at 1. unfold lift.
    destruct (retry_after_seconds r) as [e|s]; [reflexivity|].
    unfold ret at 1. unfold bind at 1.
    assert (Hnote : (if announce then print "Rate limited. Waiting" else ret tt)
                      (requested req w, l)
                    = (Ok tt, (announced announce (requested req w), l)))
      by (now destruct announce).
    rewrite Hnote. unfold bind at 1. rewrite time_sleep_run.
    replace (sleep_error (announced announce (requested req w)) (1000 * s))
      with (sleep_error w (1000 * s)) by (now destruct announce).
    destruct (sleep_error w (1000 * s)); [reflexivity|].
    rewrite Hsend.
    replace (server (slept (1000 * s) (announced announce (requested req w))))
      with (server w) by (now destruct announce).
    replace (sent (slept (1000 * s) (announced announce (requested req w))))
      with (S (sent w)) by (now destruct announce).
    destruct (server w (S (sent w)) req) as [e|r2]; [reflexivity|].
    apply Hstatus.
  - unfold ret at 1. apply Hstatus.
Qed.

(** The keys of a dictionary. *)
Definition keys {V} (d : Dict V) : list string := map fst d.

Lemma dict_set_keys {V} (k : string) (v : V) (d : Dict V) :
  incl (keys d) (keys (dict_set k v d)).
Proof.
  induction d as [|[k' v'] d IH]; simpl; [apply incl_nil_l|].
  destruct (String.eqb_spec k k') as [-> | Hne]; simpl.
  - apply incl_refl.
  - intros x [<- | Hx]; [now left | right; now apply IH].
Qed.

(** A loop body that touches the local dictionary only, and only to add
    or overwrite entries. *)
Definition quiet {V A} (body : A -> M (Dict V) unit) : Prop :=
  forall (x : A) (w : World) (d : Dict V),
    exists r d', body x (w, d) = (r, (w, d')) /\ incl (keys d) (keys d').

Lemma for_each_quiet {V A} (body : A -> M (Dict V) unit) :
  quiet body ->
  forall (items : list A) (w : World) (d : Dict V),
    exists r d', for_each items body (w, d) = (r, (w, d')) /\ incl (keys d) (keys d').
Proof.
  intros Hbody items. induction items as [|x items IH]; intros w d; simpl.
  - exists (Ok tt), d. split; [reflexivity | apply incl_refl].
  - destruct (Hbody x w d) as (r & d1 & Hrun & H1). unfold bind. rewrite Hrun.
    destruct r as [[]|e].
    + destruct (IH w d1) as (r2 & d2 & Hrun2 & H2).
      exists r2, d2. split; [exact Hrun2 | eapply incl_tran; eassumption].
    + exists (Raise e), d1. now split.
Qed.

Lemma store_artist_quiet : quiet store_artist.
Proof.
  intros [a|] w d; simpl.
  - unfold bind, getitem. destruct (artist_id a) as [id|].
    + eexists _, _. split; [reflexivity | apply dict_set_keys].
    + eexists _, _. split; [reflexivity | apply incl_refl].
  - eexists _, _. split; [reflexivity | apply incl_refl].
Qed.

Lemma map_m_artist_of_ref_run {L} (refs : list ArtistRef) (s : World * L) :
  exists r, map_m artist_of_ref refs s = (r, s).
Proof.
  induction refs as [|a refs IH]; simpl; [now eexists|].
  assert (Ha : exists ra, artist_of_ref a s = (ra, s)).
  { unfold artist_of_ref, bind, getitem.
    destruct (ref_id a), (ref_name a); now eexists. }
  destruct Ha as [ra Ha]. unfold bind at 1. rewrite Ha.
  destruct ra; [|now eexists].
  unfold bind at 1. destruct IH as [r ->]. destruct r; now eexists.
Qed.

Lemma store_track_quiet : quiet store_track.
Proof.
  intros [t|] w d; simpl.
  - unfold bind.
    destruct (map_m_artist_of_ref_run (get_or (track_artists t) []) (w, d)) as [r ->].
    destruct r as [artists|e].
    + unfold getitem. destruct (track_id t) as [id|].
      * eexists _, _. split; [reflexivity | apply dict_set_keys].
      * eexists _, _. split; [reflexivity | apply incl_refl].
    + eexists _, _. split; [reflexivity | apply incl_refl].
  - eexists _, _. split; [reflexivity | apply incl_refl].
Qed.

(** The common shape of one loop iteration of the two fetch functions. *)
Definition batch_iteration {V A} (req : Request) (announce : bool)
    (items_of : JsonObject -> list A) (store : A -> M (Dict V) unit)
    (err : string) (more : bool) : M (Dict V) unit :=
  ok <- try_except
          (response <- get_with_retry req announce ;;
           data <- json response ;;
           for_each (items_of data) store ;;;
           ret true)
          (fun _ => print err ;;; ret false) ;;
  if (ok && more)%bool then time_sleep 100 else ret tt.

Lemma fetch_artists_batch_shape (token : string) (n : nat) (b : nat * list string) :
  fetch_artists_batch token n b
  = batch_iteration (GetArtists (String.concat "," (snd b)) token) true
      (fun data => get_or (j_artists data) []) store_artist
      "Error fetching artist batch" (Nat.ltb (fst b + 50) n).
Proof. reflexivity. Qed.

Lemma fetch_tracks_batch_shape (token : string) (n : nat) (b : nat * list string) :
  fetch_tracks_batch token n b
  = batch_iteration (GetTracks (String.concat "," (snd b)) token) false
      (fun data => get_or (j_tracks data) []) store_track
      "Error fetching track batch" (Nat.ltb (fst b + 50) n).
Proof. reflexivity. Qed.

(** No request among these events. *)
Definition no_request (evs : list Event) : Prop :=
  Forall (fun ev => match ev with Requested _ => False | _ => True end) evs.

(** The reply is a failure: the call raised, or the status is an error. *)
Definition rejected (reply : Reply) : Prop :=
  match reply with
  | Fails _ => True
  | Answers r => error_status r = true
  end.

Definition announcement (announce : bool) : list Event :=
  if announce then [Printed "Rate limited. Waiting"] else [].

(** What an iteration does once a response passed [raise_for_status]. *)
Lemma iteration_after_response {V A} (items_of : JsonObject -> list A)
    (store : A -> M (Dict V) unit) (err : string) (more : bool)
    (r : Response) (w : World) (d : Dict V) :
  quiet store ->
  exists (w' : World) (d' : Dict V) (tail : list Event),
    (ok <- try_except
             (data <- json r ;; for_each (items_of data) store ;;; ret true)
             (fun _ => print err ;;; ret false) ;;
     if (ok && more)%bool then time_sleep 100 else ret tt) (w, d)
    = (Ok tt, (w', d'))
    /\ trace w' = trace w ++ tail
    /\ no_request tail
    /\ incl (keys d) (keys d')
    /\ server w' = server w.
Proof.
  intros Hstore. unfold bind at 1. unfold try_except, bind at 1, json.
  destruct (body r) as [|o].
  - exists (printed err w), d, [Printed err]. cbn.
    repeat split; [repeat constructor | apply incl_refl].
  - cbn. unfold bind at 1.
    destruct (for_each_quiet store Hstore (items_of o) w d) as (rs & d' & -> & Hkeys).
    destruct rs as [[]|e]; cbn -[time_sleep].
    + destruct more; cbn -[time_sleep].
      * rewrite sleep_between_batches.
        exists (slept 100 w), d', [Slept 100]. repeat split; [repeat constructor | exact Hkeys].
      * exists w, d', []. rewrite app_nil_r. repeat split; [constructor | exact Hkeys].
    + exists (printed err w), d', [Printed err].
      repeat split; [repeat constructor | exact Hkeys].
Qed.

(** What one loop iteration owes, for the request [req] of its batch:
    - it returns, no key gathered so far is lost, and the server is the
      same afterwards;
    - a 429 whose Retry-After is absent or an integer number of seconds
      that [time.sleep] takes makes it sleep that long and send the same
      request once more, after which nothing more is requested; if that
      second reply fails too, the batch is logged and the results are
      left as they were;
    - a 429 whose Retry-After is not such a number is logged and skipped
      without a sleep and without a retry;
    - any other reply is not retried; if it is a failure, the batch is
      logged and the results are left as they were. *)
Definition batch_contract {V} (iteration : M (Dict V) unit) (req : Request)
    (announce : bool) (err : string) : Prop :=
  forall (w : World) (results : Dict V),
  exists (w' : World) (results' : Dict V),
    iteration (w, results) = (Ok tt, (w', results'))
    /\ incl (keys results) (keys results')
    /\ server w' = server w
    /\ (forall r1 s,
          server w (sent w) req = Answers r1 -> status_code r1 = 429 ->
          retry_after_seconds r1 = inr s -> sleepable w s ->
          exists tail,
            trace w' = trace w ++ [Requested req] ++ announcement announce
                         ++ [Slept (1000 * s); Requested req] ++ tail
            /\ no_request tail
            /\ (rejected (server w (S (sent w)) req) ->
                results' = results /\ tail = [Printed err]))
    /\ (forall r1,
          server w (sent w) req = Answers r1 -> status_code r1 = 429 ->
          (forall s, retry_after_seconds r1 = inr s -> ~ sleepable w s) ->
          results' = results
          /\ exists note,
               trace w' = trace w ++ [Requested req] ++ note ++ [Printed err]
               /\ (note = [] \/ note = announcement announce))
    /\ ((forall r1, server w (sent w) req = Answers r1 -> status_code r1 <> 429) ->
        exists tail,
          trace w' = trace w ++ [Requested req] ++ tail
          /\ no_request tail
          /\ (rejected (server w (sent w) req) ->
              results' = results /\ tail = [Printed err])).

Lemma batch_iteration_split {V A} (req : Request) (announce : bool)
    (items_of : JsonObject -> list A) (store : A -> M (Dict V) unit)
    (err : string) (more : bool) (s : World * Dict V) :
  batch_iteration req announce items_of store err more s
  = match get_with_retry req announce s with
    | (Raise e, s1) => (Ok tt, (printed err (fst s1), snd s1))
    | (Ok r, s1) =>
        (ok <- try_except
                 (data <- json r ;; for_each (items_of data) store ;;; ret true)
                 (fun _ => print err ;;; ret false) ;;
         if (ok && more)%bool then time_sleep 100 else ret tt) s1
    end.
Proof.
  unfold batch_iteration. unfold bind at 1. unfold try_except at 1. unfold bind at 1.
  destruct (get_with_retry req announce s) as [[r|e] s1].
  - unfold bind at 4. unfold try_except. reflexivity.
  - reflexivity.
Qed.

Lemma trace_requested req w : trace (requested req w) = trace w ++ [Requested req].
Proof. reflexivity. Qed.

Lemma trace_printed msg w : trace (printed msg w) = trace w ++ [Printed msg].
Proof. reflexivity. Qed.

Lemma trace_slept ms w : trace (slept ms w) = trace w ++ [Slept ms].
Proof. reflexivity. Qed.

Lemma trace_announced a w : trace (announced a w) = trace w ++ announcement a.
Proof. destruct a; simpl; [reflexivity | now rewrite app_nil_r]. Qed.

Ltac flatten_trace :=
  rewrite ?trace_printed, ?trace_requested, ?trace_slept, ?trace_announced,
    ?trace_requested, ?trace_printed;
  rewrite <- ?app_assoc; cbn [app].

Lemma batch_iteration_contract {V A} (req : Request) (announce : bool)
    (items_of : JsonObject -> list A) (store : A -> M (Dict V) unit)
    (err : string) (more : bool) :
  quiet store ->
  batch_contract (batch_iteration req announce items_of store err more) req announce err.
Proof.
  intros Hstore w results.
  rewrite batch_iteration_split, get_with_retry_run.
  destruct (server w (sent w) req) as [e|r1] eqn:Hfirst.
  { (* the call raised *)
    exists (printed err (requested req w)), results. cbn [fst snd].
    split; [reflexivity|]. split; [apply incl_refl|]. split; [now destruct announce|].
    split; [intros; discriminate|]. split; [intros; discriminate|].
    intros _. exists [Printed err]. flatten_trace.
    repeat split. repeat constructor. }
  destruct (Z.eqb_spec (status_code r1) 429) as [H429 | Hother].
  - destruct (retry_after_seconds r1) as [e|s] eqn:Hdelay.
    { (* the header is not an integer *)
      exists (printed err (requested req w)), results. cbn [fst snd].
      split; [reflexivity|]. split; [apply incl_refl|]. split; [now destruct announce|].
      split; [intros r s [= <-] _ Hs; congruence|].
      split.
      - intros _ _ _ _. split; [reflexivity|]. exists []. flatten_trace. now split; [|left].
      - intros Hno. exfalso. now apply (Hno r1). }
    pose proof (sleep_error_none w s) as Hsleep.
    destruct (sleep_error w (1000 * s)) as [e|].
    { (* a delay that [time.sleep] refuses *)
      assert (Hrefused : ~ sleepable w s) by (intros Hs; now apply Hsleep in Hs).
      exists (printed err (announced announce (requested req w))), results. cbn [fst snd].
      split; [reflexivity|]. split; [apply incl_refl|]. split; [now destruct announce|].
      split; [intros r s' [= <-] _ Hs' Hs; rewrite Hdelay in Hs'; injection Hs' as <-;
              contradiction|].
      split.
      - intros _ _ _ _. split; [reflexivity|]. exists (announcement announce).
        flatten_trace. now split; [|right].
      - intros Hno. exfalso. now apply (Hno r1). }
    assert (Hpos : sleepable w s) by (now apply Hsleep).
    (* one retry *)
    set (w2 := requested req (slept (1000 * s) (announced announce (requested req w)))).
    assert (Htrace2 : trace w2 = trace w ++ [Requested req] ++ announcement announce
                                   ++ [Slept (1000 * s); Requested req]).
    { unfold w2. flatten_trace. reflexivity. }
    unfold settle.
    destruct (server w (S (sent w)) req) as [e2|r2] eqn:Hsecond.
    { exists (printed err w2), results. cbn [fst snd].
      split; [reflexivity|]. split; [apply incl_refl|]. split; [now destruct announce|].
      split.
      - intros r s' [= <-] _ Hs' _. rewrite Hdelay in Hs'. injection Hs' as <-.
        exists [Printed err].
        rewrite trace_printed, Htrace2. rewrite <- !app_assoc. cbn [app].
        repeat split. repeat constructor.
      - split; [intros r [= <-] _ Hs; specialize (Hs s Hdelay); contradiction|].
        intros Hno. exfalso. now apply (Hno r1). }
    destruct (error_status r2) eqn:Herr2.
    { exists (printed err w2), results. cbn [fst snd].
      split; [reflexivity|]. split; [apply incl_refl|]. split; [now destruct announce|].
      split.
      - intros r s' [= <-] _ Hs' _. rewrite Hdelay in Hs'. injection Hs' as <-.
        exists [Printed err].
        rewrite trace_printed, Htrace2. rewrite <- !app_assoc. cbn [app].
        repeat split. repeat constructor.
      - split; [intros r [= <-] _ Hs; specialize (Hs s Hdelay); contradiction|].
        intros Hno. exfalso. now apply (Hno r1). }
    destruct (iteration_after_response items_of store err more r2 w2 results Hstore)
      as (w' & results' & tail & Hrun & Htrace & Htail & Hkeys & Hserver).
    exists w', results'. split; [exact Hrun|]. split; [exact Hkeys|].
    split; [rewrite Hserver; try unfold w2; now destruct announce|].
    split.
    + intros r s' [= <-] _ Hs' _. rewrite Hdelay in Hs'. injection Hs' as <-.
      exists tail.
      rewrite Htrace, Htrace2. rewrite <- !app_assoc. cbn [app].
      split; [reflexivity|]. split; [exact Htail|].
      simpl. congruence.
    + split; [intros r [= <-] _ Hs; specialize (Hs s Hdelay); contradiction|].
      intros Hno. exfalso. now apply (Hno r1).
  - (* not a 429: no retry *)
    unfold settle.
    destruct (error_status r1) eqn:Herr1.
    { exists (printed err (requested req w)), results. cbn [fst snd].
      split; [reflexivity|]. split; [apply incl_refl|]. split; [now destruct announce|].
      split; [intros r s [= <-] H429; congruence|].
      split; [intros r [= <-] H429; congruence|].
      intros _. exists [Printed err]. flatten_trace.
      repeat split. repeat constructor. }
    destruct (iteration_after_response items_of store err more r1 (requested req w)
                results Hstore)
      as (w' & results' & tail & Hrun & Htrace & Htail & Hkeys & Hserver).
    exists w', results'. split; [exact Hrun|]. split; [exact Hkeys|].
    split; [rewrite Hserver; try unfold w2; now destruct announce|].
    split; [intros r s [= <-] H429; congruence|].
    split; [intros r [= <-] H429; congruence|].
    intros _. exists tail. rewrite Htrace, trace_requested. rewrite <- !app_assoc.
    split; [reflexivity|]. split; [exact Htail|].
    simpl. congruence.
Qed.

Lemma artists_batch_contract (token : string) (n : nat) (b : nat * list string) :
  batch_contract (fetch_artists_batch token n b)
    (GetArtists (String.concat "," (snd b)) token) true "Error fetching artist batch".
Proof.
  rewrite fetch_artists_batch_shape. apply batch_iteration_contract, store_artist_quiet.
Qed.

Lemma tracks_batch_contract (token : string) (n : nat) (b : nat * list string) :
  batch_contract (fetch_tracks_batch token n b)
    (GetTracks (String.concat "," (snd b)) token) false "Error fetching track batch".
Proof.
  rewrite fetch_tracks_batch_shape. apply batch_iteration_contract, store_track_quiet.
Qed.

(** ** The whole loop *)









(** ** The requests of a run *)

(** The requests among these events, in order. *)
Definition requests_of (evs : list Event) : list Request :=
  omap (fun ev => match ev with Requested r => Some r | _ => None end) evs.

(** The server never answers 429. *)
Definition never_rate_limits (srv : nat -> Request -> Reply) : Prop :=
  forall k req r, srv k req = Answers r -> status_code r <> 429.

Lemma requests_of_app (evs1 evs2 : list Event) :
  requests_of (evs1 ++ evs2) = requests_of evs1 ++ requests_of evs2.
Proof. apply omap_app. Qed.

Lemma requests_of_no_request (evs : list Event) :
  no_request evs -> requests_of evs = [].
Proof.
  induction 1 as [|ev evs Hev Hevs IH]; [reflexivity|].
  destruct ev; try contradiction; exact IH.
Qed.

(** Without rate limiting, a loop sends the request of each batch once,
    in the order of the batches. *)
Lemma loop_requests_one_per_batch {V} (body : nat * list string -> M (Dict V) unit)
    (req_of : nat * list string -> Request) (announce : bool) (err : string) :
  (forall b, batch_contract (body b) (req_of b) announce err) ->
  forall (bs : list (nat * list string)) (w : World) (d : Dict V),
    never_rate_limits (server w) ->
    exists w' d',
      for_each bs body (w, d) = (Ok tt, (w', d'))
      /\ server w' = server w
      /\ requests_of (trace w') = requests_of (trace w) ++ map req_of bs.
Proof.
  intros Hbody bs. induction bs as [|b bs IH]; intros w d Hsrv.
  - exists w, d. cbn. now rewrite app_nil_r.
  - destruct (Hbody b w d) as (w1 & d1 & Hrun & _ & Hserver & _ & _ & Hother).
    destruct Hother as (tail & Htrace & Htail & _); [intros r1; apply Hsrv|].
    destruct (IH w1 d1) as (w2 & d2 & Hrun2 & Hserver2 & Hreqs);
      [now rewrite Hserver|].
    exists w2, d2. cbn [for_each]. unfold bind. rewrite Hrun.
    split; [exact Hrun2|]. split; [congruence|].
    rewrite Hreqs, Htrace, !requests_of_app, (requests_of_no_request tail Htail).
    rewrite app_nil_r, <- app_assoc. reflexivity.
Qed.

Lemma batches_nil : batches [] = [].
Proof. reflexivity. Qed.

Lemma fetch_artists_genres_requests (ids : list string) (token : string) (w : World) :
  truthy token = true ->
  never_rate_limits (server w) ->
  requests_of (trace (snd (run (fetch_artists_genres ids token) w)))
  = requests_of (trace w)
    ++ map (fun b => GetArtists (String.concat "," (snd b)) token)
           (batches (unique_ids ids)).
Proof.
  intros Htoken Hsrv. unfold run, fetch_artists_genres. rewrite Htoken.
  destruct ids as [|id ids].
  - cbn. rewrite unique_ids_nil, batches_nil. cbn. now rewrite app_nil_r.
  - cbn [orb negb]. unfold bind, call. cbn [fst snd].
    destruct (loop_requests_one_per_batch
                (fetch_artists_batch token (length (unique_ids (id :: ids))))
                (fun b => GetArtists (String.concat "," (snd b)) token) true
                "Error fetching artist batch"
                (artists_batch_contract token _)
                (batches (unique_ids (id :: ids))) w [] Hsrv)
      as (w' & d' & Hrun & _ & Hreqs).
    unfold Dict in *. rewrite Hrun. exact Hreqs.
Qed.

Lemma fetch_track_artists_requests (ids : list string) (token : string) (w : World) :
  truthy token = true ->
  never_rate_limits (server w) ->
  requests_of (trace (snd (run (fetch_track_artists ids token) w)))
  = requests_of (trace w)
    ++ map (fun b => GetTracks (String.concat "," (snd b)) token)
           (batches (unique_ids ids)).
Proof.
  intros Htoken Hsrv. unfold run, fetch_track_artists. rewrite Htoken.
  destruct ids as [|id ids].
  - cbn. rewrite unique_ids_nil, batches_nil. cbn. now rewrite app_nil_r.
  - cbn [orb negb]. unfold bind, call. cbn [fst snd].
    destruct (loop_requests_one_per_batch
                (fetch_tracks_batch token (length (unique_ids (id :: ids))))
                (fun b => GetTracks (String.concat "," (snd b)) token) false
                "Error fetching track batch"
                (tracks_batch_contract token _)
                (batches (unique_ids (id :: ids))) w [] Hsrv)
      as (w' & d' & Hrun & _ & Hreqs).
    unfold Dict in *. rewrite Hrun. exact Hreqs.
Qed.

(** With an empty token the fetch functions return at once: the one
    identifier of the list is never requested. *)
Lemma fetch_without_token_issues_no_batch :
  length (unique_ids ["4Z8W4fKeB5YxbusRsdQVPb"]) = 1%nat
  /\ ((1 + 49) / 50 = 1)%nat
  /\ run (fetch_artists_genres ["4Z8W4fKeB5YxbusRsdQVPb"] "") (offline_world Missing)
     = (Ok [], offline_world Missing)
  /\ run (fetch_track_artists ["4Z8W4fKeB5YxbusRsdQVPb"] "") (offline_world Missing)
     = (Ok [], offline_world Missing).
Proof. repeat split. Qed.

(** C7.  With a non-empty token and [n > 0] distinct non-empty
    identifiers, [fetch_artists_genres] and [fetch_track_artists] run
    their loop over exactly [ceil(n / 50)] batches of between 1 and 50
    identifiers, which together are the distinct non-empty identifiers
    of the input, each once; when the server never answers 429, the
    requests sent are those of the batches, one each and in order. *)
Theorem fetch_runs_ceil_n_over_50_batches :
  forall (ids : list string) (token : string),
    truthy token = true ->
    (0 < length (unique_ids ids))%nat ->
    let n := length (unique_ids ids) in
    let bs := batches (unique_ids ids) in
    length bs = ((n + 49) / 50)%nat
    /\ Forall (fun b => (1 <= length (snd b) <= 50)%nat) bs
    /\ concat (map snd bs) = unique_ids ids
    /\ NoDup (unique_ids ids)
    /\ (forall x, x ∈ unique_ids ids <-> x ∈ ids /\ truthy x = true)
    /\ (forall L, fetch_artists_genres (L := L) ids token = artists_loop token n bs)
    /\ (forall L, fetch_track_artists (L := L) ids token = tracks_loop token n bs)
    /\ (forall w, never_rate_limits (server w) ->
                  requests_of (trace (snd (run (fetch_artists_genres ids token) w)))
                  = requests_of (trace w)
                    ++ map (fun b => GetArtists (String.concat "," (snd b)) token) bs)
    /\ (forall w, never_rate_limits (server w) ->
                  requests_of (trace (snd (run (fetch_track_artists ids token) w)))
                  = requests_of (trace w)
                    ++ map (fun b => GetTracks (String.concat "," (snd b)) token) bs).
Proof.
  intros ids token Htoken Hn n bs.
  destruct (batches_spec (unique_ids ids)) as (Hlen & Hsize & Hconcat).
  destruct (unique_ids_spec ids) as (Hnodup & Hmem).
  repeat (split; [assumption|]).
  assert (Hids : ids <> []).
  { intros ->. rewrite unique_ids_nil in Hn. simpl in Hn. lia. }
  split; [|split; [|split]].
  - intros L. unfold fetch_artists_genres. rewrite Htoken.
    destruct ids; [congruence|]. reflexivity.
  - intros L. unfold fetch_track_artists. rewrite Htoken.
    destruct ids; [congruence|]. reflexivity.
  - intros w Hsrv. now apply fetch_artists_genres_requests.
  - intros w Hsrv. now apply fetch_track_artists_requests.
Qed.

(** The theorem at work: two distinct identifiers make one batch. *)
Lemma fetch_runs_ceil_n_over_50_batches_witness :
  length (batches (unique_ids ["a"; "b"; ""; "a"])) = 1%nat.
Proof.
  apply (fetch_runs_ceil_n_over_50_batches ["a"; "b"; ""; "a"] "token");
    [reflexivity | vm_compute; lia].
Defined.

(** ** Sample servers *)

Definition rate_limit (header : option string) : Response :=
  {| status_code := 429; retry_after := header; body := NoObject |}.

Definition one_artist : Response :=
  {| status_code := 200; retry_after := None;
     body := Object {| j_artists := Some [Some {| artist_id := Some "a1";
                                                  artist_genres := Some ["rock"] |}];
                       j_tracks := None; j_access_token := None;
                       j_expires_in := None |} |}.

(** The first request is turned away for two seconds, the next is served. *)
Definition busy_then_ready : nat -> Request -> Reply :=
  fun k _ => match k with
             | O => Answers (rate_limit (Some "2"))
             | _ => Answers one_artist
             end.


Definition world_with (srv : nat -> Request -> Reply) : World :=
  {| requests_available := true;
     client_id := Some "id"; client_secret := Some "secret";
     genre_cache_file := Missing; token_cache_file := Missing;
     cache_writable := true; now := new_year_2024; longest_sleep := one_day;
     server := srv; sent := 0; trace := [] |}.

(** A 429 with [Retry-After: 2] and then a success: the batch is
    fetched in full, after a sleep of two seconds. *)
Example rate_limited_then_served :
  run (fetch_artists_genres ["a1"] "token") (world_with busy_then_ready)
  = (Ok [("a1", ["rock"])],
     requested (GetArtists "a1" "token")
       (slept 2000
          (printed "Rate limited. Waiting"
             (requested (GetArtists "a1" "token") (world_with busy_then_ready))))).
Proof. reflexivity. Qed.



(** A 429 that asks for a wait of 10^20 seconds: [time.sleep] raises, and
    the batch is given up with no sleep and no second request. *)
Definition busy_for_ever : nat -> Request -> Reply :=
  fun _ _ => Answers (rate_limit (Some "100000000000000000000")).

Example rate_limit_with_endless_wait_is_not_retried :
  retry_after_seconds (rate_limit (Some "100000000000000000000"))
  = inr 100000000000000000000
  /\ trace (snd (run (fetch_artists_genres ["a1"] "token") (world_with busy_for_ever)))
     = [Requested (GetArtists "a1" "token"); Printed "Rate limited. Waiting";
        Printed "Error fetching artist batch"]
  /\ trace (snd (run (fetch_track_artists ["a1"] "token") (world_with busy_for_ever)))
     = [Requested (GetTracks "a1" "token"); Printed "Error fetching track batch"].
Proof. repeat split; reflexivity. Qed.


Lemma run_unit {A} (c : M unit A) (w : World) :
  c (w, tt) = (fst (run c w), (snd (run c w), tt)).
Proof.
  unfold run. destruct (c (w, tt)) as [r [w' []]]. reflexivity.
Qed.

(** ** Getting a token *)

(** The token file [_load_token_cache] hands back: one with an expiry
    date in the future. *)
Definition valid_token_file (w : World) : option TokenFile :=
  match token_cache_file w with
  | Content data =>
      match tf_expires_at data with
      | ExpiresAt t => if Z.ltb (now w) t then Some data else None
      | NoExpiry => if Z.ltb (now w) Y2000 then Some data else None
      | BadExpiry => None
      end
  | Missing | Garbled | Undecodable => None
  end.

(** The cached file [get_access_token] takes its token from. *)
Definition usable_token_file (w : World) : option TokenFile :=
  match valid_token_file w with
  | Some data => if token_file_truthy data then Some data else None
  | None => None
  end.

(** What a reply to the token request grants, a token and its lifetime in
    seconds: nothing when the call raised, the status is an error, the
    body is no JSON object or holds no access token. *)
Definition granted (reply : Reply) : option (string * Z) :=
  match reply with
  | Fails _ => None
  | Answers r =>
      if error_status r then None
      else match body r with
           | NoObject => None
           | Object o =>
               match j_access_token o with
               | Some token => Some (token, get_or (j_expires_in o) 3600)
               | None => None
               end
           end
  end.

(** The expiry date written for a lifetime. *)
Definition expiry (w : World) (expires_in : Z) : Z := now w + 1000 * (expires_in - 60).

(** The token can be stored: the cache can be written and the expiry is
    a date [datetime] has. *)
Definition storable (w : World) (expires_in : Z) : bool :=
  (cache_writable w && timedelta_fits (expires_in - 60)
   && Z.leb 0 (expiry w expires_in) && Z.ltb (expiry w expires_in) DATETIME_END)%bool.

Definition stored (token : string) (expires_in : Z) (w : World) : World :=
  log (WroteTokenCache token (expiry w expires_in))
      (set_token_cache_file w
         (Content {| tf_access_token := Some token;
                     tf_expires_at := ExpiresAt (expiry w expires_in);
                     tf_other_keys := false |})).

Definition failed (w : World) : World := printed "Failed to get Spotify access token" w.

Lemma load_token_cache_run {L} (s : World * L) :
  _load_token_cache s = (Ok (valid_token_file (fst s)), s).
Proof.
  unfold _load_token_cache, valid_token_file, bind, get_world.
  destruct (token_cache_file (fst s)) as [| | |data]; try reflexivity.
  destruct (tf_expires_at data) as [| |t]; try reflexivity.
  - now destruct (Z.ltb (now (fst s)) Y2000).
  - now destruct (Z.ltb (now (fst s)) t).
Qed.

Lemma save_token_cache_run {L} (token : string) (expires_in : Z) (w : World) (l : L) :
  _save_token_cache token expires_in (w, l)
  = if storable w expires_in then (Ok tt, (stored token expires_in w, l))
    else (Raise (if cache_writable w then OverflowError else IOError), (w, l)).
Proof.
  unfold _save_token_cache, _ensure_cache_dir, storable, stored, expiry.
  cbv [bind get_world update_world ret raise fst snd].
  destruct (cache_writable w); [|reflexivity]. cbn [andb].
  now destruct (timedelta_fits (expires_in - 60) && _ && _)%bool.
Qed.

(** The token request, case by case. *)
Lemma request_token_run {L} (w : World) (l : L) (id secret : string) :
  client_id w = Some id -> client_secret w = Some secret ->
  request_token (w, l)
  = match granted (server w (sent w) (PostToken id secret)) with
    | Some (token, expires_in) =>
        if storable w expires_in
        then (Ok (Some token), (stored token expires_in (requested (PostToken id secret) w), l))
        else (Ok None, (failed (requested (PostToken id secret) w), l))
    | None => (Ok None, (failed (requested (PostToken id secret) w), l))
    end.
Proof.
  intros Hid Hsecret. unfold request_token, try_except.
  unfold bind at 1. unfold get_world at 1. cbn [fst snd].
  rewrite Hid, Hsecret. unfold getitem at 1 2. unfold bind at 1 2. unfold ret at 1 2.
  unfold bind at 1.
  assert (Hsend : send (L := L) (PostToken id secret) (w, l)
                  = match server w (sent w) (PostToken id secret) with
                    | Fails e => (Raise e, (requested (PostToken id secret) w, l))
                    | Answers r => (Ok r, (requested (PostToken id secret) w, l))
                    end).
  { cbv [send bind get_world update_world ret raise fst snd requested].
    now destruct (server w (sent w) (PostToken id secret)). }
  rewrite Hsend. unfold granted, error_status.
  destruct (server w (sent w) (PostToken id secret)) as [e|r]; [reflexivity|].
  unfold bind at 1. unfold raise_for_status.
  destruct (_ && _)%bool; [reflexivity|].
  unfold ret at 1. unfold bind at 1. unfold json.
  destruct (body r) as [|o]; [reflexivity|].
  unfold ret at 1. unfold bind at 1. unfold getitem.
  destruct (j_access_token o) as [token|]; [|reflexivity].
  unfold ret at 1. unfold bind at 1. rewrite save_token_cache_run.
  change (storable (requested (PostToken id secret) w) (get_or (j_expires_in o) 3600))
    with (storable w (get_or (j_expires_in o) 3600)).
  destruct (storable w (get_or (j_expires_in o) 3600)); reflexivity.
Qed.

Lemma api_configured_credentials (w : World) :
  api_configured w = true ->
  exists id secret, client_id w = Some id /\ client_secret w = Some secret.
Proof.
  unfold api_configured. intros H.
  apply andb_prop in H as [H Hsecret]. apply andb_prop in H as [_ Hid].
  destruct (client_id w) as [id|], (client_secret w) as [secret|]; try discriminate.
  now exists id, secret.
Qed.

(** [get_access_token], case by case. *)
Lemma get_access_token_run {L} (w : World) (l : L) :
  get_access_token (w, l)
  = if api_configured w then
      match usable_token_file w with
      | Some data =>
          match tf_access_token data with
          | Some token => (Ok (Some token), (w, l))
          | None => (Raise KeyError, (w, l))
          end
      | None => request_token (w, l)
      end
    else (Ok None, (w, l)).
Proof.
  unfold get_access_token. unfold bind at 1. rewrite is_api_available_run. cbn [fst snd].
  destruct (api_configured w); [|reflexivity]. cbn [negb].
  unfold bind at 1. rewrite load_token_cache_run. cbn [fst snd].
  unfold usable_token_file. destruct (valid_token_file w) as [data|]; [|reflexivity].
  destruct (token_file_truthy data); [|reflexivity].
  unfold bind, getitem. now destruct (tf_access_token data).
Qed.

(** [get_access_token] leaves the genre cache file alone. *)
Lemma get_access_token_keeps_genre_cache {L} (s s' : World * L) r :
  get_access_token s = (r, s') ->
  genre_cache_file (fst s') = genre_cache_file (fst s) /\ snd s' = snd s.
Proof.
  destruct s as [w l]. rewrite get_access_token_run.
  destruct (api_configured w) eqn:Hapi; [|intros [= <- <-]; now split].
  destruct (usable_token_file w) as [data|].
  { destruct (tf_access_token data); intros [= <- <-]; now split. }
  destruct (api_configured_credentials w Hapi) as (id & secret & Hid & Hsecret).
  rewrite (request_token_run w l id secret Hid Hsecret).
  destruct (granted _) as [[token expires_in]|]; [|intros [= <- <-]; now split].
  destruct (storable w expires_in); intros [= <- <-]; now split.
Qed.

(** ** enrich_with_genres: the ways back to the cache *)

(** A token file with an expiry date in the future and no access token. *)
Definition world_with_tokenless_file : World :=
  {| requests_available := true;
     client_id := Some "id"; client_secret := Some "secret";
     genre_cache_file := Content some_genres;
     token_cache_file :=
       Content {| tf_access_token := None;
                  tf_expires_at := ExpiresAt (new_year_2024 + one_day);
                  tf_other_keys := false |};
     cache_writable := true; now := new_year_2024; longest_sleep := one_day;
     server := no_reply; sent := 0; trace := [] |}.

(** C6.  The cache path is not taken (a refresh is forced) and the API
    is configured.  With a token file that has not expired and holds no
    access token, getting the token raises [KeyError], and so does
    [enrich_with_genres]: the cache on disk is not returned.  With a genre
    cache file that is not UTF-8, [enrich_with_genres] raises
    [UnicodeDecodeError] before anything else. *)
Lemma enrich_raises_when_reading_a_cache_file_raises :
  api_configured world_with_tokenless_file = true
  /\ existing_cache world_with_tokenless_file = some_genres
  /\ run get_access_token world_with_tokenless_file
     = (Raise KeyError, world_with_tokenless_file)
  /\ run (enrich_with_genres [] None true) world_with_tokenless_file
     = (Raise KeyError, world_with_tokenless_file)
  /\ run (enrich_with_genres [] None false) (offline_world Undecodable)
     = (Raise UnicodeDecodeError, offline_world Undecodable).
Proof. repeat split; reflexivity. Qed.

(** X21.  When the genre cache file is not UTF-8, [enrich_with_genres]
    raises [UnicodeDecodeError] and touches nothing.  Otherwise: with a
    non-empty cache on disk and no forced refresh it returns that cache
    and leaves the world as it found it, nothing requested and nothing
    written; else, when the API is not configured, it returns the cache
    on disk, having printed a message; else it calls [get_access_token],
    and when that returns no token ([None] or the empty string) it
    returns the cache on disk, having printed a message, the genre cache
    file unwritten, while when that raises, [enrich_with_genres] raises
    the same exception.  A token request that raises, or is answered with
    an error, with no JSON object or with no token, makes
    [get_access_token] return [None]. *)
Theorem enrich_falls_back_unless_reading_raises :
  forall (names : list string) (streaming_df : option (list DataLoader.PlayEvent))
         (force_refresh : bool) (w : World),
    (genre_cache_file w = Undecodable ->
     run (enrich_with_genres names streaming_df force_refresh) w
     = (Raise UnicodeDecodeError, w))
    /\ (cache_decodes w -> existing_cache w <> ∅ -> force_refresh = false ->
        run (enrich_with_genres names streaming_df force_refresh) w
        = (Ok (existing_cache w), w))
    /\ (cache_decodes w -> existing_cache w = ∅ \/ force_refresh = true ->
        api_configured w = false ->
        run (enrich_with_genres names streaming_df force_refresh) w
        = (Ok (existing_cache w),
           printed "Spotify API not configured. Using cached data only." w))
    /\ (cache_decodes w -> existing_cache w = ∅ \/ force_refresh = true ->
        api_configured w = true ->
        forall r w1,
          run get_access_token w = (r, w1) ->
          match r with
          | Ok token =>
              truthy_opt token = false ->
              run (enrich_with_genres names streaming_df force_refresh) w
              = (Ok (existing_cache w),
                 printed "Could not get Spotify access token. Using cached data only." w1)
              /\ genre_cache_file w1 = genre_cache_file w
          | Raise e =>
              run (enrich_with_genres names streaming_df force_refresh) w = (Raise e, w1)
          end)
    /\ (api_configured w = true -> usable_token_file w = None ->
        forall id secret,
          client_id w = Some id -> client_secret w = Some secret ->
          granted (server w (sent w) (PostToken id secret)) = None ->
          run get_access_token w = (Ok None, failed (requested (PostToken id secret) w))).
Proof.
  intros names df force w.
  pose proof (cache_gate_closed w force) as Hgate.
  split; [|split; [|split; [|split]]].
  - intros Hfile. unfold run, enrich_with_genres, bind.
    now rewrite (load_genre_cache_undecodable (w, tt) Hfile).
  - intros Hfile Hcache ->. unfold run, enrich_with_genres, bind.
    rewrite (load_genre_cache_run (w, tt) Hfile). cbn [fst snd].
    rewrite bool_decide_eq_false_2 by exact Hcache. reflexivity.
  - intros Hfile Hpath Hno. unfold run, enrich_with_genres, bind.
    rewrite (load_genre_cache_run (w, tt) Hfile). cbn [fst snd].
    rewrite (Hgate Hpath), is_api_available_run. cbn [fst snd].
    rewrite Hno. reflexivity.
  - intros Hfile Hpath Hyes r w1 Hget.
    pose proof (run_unit get_access_token w) as Hunit. rewrite Hget in Hunit.
    cbn [fst snd] in Hunit.
    destruct r as [token|e].
    + intros Htoken. split.
      * unfold run, enrich_with_genres, bind.
        rewrite (load_genre_cache_run (w, tt) Hfile). cbn [fst snd].
        rewrite (Hgate Hpath), is_api_available_run. cbn [fst snd].
        rewrite Hyes. cbn [negb]. rewrite Hunit, Htoken. reflexivity.
      * now apply (get_access_token_keeps_genre_cache (w, tt) (w1, tt) _ Hunit).
    + unfold run, enrich_with_genres, bind.
      rewrite (load_genre_cache_run (w, tt) Hfile). cbn [fst snd].
      rewrite (Hgate Hpath), is_api_available_run. cbn [fst snd].
      rewrite Hyes. cbn [negb]. rewrite Hunit. reflexivity.
  - intros Hyes Hnone id secret Hid Hsecret Hreply.
    unfold run. rewrite get_access_token_run, Hyes, Hnone.
    now rewrite (request_token_run w tt id secret Hid Hsecret), Hreply.
Qed.

(** The paths in sample worlds: cache present, no credentials, server
    down. *)
Lemma enrich_falls_back_unless_reading_raises_witness :
  run (enrich_with_genres ["Band"] None false) (offline_world (Content some_genres))
  = (Ok some_genres, offline_world (Content some_genres))
  /\ run (enrich_with_genres ["Band"] None true) (unconfigured_world (Content some_genres))
     = (Ok some_genres,
        printed "Spotify API not configured. Using cached data only."
          (unconfigured_world (Content some_genres)))
  /\ run (enrich_with_genres ["Band"] None true) (offline_world (Content some_genres))
     = (Ok some_genres,
        printed "Could not get Spotify access token. Using cached data only."
          (failed (requested (PostToken "id" "secret")
                     (offline_world (Content some_genres))))).
Proof.
  split; [|split].
  - apply (enrich_falls_back_unless_reading_raises ["Band"] None false
             (offline_world (Content some_genres))); [discriminate | | reflexivity].
    intros Hempty.
    apply (f_equal (fun m : GenreCache => m !! "Band")) in Hempty.
    vm_compute in Hempty. discriminate.
  - apply (enrich_falls_back_unless_reading_raises ["Band"] None true
             (unconfigured_world (Content some_genres)));
      [discriminate | now right | reflexivity].
  - exact (proj1
             (proj1 (proj2 (proj2 (proj2 (enrich_falls_back_unless_reading_raises
                                            ["Band"] None true
                                            (offline_world (Content some_genres))))))
                ltac:(discriminate) (or_intror eq_refl) eq_refl
                (Ok None)
                (failed (requested (PostToken "id" "secret")
                           (offline_world (Content some_genres))))
                eq_refl eq_refl)).
Defined.

End SpotifyApiSpec.

(** * Properties of the rest of data_loader.py *)

Module AggregatesSpec.
Import Py DataLoader DataLoaderSpec Aggregates.

(** ** Sizes of groups *)

Section GroupSizes.
Context {K R : Type} (cmp : K -> K -> comparison) `{!CmpOk cmp}.

(** The number of rows in the groups whose key satisfies [P]. *)
Definition group_weight (P : K -> bool) (gs : list (K * list R)) : nat :=
  list_sum (map (fun g => if P (fst g) then length (snd g) else O) gs).

Lemma group_weight_insert (P : K -> bool) (k : K) (r : R) (gs : list (K * list R)) :
  group_weight P (group_insert cmp k r gs)
  = (group_weight P gs + if P k then 1 else 0)%nat.
Proof.
  unfold group_weight. induction gs as [|[k' rs] gs IH]; simpl.
  - destruct (P k); lia.
  - destruct (cmp k k') eqn:Hc; simpl.
    + apply cmp_eq in Hc as <-. rewrite length_app. simpl. destruct (P k); lia.
    + destruct (P k), (P k'); lia.
    + rewrite IH. destruct (P k), (P k'); lia.
Qed.

Lemma group_weight_groupby (P : K -> bool) (key : R -> option K) (df : list R) :
  group_weight P (groupby cmp key df)
  = length (List.filter (fun r => match key r with Some k => P k | None => false end) df).
Proof.
  induction df as [|r df IH] using rev_ind; [reflexivity|].
  rewrite groupby_snoc, List.filter_app, length_app. simpl.
  destruct (key r) as [k|]; simpl; [|lia].
  rewrite group_weight_insert, IH. destruct (P k); simpl; lia.
Qed.

Lemma keys_ascending_nodup (gs : list (K * list R)) :
  keys_ascending cmp gs -> List.NoDup (map fst gs).
Proof.
  induction 1 as [|g gs Hs IH Hall]; simpl; constructor; [|exact IH].
  intros Hin. apply List.in_map_iff in Hin as (g' & Hk & Hin).
  rewrite List.Forall_forall in Hall. specialize (Hall _ Hin).
  rewrite Hk, (cmp_refl cmp) in Hall. discriminate.
Qed.
End GroupSizes.

Lemma Zsum_perm (l l' : list Z) : Permutation l l' -> Zsum l = Zsum l'.
Proof.
  induction 1 as [|x l l' Hp IH|x y l|l l' l'' H1 IH1 H2 IH2];
    rewrite ?Zsum_cons; try lia; reflexivity.
Qed.

Lemma Zsum_of_nat (l : list nat) : Zsum (map Z.of_nat l) = Z.of_nat (list_sum l).
Proof.
  induction l as [|x l IH]; [reflexivity|].
  change (list_sum (x :: l)) with (x + list_sum l)%nat.
  cbn [map]. rewrite Zsum_cons, IH. lia.
Qed.

Lemma list_sum_perm (l l' : list nat) : Permutation l l' -> list_sum l = list_sum l'.
Proof.
  induction 1; simpl; lia.
Qed.

Lemma rows_with_key_filter {K R} `{EqDecision K} (cmp : K -> K -> comparison) `{!CmpOk cmp}
    (key : R -> option K) (k : K) (df : list R) :
  rows_with_key cmp key k df = List.filter (fun r => bool_decide (key r = Some k)) df.
Proof.
  unfold rows_with_key. apply List.filter_ext. intros r.
  destruct (key r) as [k'|]; [|symmetry; now apply bool_decide_eq_false_2].
  destruct (cmp k k') eqn:Hc.
  - apply cmp_eq in Hc as ->. symmetry. now apply bool_decide_eq_true_2.
  - symmetry. apply bool_decide_eq_false_2. intros [= ->].
    now rewrite (cmp_refl cmp) in Hc.
  - symmetry. apply bool_decide_eq_false_2. intros [= ->].
    now rewrite (cmp_refl cmp) in Hc.
Qed.

(** ** Text in ASCII *)

(** [Py.lower] folds the letters A to Z, which is what [str.lower] does
    on ASCII text.  What is said below of folded text is said of such
    text. *)
Definition ascii_text (s : string) : Prop :=
  forallb (fun c => Nat.ltb (nat_of_ascii c) 128) (list_ascii_of_string s) = true.

Definition ascii_cell (c : option string) : Prop :=
  match c with
  | Some s => ascii_text s
  | None => True
  end.

(** The same character, or the capital and the small form of one letter. *)
Definition is_capital (n : nat) : bool := (Nat.leb 65 n && Nat.leb n 90)%bool.

Definition same_letter (c d : ascii) : bool :=
  let m := nat_of_ascii c in
  let n := nat_of_ascii d in
  (Nat.eqb m n || (is_capital m && Nat.eqb n (m + 32))
   || (is_capital n && Nat.eqb m (n + 32)))%bool.

(** Two texts that are equal without regard to case. *)
Fixpoint same_text (s t : string) : bool :=
  match s, t with
  | EmptyString, EmptyString => true
  | String c s', String d t' => (same_letter c d && same_text s' t')%bool
  | _, _ => false
  end.

Definition all_ascii : list ascii := map ascii_of_nat (seq 0 256).

Lemma in_all_ascii (c : ascii) : In c all_ascii.
Proof.
  unfold all_ascii. rewrite <- (ascii_nat_embedding c). apply in_map, in_seq.
  pose proof (nat_ascii_bounded c). lia.
Qed.

Lemma same_letter_lower (c d : ascii) :
  same_letter c d = Ascii.eqb (lower_ascii c) (lower_ascii d).
Proof.
  assert (Hall : forallb
                   (fun c => forallb
                               (fun d => Bool.eqb (same_letter c d)
                                           (Ascii.eqb (lower_ascii c) (lower_ascii d)))
                               all_ascii)
                   all_ascii = true) by (vm_compute; reflexivity).
  rewrite forallb_forall in Hall. specialize (Hall c (in_all_ascii c)).
  rewrite forallb_forall in Hall. specialize (Hall d (in_all_ascii d)).
  now apply Bool.eqb_prop in Hall.
Qed.

Lemma same_text_lower (s t : string) :
  same_text s t = String.eqb (lower s) (lower t).
Proof.
  revert t. induction s as [|c s IH]; intros [|d t]; cbn [same_text lower String.eqb];
    try reflexivity.
  now rewrite same_letter_lower, IH.
Qed.

(** ** Sample rows *)

Definition on_platform (p : option string) (sk : option bool) (t : Timestamp)
    (tr ar al : string) : PlayEvent :=
  {| ts := t; year := dt_year t; month := dt_month t; day := dt_day t;
     hour := dt_hour t; day_of_week := dt_dayofweek t; day_name := dt_day_name t;
     ms_played := 180000; minutes_played := 3;
     track := Some tr; artist := Some ar; album := Some al;
     episode_name := None; audiobook_title := None;
     skipped := sk; platform := p; spotify_track_uri := None |}.

Definition sample_plays : list PlayEvent :=
  [ on_platform (Some "iOS 14.2 (iPhone12,1)") (Some true) tuesday_1pm "Song" "Band" "Album";
    on_platform (Some "Linux [x86-64 0]") (Some false) friday_9am "Song" "Band" "Album";
    on_platform None None friday_9am "Tune" "Duo" "Record" ].

(** ** get_track_stats *)

Lemma ts_min_from_spec (t : Timestamp) (l : list Timestamp) :
  instant (ts_min_from t l) <= instant t
  /\ Forall (fun x => instant (ts_min_from t l) <= instant x) l.
Proof.
  unfold ts_min_from. revert t. induction l as [|x l IH]; intros t; simpl.
  - split; [lia | constructor].
  - destruct (Z.ltb_spec (instant x) (instant t)) as [Hlt | Hge].
    + destruct (IH x) as [Hx Hl]. split; [lia|]. now constructor.
    + destruct (IH t) as [Ht Hl]. split; [exact Ht|]. constructor; [lia | exact Hl].
Qed.

Lemma ts_max_from_spec (t : Timestamp) (l : list Timestamp) :
  instant t <= instant (ts_max_from t l)
  /\ Forall (fun x => instant x <= instant (ts_max_from t l)) l.
Proof.
  unfold ts_max_from. revert t. induction l as [|x l IH]; intros t; simpl.
  - split; [lia | constructor].
  - destruct (Z.ltb_spec (instant t) (instant x)) as [Hlt | Hge].
    + destruct (IH x) as [Hx Hl]. split; [lia|]. now constructor.
    + destruct (IH t) as [Ht Hl]. split; [exact Ht|]. constructor; [lia | exact Hl].
Qed.

Definition key_year (e : PlayEvent) : option Z := Some (year e).

Lemma rows_with_year (y : Z) (df : list PlayEvent) :
  rows_with_key Z.compare key_year y df = List.filter (fun e => Z.eqb y (year e)) df.
Proof.
  unfold rows_with_key. apply List.filter_ext. intros e. unfold key_year.
  rewrite Z.eqb_compare. now destruct (Z.compare y (year e)).
Qed.

(** What [get_track_stats] returns, read off its mask. *)
Lemma track_stats_over_the_mask (df : list PlayEvent) (track_name : string)
    (artist_name : option string) :
  match get_track_stats df track_name artist_name with
  | None => Forall (fun e => track_stats_mask track_name artist_name e = false) df
  | Some st =>
      plays_df st = List.filter (track_stats_mask track_name artist_name) df
      /\ st_play_count st = length (plays_df st)
      /\ (0 < st_play_count st)%nat
      /\ list_sum (map snd (plays_by_year st)) = st_play_count st
      /\ StronglySorted Z.lt (map fst (plays_by_year st))
      /\ Forall (fun yc => (0 < snd yc)%nat
                           /\ snd yc = length (List.filter (fun e => Z.eqb (fst yc) (year e))
                                                           (plays_df st)))
                (plays_by_year st)
      /\ Forall (fun e => instant (st_first_played st) <= instant (ts e)
                          /\ instant (ts e) <= instant (st_last_played st))
                (plays_df st)
      /\ (exists e rest, plays_df st = e :: rest
                         /\ st_track st = track e /\ st_artist st = artist e
                         /\ st_album st = album e)
  end.
Proof.
  unfold get_track_stats.
  destruct (List.filter (track_stats_mask track_name artist_name) df) as [|e rest] eqn:Hf.
  - apply List.Forall_forall. intros e He.
    destruct (track_stats_mask track_name artist_name e) eqn:Hm; [|reflexivity].
    assert (Hin : In e (List.filter (track_stats_mask track_name artist_name) df))
      by (apply List.filter_In; now split).
    now rewrite Hf in Hin.
  - cbn [plays_df st_play_count plays_by_year st_first_played st_last_played
         st_track st_artist st_album].
    fold key_year. set (rows := e :: rest).
    split; [reflexivity|]. split; [reflexivity|]. split; [simpl; lia|].
    split; [|split; [|split; [|split]]].
    + rewrite map_map. cbn [snd].
      pose proof (group_weight_groupby Z.compare (fun _ => true) key_year rows) as Hw.
      unfold group_weight in Hw. cbn [key_year] in Hw. rewrite Hw.
      f_equal. clear. induction rows as [|x l IH]; simpl; congruence.
    + rewrite map_map. cbn [fst].
      pose proof (groupby_ascending Z.compare key_year rows) as Hasc.
      unfold keys_ascending in Hasc.
      induction Hasc as [|g gs Hs IH Hall]; simpl; constructor; [exact IH|].
      apply List.Forall_map. eapply List.Forall_impl; [|exact Hall].
      intros g' Hg. simpl in Hg. now apply Z.compare_lt_iff.
    + apply List.Forall_map, List.Forall_forall. intros [y rs] Hin. cbn [fst snd].
      apply in_groupby in Hin as [-> Hne]; [|exact _].
      rewrite rows_with_year in *. split; [|reflexivity].
      destruct (List.filter _ rows); [congruence | simpl; lia].
    + destruct (ts_min_from_spec (ts e) (map ts rest)) as [Hlo Hlos].
      destruct (ts_max_from_spec (ts e) (map ts rest)) as [Hhi Hhis].
      unfold rows. constructor; [split; assumption|].
      rewrite List.Forall_map in Hlos, Hhis.
      apply List.Forall_forall. intros x Hx.
      rewrite List.Forall_forall in Hlos, Hhis. split; auto.
    + exists e, rest. now repeat split.
Qed.

(** The rows asked for: the track cell is the given name without regard
    to case, and so is the artist cell when an artist name is given and
    is not empty.  A cell without a value is no match. *)
Definition cell_is (c : option string) (name : string) : bool :=
  match c with
  | Some s => same_text s name
  | None => false
  end.

Definition wanted (track_name : string) (artist_name : option string) (e : PlayEvent) : bool :=
  (cell_is (track e) track_name
   && match artist_name with
      | Some a => if String.eqb a "" then true else cell_is (artist e) a
      | None => true
      end)%bool.

Lemma wanted_mask (track_name : string) (artist_name : option string) (e : PlayEvent) :
  track_stats_mask track_name artist_name e = wanted track_name artist_name e.
Proof.
  assert (Hcell : forall c name, eq_lower c name = cell_is c name).
  { intros [s|] name; cbn [eq_lower cell_is]; [|reflexivity].
    now rewrite same_text_lower. }
  unfold track_stats_mask, wanted. rewrite !Hcell.
  destruct artist_name as [[|c a]|]; cbn [truthy String.eqb];
    rewrite ?Hcell, ?andb_true_r; reflexivity.
Qed.

(** X4.  On ASCII text (the two names, and the track and artist cells of
    the table), [get_track_stats] returns [None] exactly when no row is
    asked for: no row whose track is the track name without regard to
    case and, when an artist name is given and not empty, whose artist is
    that name without regard to case.  Otherwise [plays_df] holds the rows
    asked for, in order; track, artist and album are those of the first of
    them; [play_count] is their number; the per-year counts are positive,
    listed by ascending year, each the number of those rows in its year,
    and add up to [play_count]; [first_played] and [last_played] bound the
    timestamps of those rows. *)
Theorem track_stats_describe_the_matching_plays :
  forall (df : list PlayEvent) (track_name : string) (artist_name : option string),
    ascii_text track_name ->
    ascii_cell artist_name ->
    Forall (fun e => ascii_cell (track e) /\ ascii_cell (artist e)) df ->
    match get_track_stats df track_name artist_name with
    | None => Forall (fun e => wanted track_name artist_name e = false) df
    | Some st =>
        plays_df st = List.filter (wanted track_name artist_name) df
        /\ st_play_count st = length (plays_df st)
        /\ (0 < st_play_count st)%nat
        /\ list_sum (map snd (plays_by_year st)) = st_play_count st
        /\ StronglySorted Z.lt (map fst (plays_by_year st))
        /\ Forall (fun yc => (0 < snd yc)%nat
                             /\ snd yc = length (List.filter (fun e => Z.eqb (fst yc) (year e))
                                                             (plays_df st)))
                  (plays_by_year st)
        /\ Forall (fun e => instant (st_first_played st) <= instant (ts e)
                            /\ instant (ts e) <= instant (st_last_played st))
                  (plays_df st)
        /\ (exists e rest, plays_df st = e :: rest
                           /\ st_track st = track e /\ st_artist st = artist e
                           /\ st_album st = album e)
    end.
Proof.
  intros df track_name artist_name _ _ _.
  pose proof (track_stats_over_the_mask df track_name artist_name) as H.
  destruct (get_track_stats df track_name artist_name) as [st|].
  - rewrite (List.filter_ext _ _ (wanted_mask track_name artist_name)) in H. exact H.
  - eapply List.Forall_impl; [|exact H]. intros e He. now rewrite <- wanted_mask.
Qed.

(** The theorem at work: a name in capitals, an artist in small letters. *)
Lemma track_stats_describe_the_matching_plays_witness :
  match get_track_stats sample_plays "SONG" (Some "band") with
  | None => Forall (fun e => wanted "SONG" (Some "band") e = false) sample_plays
  | Some st =>
      plays_df st = List.filter (wanted "SONG" (Some "band")) sample_plays
      /\ st_play_count st = length (plays_df st)
      /\ (0 < st_play_count st)%nat
      /\ list_sum (map snd (plays_by_year st)) = st_play_count st
      /\ StronglySorted Z.lt (map fst (plays_by_year st))
      /\ Forall (fun yc => (0 < snd yc)%nat
                           /\ snd yc = length (List.filter (fun e => Z.eqb (fst yc) (year e))
                                                           (plays_df st)))
                (plays_by_year st)
      /\ Forall (fun e => instant (st_first_played st) <= instant (ts e)
                          /\ instant (ts e) <= instant (st_last_played st))
                (plays_df st)
      /\ (exists e rest, plays_df st = e :: rest
                         /\ st_track st = track e /\ st_artist st = artist e
                         /\ st_album st = album e)
  end.
Proof.
  apply (track_stats_describe_the_matching_plays sample_plays "SONG" (Some "band")).
  - reflexivity.
  - reflexivity.
  - repeat constructor.
Defined.

(** Two of the three sample plays are asked for. *)
Example track_stats_of_the_sample :
  option_map st_play_count (get_track_stats sample_plays "SONG" (Some "band")) = Some 2%nat
  /\ get_track_stats sample_plays "SONG" (Some "duo") = None
  /\ option_map st_play_count (get_track_stats sample_plays "song" (Some "")) = Some 2%nat.
Proof. repeat split. Qed.

(** ** get_platform_stats *)

Definition platform_labels : list string :=
  [ "Unknown"; "iPhone"; "Android"; "Windows"; "Mac"; "Web Player"; "Linux"; "Other" ].

Lemma simplify_platform_label (p : option string) : In (simplify_platform p) platform_labels.
Proof.
  unfold simplify_platform, platform_labels. destruct p as [p|]; [|simpl; tauto].
  repeat match goal with
         | |- context [if ?b then _ else _] => destruct b
         end; simpl; tauto.
Qed.

(** Descending order of an integer column, read on the integers. *)
Lemma sorted_by_count {A} (f : A -> Z) (l : list A) :
  StronglySorted (fun a b => (inject_Z (f b) <= inject_Z (f a))%Q) l ->
  StronglySorted (fun a b => f b <= f a) l.
Proof.
  induction 1 as [|s l Hs IH Hall]; constructor; [exact IH|].
  eapply List.Forall_impl; [|exact Hall].
  intros s' Hle. cbv beta in Hle. now rewrite <- Zle_Qle in Hle.
Qed.

Lemma sorted_by_nat_count {A} (f : A -> nat) (l : list A) :
  StronglySorted (fun a b => (inject_Z (Z.of_nat (f b)) <= inject_Z (Z.of_nat (f a)))%Q) l ->
  StronglySorted (fun a b => (f b <= f a)%nat) l.
Proof.
  intros Hs. apply (sorted_by_count (fun x => Z.of_nat (f x))) in Hs.
  induction Hs as [|s l Hs IH Hall]; constructor; [exact IH|].
  eapply List.Forall_impl; [|exact Hall]. cbv beta. intros; lia.
Qed.

(** The play counts of a group table add up to the rows with a key. *)
Lemma stats_play_counts {K} (cmp : K -> K -> comparison) `{!CmpOk cmp}
    (keyf : PlayEvent -> option K) (P : K -> bool) (df : list PlayEvent) :
  Zsum (map play_count
          (List.filter (fun s => P (key s)) (map agg_stats (groupby cmp keyf df))))
  = Z.of_nat (length (List.filter
                        (fun e => match keyf e with Some k => P k | None => false end) df)).
Proof.
  rewrite <- (group_weight_groupby cmp P keyf df). unfold group_weight.
  rewrite <- Zsum_of_nat.
  induction (groupby cmp keyf df) as [|g gs IH]; [reflexivity|].
  cbn [map List.filter agg_stats key fst]. rewrite (Zsum_cons _ (map _ (map _ gs))).
  destruct (P (fst g)); cbn [map play_count snd].
  - rewrite Zsum_cons, IH. reflexivity.
  - rewrite IH. reflexivity.
Qed.

(** The platform classes as a table: the first keyword found in the
    folded platform text decides, in this order. *)
Definition platform_keywords : list (string * string) :=
  [ ("iphone", "iPhone"); ("ios", "iPhone"); ("android", "Android");
    ("windows", "Windows"); ("mac", "Mac"); ("osx", "Mac");
    ("web", "Web Player"); ("linux", "Linux") ].

Definition platform_class (p : option string) : string :=
  match p with
  | None => "Unknown"
  | Some p =>
      match List.find (fun kw => contains (fst kw) (lower p)) platform_keywords with
      | Some kw => snd kw
      | None => "Other"
      end
  end.

Lemma simplify_platform_class (p : option string) :
  simplify_platform p = platform_class p.
Proof.
  destruct p as [p|]; [|reflexivity].
  unfold simplify_platform, platform_class, platform_keywords. cbn [List.find fst snd].
  repeat match goal with
         | |- context [contains ?k (lower p)] => destruct (contains k (lower p))
         end; reflexivity.
Qed.

(** The plays of a platform class. *)
Definition plays_on (label : string) (df : list PlayEvent) : list PlayEvent :=
  List.filter (fun e => bool_decide (simplify_platform (platform e) = label)) df.

Lemma rows_with_platform (label : string) (df : list PlayEvent) :
  rows_with_key cmp_str key_platform label df = plays_on label df.
Proof.
  rewrite rows_with_key_filter by exact _. unfold plays_on, key_platform.
  apply List.filter_ext. intros e. apply bool_decide_ext. split; [now intros [= ->] | now intros ->].
Qed.

(** X5.  [get_platform_stats] puts every play in exactly one of eight
    platform classes.  The class of a play is "Unknown" when it has no
    platform, and else the class of the first of the keywords iphone, ios,
    android, windows, mac, osx, web, linux (in this order) that its
    platform holds without regard to case, "Other" when it holds none.
    There is a row for a class exactly when a play is of that class, no
    class has two rows, and the play count of a row is the number of plays
    of its class; so there are at most eight rows, each with a positive
    play count, the play counts add up to the number of rows of the table,
    and the rows are in descending order of play count. *)
Theorem platform_stats_partition_the_plays :
  forall (S : Sorter) (df : list PlayEvent),
    (forall p, simplify_platform p = platform_class p)
    /\ (forall label, In label (map key (get_platform_stats df))
                      <-> exists e, In e df /\ simplify_platform (platform e) = label)
    /\ Forall (fun s => play_count s = Z.of_nat (length (plays_on (key s) df)))
              (get_platform_stats df)
    /\ Zsum (map play_count (get_platform_stats df)) = Z.of_nat (length df)
    /\ List.NoDup (map key (get_platform_stats df))
    /\ Forall (fun s => In (key s) platform_labels /\ 0 < play_count s)
              (get_platform_stats df)
    /\ (length (get_platform_stats df) <= 8)%nat
    /\ StronglySorted (fun a b => play_count b <= play_count a) (get_platform_stats df).
Proof.
  intros S df. unfold get_platform_stats.
  set (col := fun s : Stats string => inject_Z (play_count s)).
  set (stats := map agg_stats (groupby cmp_str key_platform df)).
  pose proof (sort_values_perm _ col stats) as Hperm.
  assert (Hin : forall s, In s stats
                          <-> s = agg_stats (key s, plays_on (key s) df)
                              /\ plays_on (key s) df <> []).
  { intros s. unfold stats. rewrite List.in_map_iff. split.
    - intros ([k rs] & <- & Hg). apply in_groupby in Hg as [-> Hne]; [|exact _].
      cbn [agg_stats key fst snd]. rewrite rows_with_platform in *. now split.
    - intros [Hs Hne]. exists (key s, plays_on (key s) df). split; [now symmetry|].
      apply in_groupby; [exact _|]. now rewrite rows_with_platform. }
  assert (Hnodup : List.NoDup (map key (sort_values_desc col stats))).
  { apply (Permutation_NoDup (Permutation_map key Hperm)).
    unfold stats. rewrite map_map. cbn [agg_stats key].
    apply (keys_ascending_nodup cmp_str), groupby_ascending. exact _. }
  assert (Hrows : Forall (fun s => In (key s) platform_labels /\ 0 < play_count s)
                    (sort_values_desc col stats)).
  { apply (Permutation_Forall Hperm). apply List.Forall_forall. intros s Hs.
    apply Hin in Hs as [Hs Hne]. rewrite Hs. cbn [agg_stats key play_count fst snd].
    destruct (plays_on (key s) df) as [|e rs] eqn:Hplays; [congruence|].
    split; [|simpl; lia].
    assert (He : In e (plays_on (key s) df)) by (rewrite Hplays; now left).
    apply List.filter_In in He as [_ He]. apply bool_decide_eq_true in He.
    rewrite <- He. apply simplify_platform_label. }
  split; [exact simplify_platform_class|].
  split; [|split; [|split; [|split; [exact Hnodup|split; [exact Hrows|split]]]]].
  - intros label. split.
    + intros Hl. apply List.in_map_iff in Hl as (s & <- & Hs).
      apply (Permutation_in s (Permutation_sym Hperm)), Hin in Hs as [_ Hne].
      destruct (plays_on (key s) df) as [|e rs] eqn:Hplays; [congruence|].
      assert (He : In e (plays_on (key s) df)) by (rewrite Hplays; now left).
      apply List.filter_In in He as [He Hk]. apply bool_decide_eq_true in Hk. now exists e.
    + intros (e & He & Hk).
      apply (Permutation_in _ (Permutation_map key Hperm)).
      apply List.in_map_iff. exists (agg_stats (label, plays_on label df)).
      split; [reflexivity|]. apply Hin. cbn [agg_stats key fst]. split; [reflexivity|].
      intros Hnil.
      assert (Hp : In e (plays_on label df))
        by (apply List.filter_In; split; [exact He | now apply bool_decide_eq_true]).
      now rewrite Hnil in Hp.
  - apply (Permutation_Forall Hperm). apply List.Forall_forall. intros s Hs.
    apply Hin in Hs as [Hs _]. rewrite Hs at 1. reflexivity.
  - rewrite <- (Zsum_perm _ _ (Permutation_map play_count Hperm)).
    pose proof (stats_play_counts cmp_str key_platform (fun _ => true) df) as Hsum.
    rewrite (List.forallb_filter_id) in Hsum
      by (apply forallb_forall; reflexivity).
    fold stats in Hsum. rewrite Hsum. f_equal. f_equal.
    apply List.forallb_filter_id, forallb_forall. reflexivity.
  - change 8%nat with (length platform_labels).
    rewrite <- (length_map key). apply List.NoDup_incl_length; [exact Hnodup|].
    intros k Hk. apply List.in_map_iff in Hk as (s & <- & Hs).
    rewrite List.Forall_forall in Hrows. now apply Hrows.
  - apply sorted_by_count, sort_values_sorted.
Qed.

(** The sample plays: one on a phone, one on Linux, one without a
    platform. *)
Example platform_stats_of_the_sample :
  map (fun s => (key s, play_count s)) (get_platform_stats (sorter := stable_sorter) sample_plays)
  = [ ("Linux", 1); ("Unknown", 1); ("iPhone", 1) ].
Proof. reflexivity. Qed.

(** ** get_most_skipped *)

(** X6.  Every row of [get_most_skipped] is a (track, artist) pair with at
    least one play marked skipped, and its [skip_count] is the number of
    plays of the pair that are marked skipped; the rows are in descending
    order of [skip_count], and for a limit [N >= 0] there are at most [N]. *)
Theorem most_skipped_counts_skipped_plays :
  forall (S : Sorter) (df : list PlayEvent) (limit : Z),
    Forall (fun r => skip_count r
                     = Z.of_nat (length (plays_of (skip_track r) (skip_artist r)
                                                  (List.filter is_skipped df)))
                     /\ 0 < skip_count r)
           (get_most_skipped df limit)
    /\ StronglySorted (fun a b => skip_count b <= skip_count a) (get_most_skipped df limit)
    /\ (0 <= limit -> Z.of_nat (length (get_most_skipped df limit)) <= limit).
Proof.
  intros S df limit. unfold get_most_skipped.
  set (col := fun r : SkipRow => inject_Z (skip_count r)).
  set (stats := map agg_skip (groupby cmp_str2 key_track_artist (List.filter is_skipped df))).
  destruct (head_prefix limit (sort_values_desc col stats)) as [rest Hrest].
  pose proof (sort_values_perm _ col stats) as Hperm.
  split; [|split].
  - apply List.Forall_forall. intros r Hr.
    assert (Hin : In r stats).
    { apply (Permutation_in r (Permutation_sym Hperm)). rewrite Hrest.
      apply in_or_app. now left. }
    apply List.in_map_iff in Hin as ([[t a] rs] & <- & Hin).
    cbn [agg_skip skip_count skip_track skip_artist fst snd].
    apply in_groupby in Hin as [-> Hne]; [|exact _].
    rewrite plays_of_rows_with_key in *.
    split; [reflexivity|].
    destruct (plays_of t a (List.filter is_skipped df)); [congruence | simpl; lia].
  - apply head_sorted, sorted_by_count, sort_values_sorted.
  - apply head_length.
Qed.

(** ** get_top_albums *)

(** X7.  For a limit [N >= 0], [get_top_albums] returns at most [N] rows
    in descending order of play count; the rows come from the group table
    of the year-filtered input, one group per (album, artist) with both
    present, in ascending key order, and each row holds the play count and
    total minutes of the rows of its key. *)
Theorem top_albums_bounded_and_descending :
  forall (S : Sorter) (df : list PlayEvent) (year : option Z) (limit : Z),
    0 <= limit ->
    top_n_contract cmp_str2 key_album_artist df year limit "plays"
      (get_top_albums df year limit).
Proof.
  intros S df year limit Hlimit. unfold get_top_albums.
  change (fun s : Stats (string * string) => inject_Z (play_count s))
    with (@sort_col (string * string) "plays").
  apply top_n_contract_intro; [exact _ | exact Hlimit].
Qed.

(** The theorem at work: the most played album of 2020. *)
Lemma top_albums_bounded_and_descending_witness :
  top_n_contract cmp_str2 key_album_artist sample_plays (Some 2020) 1 "plays"
    (get_top_albums (sorter := stable_sorter) sample_plays (Some 2020) 1).
Proof.
  apply (top_albums_bounded_and_descending stable_sorter sample_plays (Some 2020) 1).
  lia.
Defined.

(** ** get_not_on_playlist_stats *)

(** A play of a (track, artist) pair that is on no playlist. *)
Definition off_playlist_play (ps : gset (option string * option string))
    (e : PlayEvent) : bool :=
  match key_track_artist e with
  | Some k => negb (on_playlist ps (fst k) (snd k))
  | None => false
  end.

(** X8.  On a table with at least one play that has track and artist,
    [get_not_on_playlist_stats] splits the unique (track, artist) pairs
    into those on a playlist and those on none: the two counts add up to
    [total_unique_tracks], which is positive; [not_on_playlist_plays] is
    the number of plays (with track and artist present) whose pair is on no
    playlist; and with no playlist entries at all no pair counts as on a
    playlist.  The model leaves out only the tables where no play has both
    a track and an artist. *)
Theorem not_on_playlist_stats_split_the_pairs :
  forall (playlist_tracks : list PlaylistEntry) (df : list PlayEvent),
    match get_not_on_playlist_stats playlist_tracks df with
    | Returns st =>
        (on_playlist_count st + not_on_playlist_count st = nop_total_unique_tracks st)%nat
        /\ (0 < nop_total_unique_tracks st)%nat
        /\ not_on_playlist_plays st
           = Z.of_nat (length (List.filter
                                 (off_playlist_play (playlist_set playlist_tracks)) df))
        /\ (playlist_tracks = [] -> on_playlist_count st = 0%nat)
    | Raises _ => False
    | NotModelled => Forall (fun e => key_track_artist e = None) df
    end.
Proof.
  intros pl df. unfold get_not_on_playlist_stats.
  pose proof (stats_play_counts cmp_str2 key_track_artist
                (fun k => negb (on_playlist (playlist_set pl) (fst k) (snd k))) df)
    as Hplays.
  pose proof (group_weight_groupby cmp_str2 (fun _ => true) key_track_artist df) as Hw.
  destruct (map agg_stats (groupby cmp_str2 key_track_artist df)) as [|s0 l0] eqn:Hstats.
  - destruct (groupby cmp_str2 key_track_artist df); [|discriminate].
    cbn in Hw. apply List.Forall_forall. intros e He.
    destruct (key_track_artist e) as [k|] eqn:Hk; [|reflexivity].
    assert (Hin : In e (List.filter
                          (fun r => match key_track_artist r with
                                    | Some _ => true | None => false end) df))
      by (apply List.filter_In; now rewrite Hk).
    symmetry in Hw. apply length_zero_iff_nil in Hw. rewrite Hw in Hin. destruct Hin.
  - cbn [on_playlist_count not_on_playlist_count nop_total_unique_tracks
           not_on_playlist_plays].
    split; [|split; [simpl; lia|split; [exact Hplays|]]].
    + generalize (s0 :: l0). intros l. induction l as [|s l IH]; [reflexivity|].
      cbn [List.filter length]. destruct (stats_on_playlist (playlist_set pl) s);
        cbn [negb length]; lia.
    + intros ->. generalize (s0 :: l0). intros l.
      induction l as [|s l IH]; [reflexivity|].
      cbn [List.filter]. unfold stats_on_playlist at 1, on_playlist.
      rewrite bool_decide_eq_false_2; [exact IH|]. cbn. set_solver.
Qed.

(** ** load_all_data *)





(** ** get_heatmap_data *)

Lemma plays_at_filter (df : list PlayEvent) (d h : Z) :
  plays_at df d h
  = Z.of_nat (length (List.filter
                        (fun e => (Z.eqb (day_of_week e) d && Z.eqb (hour e) h)%bool) df)).
Proof.
  unfold plays_at, rows_with_key. do 2 f_equal. apply List.filter_ext. intros e.
  cbn [key_day_hour].
  destruct (cmp_Z2 (d, h) (day_of_week e, hour e)) eqn:Hc.
  - apply cmp_eq in Hc. injection Hc as -> ->. now rewrite !Z.eqb_refl.
  - destruct (Z.eqb_spec (day_of_week e) d) as [<-|]; [|reflexivity].
    destruct (Z.eqb_spec (hour e) h) as [<-|]; [|reflexivity].
    now rewrite (proj2 (cmp_eq (day_of_week e, hour e) _) eq_refl) in Hc.
  - destruct (Z.eqb_spec (day_of_week e) d) as [<-|]; [|reflexivity].
    destruct (Z.eqb_spec (hour e) h) as [<-|]; [|reflexivity].
    now rewrite (proj2 (cmp_eq (day_of_week e, hour e) _) eq_refl) in Hc.
Qed.

(** X1.  The heat map has a row for each day of the week on which a play
    occurs and a column for each hour at which one occurs, and no others:
    it is not padded to 7 x 24.  The labels are ascending; the cell of a
    day and an hour is the number of plays on that day at that hour (0
    where the two never meet); and the cells add up to the number of rows
    of the table. *)
Theorem heatmap_counts_plays_per_day_and_hour :
  forall (df : list PlayEvent),
    StronglySorted Z.lt (index (get_heatmap_data df))
    /\ StronglySorted Z.lt (columns (get_heatmap_data df))
    /\ (forall d, In d (index (get_heatmap_data df))
                  <-> exists e, In e df /\ day_of_week e = d)
    /\ (forall h, In h (columns (get_heatmap_data df))
                  <-> exists e, In e df /\ hour e = h)
    /\ values (get_heatmap_data df)
       = map (fun d =>
                map (fun h =>
                       Z.of_nat (length (List.filter
                                           (fun e => (Z.eqb (day_of_week e) d
                                                      && Z.eqb (hour e) h)%bool) df)))
                    (columns (get_heatmap_data df)))
             (index (get_heatmap_data df))
    /\ Zsum (map Zsum (values (get_heatmap_data df))) = Z.of_nat (length df).
Proof.
  intros df. destruct (heatmap_labels df) as (Hdays & Hhours & Hd & Hh).
  split; [apply sorted_unique_sorted|]. split; [apply sorted_unique_sorted|].
  split; [exact Hd|]. split; [exact Hh|]. split.
  - rewrite heatmap_values. apply map_ext. intros d. apply map_ext. intros h.
    apply plays_at_filter.
  - rewrite heatmap_values, map_map.
    apply (plays_at_total df _ _ Hdays Hhours).
    intros e He. split; [apply Hd | apply Hh]; now exists e.
Qed.

(** ** search_tracks, search_artists *)





(** The sample plays: "SONG" finds the pair played twice, by track name. *)
Example search_of_the_sample :
  option_map (map (fun r => (s_key r, s_play_count r)))
    (match search_tracks (sorter := stable_sorter) sample_plays "SONG" 5 with
     | Returns rows => Some rows
     | _ => None
     end)
  = Some [ ("Song", "Band", "Album", 2) ]
  /\ search_artists (sorter := stable_sorter) sample_plays "SONG" 5 = Returns [].
Proof. split; reflexivity. Qed.

(** ** get_one_hit_wonder_stats *)

Lemma nodup_map_filter {A B} (f : A -> B) (p : A -> bool) (l : list A) :
  List.NoDup (map f l) -> List.NoDup (map f (List.filter p l)).
Proof.
  induction l as [|x l IH]; cbn [map List.filter]; [constructor|].
  intros Hnd. inversion Hnd as [|? ? Hnotin Hnd']; subst.
  destruct (p x); [|now apply IH].
  cbn [map]. constructor; [|now apply IH].
  intros Hin. apply Hnotin. apply List.in_map_iff in Hin as (y & Heq & Hin).
  apply List.in_map_iff. exists y. split; [exact Heq|].
  now apply List.filter_In in Hin as [Hin _].
Qed.

Definition pair_of (r : PairRow) : string * string := (pair_track r, pair_artist r).

Lemma pair_rows_nodup (df : list PlayEvent) :
  List.NoDup (map pair_of (map agg_pair (groupby cmp_str2 key_track_artist df))).
Proof.
  rewrite map_map. unfold pair_of. cbn [agg_pair pair_track pair_artist].
  erewrite map_ext; [apply (keys_ascending_nodup cmp_str2), groupby_ascending; exact _|].
  intros [[t a] rs]. reflexivity.
Qed.

Lemma in_pair_rows (df : list PlayEvent) (r : PairRow) :
  In r (map agg_pair (groupby cmp_str2 key_track_artist df))
  <-> r = agg_pair (pair_track r, pair_artist r, plays_of (pair_track r) (pair_artist r) df)
      /\ plays_of (pair_track r) (pair_artist r) df <> [].
Proof.
  rewrite List.in_map_iff. split.
  - intros ([[t a] rs] & <- & Hin). apply in_groupby in Hin as [-> Hne]; [|exact _].
    cbn [agg_pair pair_track pair_artist fst snd].
    rewrite plays_of_rows_with_key in *. now split.
  - intros [Hr Hne].
    exists (pair_track r, pair_artist r, plays_of (pair_track r) (pair_artist r) df).
    split; [now symmetry|]. apply in_groupby; [exact _|].
    now rewrite plays_of_rows_with_key.
Qed.

(** The group sums are sums of 64-bit integers.  When the durations of a
    table, each taken without its sign, add up to less than 2^63, no sum
    over some of its rows leaves that range, and the sums of the model are
    the sums of the code. *)
Definition INT64_MAX : Z := 9223372036854775807.

Definition total_duration (df : list PlayEvent) : Z :=
  Zsum (map (fun e => Z.abs (ms_played e)) df).

Lemma total_duration_cons (e : PlayEvent) (df : list PlayEvent) :
  total_duration (e :: df) = Z.abs (ms_played e) + total_duration df.
Proof. unfold total_duration. cbn [map]. apply Zsum_cons. Qed.

Lemma total_duration_nonneg (df : list PlayEvent) : 0 <= total_duration df.
Proof.
  induction df as [|e df IH]; [unfold total_duration, Zsum; simpl; lia|].
  rewrite total_duration_cons. lia.
Qed.

Lemma filter_sum_bounded (f : PlayEvent -> bool) (df : list PlayEvent) :
  Z.abs (Zsum (map ms_played (List.filter f df))) <= total_duration df.
Proof.
  induction df as [|e df IH]; [unfold total_duration, Zsum; simpl; lia|].
  rewrite total_duration_cons. cbn [List.filter].
  destruct (f e); [cbn [map]; rewrite Zsum_cons|]; lia.
Qed.

(** X3.  On a table whose play durations add up to less than 2^63 ms
    (each taken without its sign) and where some (track, artist) pair was
    played for two minutes or more in total, [get_one_hit_wonder_stats]
    counts pairs: [total_unique_tracks] is the number of pairs played for
    120000 ms or more in total, and [one_hit_count] the number of those
    with a single play that are on no playlist; so the second never
    exceeds the first.  The total of every pair is within the 64-bit
    range. *)
Theorem one_hit_wonder_stats_count_pairs_with_a_single_play :
  forall (playlist_tracks : list PlaylistEntry) (df : list PlayEvent),
    total_duration df <= INT64_MAX ->
    (exists t a, plays_of t a df <> []
                 /\ 120000 <= Zsum (map ms_played (plays_of t a df))) ->
    exists (listened hits : list (string * string)),
      List.NoDup listened /\ List.NoDup hits /\ incl hits listened
      /\ total_unique_tracks (get_one_hit_wonder_stats playlist_tracks df) = length listened
      /\ one_hit_count (get_one_hit_wonder_stats playlist_tracks df) = length hits
      /\ (0 < length listened)%nat
      /\ (forall t a, In (t, a) listened
                      <-> plays_of t a df <> []
                          /\ 120000 <= Zsum (map ms_played (plays_of t a df)))
      /\ (forall t a, In (t, a) hits
                      <-> (exists e, plays_of t a df = [e] /\ 120000 <= ms_played e)
                          /\ (Some t, Some a) ∉ playlist_set playlist_tracks)
      /\ (forall t a, - INT64_MAX <= Zsum (map ms_played (plays_of t a df)) <= INT64_MAX).
Proof.
  intros pl df Hfits (t0 & a0 & Hne0 & Hms0).
  set (rows := map agg_pair (groupby cmp_str2 key_track_artist df)).
  set (long := List.filter (fun r => Z.leb 120000 (pair_ms_played r)) rows).
  assert (Hlistened : forall t a, In (t, a) (map pair_of long)
                                  <-> plays_of t a df <> []
                                      /\ 120000 <= Zsum (map ms_played (plays_of t a df))).
  { intros t a. rewrite List.in_map_iff. split.
    - intros (r & [= <- <-] & Hr). apply List.filter_In in Hr as [Hr Hms].
      apply in_pair_rows in Hr as [Hr Hne]. split; [exact Hne|].
      apply Z.leb_le in Hms. rewrite Hr in Hms. exact Hms.
    - intros [Hne Hms]. exists (agg_pair (t, a, plays_of t a df)).
      split; [reflexivity|]. apply List.filter_In. split.
      + apply in_pair_rows. cbn [agg_pair pair_track pair_artist fst snd]. now split.
      + apply Z.leb_le. exact Hms. }
  exists (map pair_of long), (map pair_of (one_hit_pairs pl df)).
  split; [apply nodup_map_filter, pair_rows_nodup|].
  split; [unfold one_hit_pairs; apply nodup_map_filter, nodup_map_filter, pair_rows_nodup|].
  split; [|split; [|split; [|split; [|split; [exact Hlistened|split]]]]].
  - intros p Hp. apply List.in_map_iff in Hp as (r & <- & Hr).
    unfold one_hit_pairs in Hr. apply List.filter_In in Hr as [Hr _].
    now apply in_map.
  - unfold get_one_hit_wonder_stats. cbn [total_unique_tracks]. now rewrite length_map.
  - unfold get_one_hit_wonder_stats. cbn [one_hit_count]. now rewrite length_map.
  - assert (Hin : In (t0, a0) (map pair_of long)) by (apply Hlistened; now split).
    destruct (map pair_of long); [destruct Hin | cbn [length]; lia].
  - intros t a. rewrite <- one_hit_wonder_stats_counts_pairs. split.
    + intros Hin. apply List.in_map_iff in Hin as (r & [= <- <-] & Hr). now exists r.
    + intros (r & Hr & <- & <-). apply List.in_map_iff. now exists r.
  - intros t a. unfold plays_of.
    match goal with
    | |- context [List.filter ?f df] => pose proof (filter_sum_bounded f df) as Hb
    end.
    lia.
Qed.

(** The theorem at work: one pair played once for three minutes. *)
Lemma one_hit_wonder_stats_count_pairs_with_a_single_play_witness :
  exists (listened hits : list (string * string)),
    List.NoDup listened /\ List.NoDup hits /\ incl hits listened
    /\ total_unique_tracks (get_one_hit_wonder_stats [] sample_plays) = length listened
    /\ one_hit_count (get_one_hit_wonder_stats [] sample_plays) = length hits
    /\ (0 < length listened)%nat
    /\ (forall t a, In (t, a) listened
                    <-> plays_of t a sample_plays <> []
                        /\ 120000 <= Zsum (map ms_played (plays_of t a sample_plays)))
    /\ (forall t a, In (t, a) hits
                    <-> (exists e, plays_of t a sample_plays = [e] /\ 120000 <= ms_played e)
                        /\ (Some t, Some a) ∉ playlist_set [])
    /\ (forall t a, - INT64_MAX <= Zsum (map ms_played (plays_of t a sample_plays))
                    <= INT64_MAX).
Proof.
  apply (one_hit_wonder_stats_count_pairs_with_a_single_play [] sample_plays).
  - vm_compute; discriminate.
  - exists "Tune", "Duo". split; [discriminate | vm_compute; discriminate].
Defined.

(** The sample plays: two pairs, one of them played once. *)
Example one_hit_wonder_stats_of_the_sample :
  get_one_hit_wonder_stats [] sample_plays
  = {| total_unique_tracks := 2; one_hit_count := 1 |}.
Proof. reflexivity. Qed.

(** ** get_top_not_on_playlist *)

Lemma head_incl {A} (n : Z) (l : list A) : incl (head n l) l.
Proof.
  destruct (head_prefix n l) as [rest Hl]. intros x Hx. rewrite Hl.
  apply in_or_app. now left.
Qed.

Lemma head_nodup {A B} (f : A -> B) (n : Z) (l : list A) :
  List.NoDup (map f l) -> List.NoDup (map f (head n l)).
Proof.
  destruct (head_prefix n l) as [rest Hl]. intros Hnd.
  rewrite Hl, map_app in Hnd. now apply List.NoDup_app_remove_r in Hnd.
Qed.

(** The plays of a (track, artist, album) triple. *)
Definition plays_of_triple (t a b : string) (df : list PlayEvent) : list PlayEvent :=
  List.filter (fun e => bool_decide (key_track_artist_album e = Some (t, a, b))) df.

Definition triple_of (r : OffPlaylistRow) : string * string * string :=
  (off_track r, off_artist r, off_album r).

Lemma in_off_rows (df : list PlayEvent) (r : OffPlaylistRow) :
  In r (omap agg_off (groupby cmp_str3 key_track_artist_album df)) ->
  agg_off (triple_of r, plays_of_triple (off_track r) (off_artist r) (off_album r) df)
  = Some r.
Proof.
  intros Hr. apply list_elem_of_In, list_elem_of_omap in Hr as ([[[t a] b] rs] & Hin & Hr).
  apply list_elem_of_In, in_groupby in Hin as [-> _]; [|exact _].
  rewrite rows_with_key_filter in Hr by exact _.
  assert (Hkey : triple_of r = (t, a, b)).
  { unfold agg_off in Hr. cbn [snd fst] in Hr.
    destruct (List.filter _ df); [discriminate|]. now injection Hr as <-. }
  unfold triple_of in Hkey. injection Hkey as Ht Ha Hb.
  unfold triple_of, plays_of_triple. rewrite Ht, Ha, Hb. exact Hr.
Qed.

Lemma off_rows_nodup (df : list PlayEvent) :
  List.NoDup (map triple_of (omap agg_off (groupby cmp_str3 key_track_artist_album df))).
Proof.
  pose proof (keys_ascending_nodup cmp_str3 _
                (groupby_ascending cmp_str3 key_track_artist_album df)) as Hnd.
  induction (groupby cmp_str3 key_track_artist_album df) as [|g gs IH];
    cbn [omap list_omap map]; [constructor|].
  cbn [map] in Hnd. inversion Hnd as [|? ? Hnotin Hnd']; subst.
  destruct (agg_off g) as [r|] eqn:Hr; [|now apply IH].
  cbn [map]. constructor; [|now apply IH].
  assert (Hkey : triple_of r = fst g).
  { unfold agg_off in Hr. destruct (snd g); [discriminate|]. injection Hr as <-.
    unfold triple_of. cbn. now destruct g as [[[? ?] ?] ?]. }
  rewrite Hkey. intros Hin. apply Hnotin.
  apply List.in_map_iff in Hin as (r' & Heq & Hin).
  apply list_elem_of_In, list_elem_of_omap in Hin as (g' & Hin & Hr').
  apply List.in_map_iff. exists g'. split; [|now apply list_elem_of_In].
  rewrite <- Heq. unfold agg_off in Hr'. destruct (snd g'); [discriminate|].
  injection Hr' as <-. unfold triple_of. cbn. now destruct g' as [[[? ?] ?] ?].
Qed.

(** X19.  On a table with at least one play that has track, artist and
    album, no row of [get_top_not_on_playlist] is a pair on a playlist.
    Each row is a (track, artist, album) triple that was played, with the
    number of its plays and a [last_played] no play of it comes after; no
    triple is reported twice; the rows are in descending order of play
    count, and for a limit [N >= 0] there are at most [N].  The model
    leaves out only the tables where no play has all three fields. *)
Theorem top_not_on_playlist_are_off_playlist :
  forall (S : Sorter) (playlist_tracks : list PlaylistEntry) (df : list PlayEvent)
         (limit : Z),
    match get_top_not_on_playlist playlist_tracks df limit with
    | Returns rows =>
        Forall (fun r =>
                  ((Some (off_track r), Some (off_artist r))
                     ∉ playlist_set playlist_tracks)
                  /\ off_play_count r
                     = Z.of_nat (length (plays_of_triple (off_track r) (off_artist r)
                                                         (off_album r) df))
                  /\ 0 < off_play_count r
                  /\ Forall (fun e => instant (ts e) <= instant (off_last_played r))
                            (plays_of_triple (off_track r) (off_artist r) (off_album r) df))
               rows
        /\ List.NoDup (map triple_of rows)
        /\ StronglySorted (fun a b => off_play_count b <= off_play_count a) rows
        /\ (0 <= limit -> Z.of_nat (length rows) <= limit)
    | Raises _ => False
    | NotModelled => Forall (fun e => key_track_artist_album e = None) df
    end.
Proof.
  intros S pl df limit. unfold get_top_not_on_playlist.
  pose proof (in_off_rows df) as Hrows. pose proof (off_rows_nodup df) as Hnd.
  destruct (omap agg_off (groupby cmp_str3 key_track_artist_album df)) as [|r0 l0] eqn:Hcounts.
  - pose proof (group_weight_groupby cmp_str3 (fun _ => true) key_track_artist_album df) as Hw.
    pose proof (groupby_nonempty cmp_str3 key_track_artist_album df) as Hne.
    destruct (groupby cmp_str3 key_track_artist_album df) as [|g gs].
    + cbn in Hw. symmetry in Hw. apply length_zero_iff_nil in Hw.
      apply List.Forall_forall. intros e He.
      destruct (key_track_artist_album e) as [k|] eqn:Hk; [|reflexivity].
      assert (Hin : In e (List.filter
                            (fun r => match key_track_artist_album r with
                                      | Some _ => true | None => false end) df))
        by (apply List.filter_In; now rewrite Hk).
      rewrite Hw in Hin. destruct Hin.
    + exfalso. apply List.Forall_inv in Hne. cbn [omap list_omap] in Hcounts.
      unfold agg_off in Hcounts at 1. destruct (snd g); [congruence|discriminate].
  - set (col := fun r : OffPlaylistRow => inject_Z (off_play_count r)).
    set (not_on := List.filter
                     (fun r => negb (on_playlist (playlist_set pl) (off_track r) (off_artist r)))
                     (r0 :: l0)).
    pose proof (sort_values_perm _ col not_on) as Hperm.
    split; [|split; [|split]].
    + apply List.Forall_forall. intros r Hr. apply head_incl in Hr.
      apply (Permutation_in r (Permutation_sym Hperm)) in Hr.
      apply List.filter_In in Hr as [Hr Hoff].
      apply negb_true_iff, bool_decide_eq_false in Hoff. split; [exact Hoff|].
      apply Hrows in Hr. unfold agg_off in Hr. cbn [snd fst] in Hr.
      destruct (plays_of_triple (off_track r) (off_artist r) (off_album r) df)
        as [|e rest] eqn:Hplays; [discriminate|].
      injection Hr as Hr.
      assert (Hcount : off_play_count r = Z.of_nat (length (e :: rest)))
        by (now rewrite <- Hr).
      assert (Hlast : off_last_played r = ts_max_from (ts e) (map ts rest))
        by (now rewrite <- Hr).
      split; [exact Hcount|]. split; [rewrite Hcount; cbn [length]; lia|].
      rewrite Hlast.
      destruct (ts_max_from_spec (ts e) (map ts rest)) as [Hfirst Hrest].
      constructor; [exact Hfirst|].
      rewrite List.Forall_map in Hrest. exact Hrest.
    + apply head_nodup.
      apply (Permutation.Permutation_NoDup (Permutation_map triple_of Hperm)).
      unfold not_on. now apply nodup_map_filter.
    + apply head_sorted, sorted_by_count, sort_values_sorted.
    + apply head_length.
Qed.

End AggregatesSpec.

(** * The playlist export *)

Module PlaylistsSpec.
Import Py DataLoader DataLoaderSpec Playlists AggregatesSpec.

(** ** Distinct values in order of first appearance *)

Section FirstOccurrences.
Context {A : Type} `{EqDecision A}.

Definition first_occurrences_from (acc l : list A) : list A :=
  fold_left (fun acc x => if bool_decide (x ∈ acc) then acc else acc ++ [x]) l acc.

Lemma first_occurrences_from_spec (l acc : list A) :
  NoDup acc ->
  NoDup (first_occurrences_from acc l)
  /\ forall x, x ∈ first_occurrences_from acc l <-> x ∈ acc \/ x ∈ l.
Proof.
  unfold first_occurrences_from. revert acc.
  induction l as [|y l IH]; intros acc Hacc; cbn [fold_left].
  - split; [exact Hacc|]. intros x. rewrite elem_of_nil. tauto.
  - destruct (bool_decide_reflect (y ∈ acc)) as [Hin | Hnotin].
    + destruct (IH acc Hacc) as [Hnd Hmem]. split; [exact Hnd|].
      intros x. rewrite Hmem, elem_of_cons. split; [tauto|].
      intros [Hx | [-> | Hx]]; tauto.
    + assert (Hacc' : NoDup (acc ++ [y])).
      { apply NoDup_app. repeat split; [exact Hacc | | apply NoDup_singleton].
        intros x Hx ->%list_elem_of_singleton. contradiction. }
      destruct (IH _ Hacc') as [Hnd Hmem]. split; [exact Hnd|].
      intros x. rewrite Hmem, elem_of_app, list_elem_of_singleton, elem_of_cons. tauto.
Qed.
End FirstOccurrences.

Lemma unique_spec (l : list string) :
  NoDup (SpotifyApi.unique l) /\ forall x, x ∈ SpotifyApi.unique l <-> x ∈ l.
Proof.
  destruct (first_occurrences_from_spec l [] (NoDup_nil_2)) as [Hnd Hmem].
  split; [exact Hnd|]. intros x. specialize (Hmem x).
  rewrite elem_of_nil in Hmem. unfold first_occurrences_from in Hmem. tauto.
Qed.

Lemma drop_duplicates_spec (l : list (option string * option string)) :
  NoDup (drop_duplicates l) /\ forall x, x ∈ drop_duplicates l <-> x ∈ l.
Proof.
  destruct (first_occurrences_from_spec l [] (NoDup_nil_2)) as [Hnd Hmem].
  split; [exact Hnd|]. intros x. specialize (Hmem x).
  rewrite elem_of_nil in Hmem. unfold first_occurrences_from in Hmem. tauto.
Qed.

Lemma size_list_to_set_le {A} {Heq : EqDecision A} {Hcount : Countable A} (l : list A) :
  (size (list_to_set l : gset A) <= length l)%nat.
Proof.
  induction l as [|x l IH]; cbn [list_to_set length].
  - now rewrite size_empty.
  - rewrite size_union_alt, size_singleton.
    pose proof (subseteq_size (list_to_set l ∖ {[x]}) (list_to_set l : gset A)) as Hle.
    assert (Hsub : (list_to_set l ∖ {[x]} : gset A) ⊆ list_to_set l)
      by (intros y Hy; apply elem_of_difference in Hy; tauto).
    specialize (Hle Hsub). lia.
Qed.

(** ** Sample export *)

Definition song (t a : string) : ItemJson :=
  {| item_track := Some {| trackName := Some t; artistName := Some a;
                           albumName := None; trackUri := None |} |}.

Definition playlist_of (n : string) (l : list ItemJson) : PlaylistJson :=
  {| name := Some n; lastModifiedDate := None; collaborators := None; items := Some l |}.

Definition sample_export : list PlaylistJson :=
  [ playlist_of "Morning" [song "Song" "Band"; song "Tune" "Duo"];
    playlist_of "SD/TB - Thanks 4 Sharing" [song "Song" "Band"];
    playlist_of "Evening" [song "Song" "Band"; {| item_track := None |}] ].

(** ** get_playlist_names, get_all_playlist_tracks *)

Lemma excluded_spec (n : string) :
  excluded (Some n) = true <-> In n EXCLUDED_PLAYLISTS.
Proof.
  unfold excluded. rewrite existsb_exists. split.
  - intros (x & Hx & ->%String.eqb_eq). exact Hx.
  - intros Hn. exists n. split; [exact Hn | apply String.eqb_refl].
Qed.

Lemma excluded_name (p : PlaylistJson) :
  excluded (name p) = excluded (Some (name_or_unknown p)).
Proof.
  unfold name_or_unknown. destruct (name p); reflexivity.
Qed.

(** X10.  The flattened playlist frame leaves the excluded playlists out
    and nothing else: no row and no listed name belongs to an excluded
    playlist, every row's playlist is one of the listed names, and every
    item with a track of a playlist that is not excluded has its row,
    under the playlist's name ("Unknown" when the playlist has none). *)
Theorem playlist_frame_skips_only_excluded :
  forall (data : list PlaylistJson),
    Forall (fun e => In (playlist e) (get_playlist_names data)
                     /\ ~ In (playlist e) EXCLUDED_PLAYLISTS)
           (get_all_playlist_tracks data)
    /\ Forall (fun n => ~ In n EXCLUDED_PLAYLISTS) (get_playlist_names data)
    /\ (forall p t,
          In p data -> ~ In (name_or_unknown p) EXCLUDED_PLAYLISTS ->
          In t (track_items p) ->
          In (entry_of (name_or_unknown p) t) (get_all_playlist_tracks data)).
Proof.
  intros data. split; [|split].
  - apply List.Forall_forall. intros e He.
    unfold get_all_playlist_tracks in He. apply in_flat_map in He as (p & Hp & He).
    destruct (excluded (Some (name_or_unknown p))) eqn:Hex; [destruct He|].
    apply List.in_map_iff in He as (t & <- & Ht). cbn [entry_of playlist]. split.
    + unfold get_playlist_names. apply List.in_map_iff. exists p. split; [reflexivity|].
      apply List.filter_In. split; [exact Hp|]. now rewrite excluded_name, Hex.
    + rewrite <- excluded_spec, Hex. discriminate.
  - apply List.Forall_forall. intros n Hn. unfold get_playlist_names in Hn.
    apply List.in_map_iff in Hn as (p & <- & Hp). apply List.filter_In in Hp as [_ Hp].
    rewrite excluded_name in Hp. rewrite <- excluded_spec.
    destruct (excluded (Some (name_or_unknown p))); [discriminate | discriminate].
  - intros p t Hp Hex Ht. unfold get_all_playlist_tracks. apply in_flat_map.
    exists p. split; [exact Hp|].
    destruct (excluded (Some (name_or_unknown p))) eqn:Hex'.
    + apply excluded_spec in Hex'. contradiction.
    + apply in_map. exact Ht.
Qed.

(** ** get_playlist_stats *)

Lemma length_flat_map {A B} (f : A -> list B) (l : list A) :
  length (flat_map f l) = list_sum (map (fun x => length (f x)) l).
Proof.
  induction l as [|x l IH]; [reflexivity|].
  cbn [flat_map map]. rewrite length_app, IH. reflexivity.
Qed.

Lemma playlist_stats_perm {S : Sorter} (data : list PlaylistJson) :
  Permutation (map stat_of (List.filter (fun p => negb (excluded (name p))) data))
              (get_playlist_stats data).
Proof.
  unfold get_playlist_stats.
  destruct (map stat_of (List.filter (fun p => negb (excluded (name p))) data)) eqn:Hs;
    [reflexivity|].
  apply sort_values_perm.
Qed.

Lemma frame_length (data : list PlaylistJson) :
  length (get_all_playlist_tracks data)
  = list_sum (map track_count
                (map stat_of (List.filter (fun p => negb (excluded (name p))) data))).
Proof.
  unfold get_all_playlist_tracks. rewrite length_flat_map.
  induction data as [|p data IH]; [reflexivity|].
  cbn [map List.filter]. rewrite excluded_name.
  destruct (excluded (Some (name_or_unknown p))); cbn [negb map list_sum length].
  - exact IH.
  - change (list_sum (?x :: ?l)) with (x + list_sum l)%nat.
    rewrite length_map, IH. reflexivity.
Qed.

(** X11.  [get_playlist_stats] has one row per playlist that is not
    excluded, carrying the listed names; the track counts add up to the
    number of rows of the flattened playlist frame; a playlist never has
    more distinct artists than tracks; and the rows are in descending
    order of track count. *)
Theorem playlist_stats_account_for_every_row :
  forall (S : Sorter) (data : list PlaylistJson),
    Permutation (get_playlist_names data) (map stat_name (get_playlist_stats data))
    /\ list_sum (map track_count (get_playlist_stats data))
       = length (get_all_playlist_tracks data)
    /\ Forall (fun s => (unique_artists s <= track_count s)%nat) (get_playlist_stats data)
    /\ StronglySorted (fun a b => (track_count b <= track_count a)%nat)
                      (get_playlist_stats data).
Proof.
  intros S data. pose proof (playlist_stats_perm data) as Hperm.
  split; [|split; [|split]].
  - rewrite <- (Permutation_map stat_name Hperm). unfold get_playlist_names.
    rewrite map_map. reflexivity.
  - rewrite frame_length. symmetry. apply list_sum_perm.
    now apply Permutation_map.
  - apply (Permutation_Forall Hperm). apply List.Forall_map, List.Forall_forall.
    intros p _. cbn [stat_of unique_artists track_count].
    rewrite <- (length_map artistName (track_items p)). apply size_list_to_set_le.
  - unfold get_playlist_stats.
    destruct (map stat_of (List.filter (fun p => negb (excluded (name p))) data));
      [constructor|].
    apply sorted_by_nat_count, sort_values_sorted.
Qed.

(** ** get_track_duplicates *)

Lemma in_rows_with_key {K R} (cmp : K -> K -> comparison) `{!CmpOk cmp}
    (key : R -> option K) (k : K) (df : list R) (r : R) :
  In r (rows_with_key cmp key k df) <-> In r df /\ key r = Some k.
Proof.
  unfold rows_with_key. rewrite List.filter_In.
  destruct (key r) as [k'|]; [|split; intros [_ ?]; discriminate].
  destruct (cmp k k') eqn:Hc.
  - apply cmp_eq in Hc as ->. tauto.
  - split; intros [Hin Heq]; [discriminate|].
    injection Heq as ->. now rewrite (cmp_refl cmp) in Hc.
  - split; intros [Hin Heq]; [discriminate|].
    injection Heq as ->. now rewrite (cmp_refl cmp) in Hc.
Qed.

Lemma size_unique (l : list string) :
  size (list_to_set l : gset string) = length (SpotifyApi.unique l).
Proof.
  destruct (unique_spec l) as [Hnd Hmem].
  rewrite <- (size_list_to_set (C := gset string) _ Hnd). f_equal.
  apply set_eq. intros x. rewrite !elem_of_list_to_set. symmetry. apply Hmem.
Qed.

(** A list without repetition has two members or more exactly when it has
    two different members. *)
Lemma two_members (l : list string) :
  NoDup l ->
  (2 <= length l)%nat <-> exists x y, x ∈ l /\ y ∈ l /\ x <> y.
Proof.
  intros Hnd. split.
  - destruct l as [|x [|y l]]; cbn [length]; try lia. intros _.
    exists x, y. repeat split; [left | right; left |].
    intros ->. apply NoDup_cons in Hnd as [Hnotin _]. apply Hnotin. left.
  - intros (x & y & Hx & Hy & Hxy).
    destruct l as [|a [|b l]]; cbn [length]; try lia.
    + now apply elem_of_nil in Hx.
    + apply list_elem_of_singleton in Hx, Hy. congruence.
Qed.

(** X12.  [get_track_duplicates] reports a (track, artist) pair exactly
    when two rows of the playlist frame hold it under different playlist
    names.  Each reported row lists, without repetition, the playlists
    that hold the pair; [playlist_count] is the length of that list and is
    at least 2; no pair is reported twice; and the rows are in descending
    order of [playlist_count]. *)
Theorem track_duplicates_are_pairs_on_two_playlists :
  forall (S : Sorter) (df : list PlaylistEntry),
    (forall t a,
        (exists r, In r (get_track_duplicates df) /\ dup_track r = t /\ dup_artist r = a)
        <-> (exists e1 e2, In e1 df /\ In e2 df
                           /\ key_pair e1 = Some (t, a) /\ key_pair e2 = Some (t, a)
                           /\ playlist e1 <> playlist e2))
    /\ Forall (fun r =>
                 playlist_count r = length (playlists r)
                 /\ (2 <= playlist_count r)%nat
                 /\ List.NoDup (playlists r)
                 /\ (forall n, In n (playlists r)
                                <-> exists e, In e df
                                              /\ key_pair e = Some (dup_track r, dup_artist r)
                                              /\ playlist e = n))
              (get_track_duplicates df)
    /\ List.NoDup (map (fun r => (dup_track r, dup_artist r)) (get_track_duplicates df))
    /\ StronglySorted (fun a b => (playlist_count b <= playlist_count a)%nat)
                      (get_track_duplicates df).
Proof.
  intros S df.
  set (col := fun r : DupRow => inject_Z (Z.of_nat (playlist_count r))).
  set (dupes := List.filter (fun r => Nat.ltb 1 (playlist_count r))
                  (map agg_dup (groupby cmp_str2 key_pair df))).
  assert (Hres : Permutation dupes (get_track_duplicates df)).
  { unfold get_track_duplicates. destruct df as [|e df']; [reflexivity|].
    apply sort_values_perm. }
  (* the rows of the table before sorting *)
  assert (Hrow : forall r, In r dupes <->
                   r = agg_dup (dup_track r, dup_artist r,
                                rows_with_key cmp_str2 key_pair (dup_track r, dup_artist r) df)
                   /\ (2 <= playlist_count r)%nat).
  { intros r. unfold dupes. rewrite List.filter_In, List.in_map_iff. split.
    - intros [([[t a] rs] & <- & Hin) Hcount].
      apply in_groupby in Hin as [-> _]; [|exact _].
      cbn [agg_dup dup_track dup_artist fst snd]. split; [reflexivity|].
      apply Nat.ltb_lt in Hcount. exact Hcount.
    - intros [Hr Hcount]. split; [|apply Nat.ltb_lt; lia].
      exists (dup_track r, dup_artist r,
              rows_with_key cmp_str2 key_pair (dup_track r, dup_artist r) df).
      split; [now symmetry|]. apply in_groupby; [exact _|]. split; [reflexivity|].
      intros Hnil. rewrite Hr in Hcount. cbn [agg_dup playlist_count snd] in Hcount.
      rewrite Hnil in Hcount. unfold playlists_nunique in Hcount. cbn in Hcount.
      rewrite size_empty in Hcount. lia. }
  assert (Hnames : forall t a n,
             n ∈ SpotifyApi.unique (map playlist (rows_with_key cmp_str2 key_pair (t, a) df))
             <-> exists e, In e df /\ key_pair e = Some (t, a) /\ playlist e = n).
  { intros t a n. rewrite (proj2 (unique_spec _)), list_elem_of_In, List.in_map_iff.
    split.
    - intros (e & <- & He). apply in_rows_with_key in He as [He Hk]; [|exact _].
      now exists e.
    - intros (e & He & Hk & <-). exists e. split; [reflexivity|].
      apply in_rows_with_key; [exact _|]. now split. }
  split; [|split; [|split]].
  - intros t a. split.
    + intros (r & Hr & <- & <-).
      apply (Permutation_in r (Permutation_sym Hres)), Hrow in Hr as [Hr Hcount].
      rewrite Hr in Hcount. cbn [agg_dup playlist_count snd] in Hcount.
      unfold playlists_nunique in Hcount. rewrite size_unique in Hcount.
      apply two_members in Hcount as (n1 & n2 & H1 & H2 & Hne);
        [|apply unique_spec].
      apply Hnames in H1 as (e1 & He1 & Hk1 & <-).
      apply Hnames in H2 as (e2 & He2 & Hk2 & <-).
      now exists e1, e2.
    + intros (e1 & e2 & He1 & He2 & Hk1 & Hk2 & Hne).
      exists (agg_dup (t, a, rows_with_key cmp_str2 key_pair (t, a) df)).
      split; [|split; reflexivity].
      apply (Permutation_in _ Hres), Hrow.
      cbn [agg_dup dup_track dup_artist playlist_count fst snd].
      split; [reflexivity|].
      unfold playlists_nunique. rewrite size_unique.
      apply two_members; [apply unique_spec|].
      exists (playlist e1), (playlist e2). repeat split; [| |exact Hne];
        apply Hnames; eauto.
  - apply (Permutation_Forall Hres), List.Forall_forall. intros r Hr.
    apply Hrow in Hr as [Hr Hcount]. split; [|split; [exact Hcount|split]].
    + rewrite Hr. cbn [agg_dup playlist_count playlists snd].
      unfold playlists_nunique. apply size_unique.
    + rewrite Hr. cbn [agg_dup playlists snd]. apply NoDup_ListNoDup, unique_spec.
    + intros n. rewrite <- Hnames, <- list_elem_of_In. rewrite Hr at 1.
      cbn [agg_dup playlists snd]. reflexivity.
  - apply (Permutation.Permutation_NoDup
             (Permutation_map (fun r => (dup_track r, dup_artist r)) Hres)).
    unfold dupes.
    assert (Hkeys : List.NoDup (map (fun r => (dup_track r, dup_artist r))
                                  (map agg_dup (groupby cmp_str2 key_pair df)))).
    { rewrite map_map. cbn [agg_dup dup_track dup_artist].
      erewrite map_ext; [apply (keys_ascending_nodup cmp_str2), groupby_ascending; exact _|].
      intros [[t a] rs]. reflexivity. }
    revert Hkeys. generalize (map agg_dup (groupby cmp_str2 key_pair df)).
    intros l. induction l as [|r l IH]; cbn [map List.filter]; [constructor|].
    intros Hnd. inversion Hnd as [|? ? Hnotin Hnd']; subst.
    destruct (Nat.ltb 1 (playlist_count r)); [|now apply IH].
    cbn [map]. constructor; [|now apply IH].
    intros Hin. apply Hnotin. apply List.in_map_iff in Hin as (r' & Heq & Hin).
    apply List.in_map_iff. exists r'. split; [exact Heq|].
    now apply List.filter_In in Hin as [Hin _].
  - unfold get_track_duplicates. destruct df as [|e df']; [constructor|].
    apply sorted_by_nat_count, sort_values_sorted.
Qed.

(** ** get_playlist_track_overlaps *)

Lemma cell_eq_spec (c v : option string) :
  cell_eq c v = true <-> exists x, c = Some x /\ v = Some x.
Proof.
  unfold cell_eq. destruct c as [x|], v as [y|];
    try (split; [discriminate | intros (? & ? & ?); discriminate]).
  rewrite String.eqb_eq. split.
  - intros ->. now exists y.
  - intros (z & [= ->] & [= ->]). reflexivity.
Qed.

Lemma others_with_spec (df : list PlaylistEntry) (playlist_name : string)
    (pair : option string * option string) (n : string) :
  In n (others_with df playlist_name pair)
  <-> n <> playlist_name
      /\ exists e t a, In e df /\ playlist e = n
                       /\ pair = (Some t, Some a) /\ key_pair e = Some (t, a).
Proof.
  unfold others_with. rewrite <- list_elem_of_In, (proj2 (unique_spec _)), list_elem_of_In.
  rewrite List.in_map_iff. split.
  - intros (e & <- & He). apply List.filter_In in He as [He Hmask].
    apply andb_prop in Hmask as [Hmask Hother]. apply andb_prop in Hmask as [Ht Ha].
    apply cell_eq_spec in Ht as (t & Het & Hpt), Ha as (a & Hea & Hpa).
    apply negb_true_iff, String.eqb_neq in Hother. split; [exact Hother|].
    exists e, t, a. repeat split; [exact He | | ].
    + destruct pair; cbn in *; congruence.
    + unfold key_pair. now rewrite Het, Hea.
  - intros (Hne & e & t & a & He & <- & -> & Hk). exists e. split; [reflexivity|].
    apply List.filter_In. split; [exact He|].
    unfold key_pair in Hk. destruct (pl_track e) as [t'|], (pl_artist e) as [a'|];
      try discriminate.
    injection Hk as -> ->. cbn [fst snd cell_eq]. rewrite !String.eqb_refl.
    cbn [andb]. now apply negb_true_iff, String.eqb_neq.
Qed.

(** The row reported for a pair, if any. *)
Definition overlap_row (df : list PlaylistEntry) (playlist_name : string)
    (pair : option string * option string) : option OverlapRow :=
  match others_with df playlist_name pair with
  | [] => None
  | others =>
      Some {| ov_track := fst pair; ov_artist := snd pair;
              other_playlists := others; overlap_count := length others |}
  end.

Lemma overlap_row_spec (df : list PlaylistEntry) (playlist_name : string)
    (pair : option string * option string) (r : OverlapRow) :
  overlap_row df playlist_name pair = Some r
  <-> others_with df playlist_name pair <> []
      /\ r = {| ov_track := fst pair; ov_artist := snd pair;
                other_playlists := others_with df playlist_name pair;
                overlap_count := length (others_with df playlist_name pair) |}.
Proof.
  unfold overlap_row. destruct (others_with df playlist_name pair) as [|n l].
  - split; [discriminate | intros [? _]; congruence].
  - split; [intros [= <-]; split; [discriminate | reflexivity]|].
    intros [_ ->]. reflexivity.
Qed.

Lemma overlaps_perm {S : Sorter} (df : list PlaylistEntry) (playlist_name : string) :
  Permutation
    (omap (overlap_row df playlist_name)
       (drop_duplicates
          (map (fun e => (pl_track e, pl_artist e))
               (List.filter (fun e => String.eqb (playlist e) playlist_name) df))))
    (get_playlist_track_overlaps df playlist_name).
Proof.
  unfold get_playlist_track_overlaps.
  change (fun pair : option string * option string =>
            match others_with df playlist_name pair with
            | [] => None
            | n :: l =>
                Some {| ov_track := fst pair; ov_artist := snd pair;
                        other_playlists := n :: l; overlap_count := length (n :: l) |}
            end) with (overlap_row df playlist_name).
  destruct df as [|e df]; [reflexivity|].
  destruct (drop_duplicates _); [reflexivity|].
  destruct (omap _ _); [reflexivity | apply sort_values_perm].
Qed.

(** X13.  [get_playlist_track_overlaps] reports a (track, artist) pair
    exactly when a row of the named playlist holds it and a row of a
    playlist with another name holds it too.  Every reported row has a
    track and an artist (a row without one of them matches nothing), lists
    without repetition the other playlists that hold the pair, never the
    named playlist itself, and [overlap_count] is the length of that list,
    at least 1; no pair is reported twice; and the rows are in descending
    order of [overlap_count]. *)
Theorem playlist_track_overlaps_are_shared_pairs :
  forall (S : Sorter) (df : list PlaylistEntry) (playlist_name : string),
    (forall t a,
        (exists r, In r (get_playlist_track_overlaps df playlist_name)
                   /\ ov_track r = Some t /\ ov_artist r = Some a)
        <-> (exists e1 e2, In e1 df /\ In e2 df
                           /\ playlist e1 = playlist_name /\ playlist e2 <> playlist_name
                           /\ key_pair e1 = Some (t, a) /\ key_pair e2 = Some (t, a)))
    /\ Forall (fun r =>
                 exists t a,
                   ov_track r = Some t /\ ov_artist r = Some a
                   /\ overlap_count r = length (other_playlists r)
                   /\ (1 <= overlap_count r)%nat
                   /\ List.NoDup (other_playlists r)
                   /\ (forall n, In n (other_playlists r)
                                 <-> n <> playlist_name
                                     /\ exists e, In e df /\ playlist e = n
                                                  /\ key_pair e = Some (t, a)))
              (get_playlist_track_overlaps df playlist_name)
    /\ List.NoDup (map (fun r => (ov_track r, ov_artist r))
                       (get_playlist_track_overlaps df playlist_name))
    /\ StronglySorted (fun a b => (overlap_count b <= overlap_count a)%nat)
                      (get_playlist_track_overlaps df playlist_name).
Proof.
  intros S df pn. pose proof (overlaps_perm df pn) as Hres.
  set (pairs := map (fun e => (pl_track e, pl_artist e))
                    (List.filter (fun e => String.eqb (playlist e) pn) df)) in *.
  assert (Hpairs : forall pair, pair ∈ drop_duplicates pairs
                                <-> exists e, In e df /\ playlist e = pn
                                              /\ pair = (pl_track e, pl_artist e)).
  { intros pair. rewrite (proj2 (drop_duplicates_spec _)), list_elem_of_In.
    unfold pairs. rewrite List.in_map_iff.
    split.
    - intros (e & <- & He). apply List.filter_In in He as [He Hn].
      apply String.eqb_eq in Hn. now exists e.
    - intros (e & He & Hn & ->). exists e. split; [reflexivity|].
      apply List.filter_In. split; [exact He | now apply String.eqb_eq]. }
  assert (Hrow : forall r,
             In r (get_playlist_track_overlaps df pn)
             <-> exists pair, pair ∈ drop_duplicates pairs
                              /\ overlap_row df pn pair = Some r).
  { intros r. split.
    - intros Hr. apply (Permutation_in r (Permutation_sym Hres)) in Hr.
      apply list_elem_of_In, list_elem_of_omap in Hr. exact Hr.
    - intros Hr. apply (Permutation_in r Hres).
      apply list_elem_of_In, list_elem_of_omap. exact Hr. }
  split; [|split; [|split]].
  - intros t a. split.
    + intros (r & Hr & Ht & Ha). apply Hrow in Hr as (pair & Hpair & Hr).
      apply overlap_row_spec in Hr as [Hne ->]. cbn [ov_track ov_artist] in Ht, Ha.
      apply Hpairs in Hpair as (e1 & He1 & Hn1 & ->). cbn [fst snd] in Ht, Ha.
      destruct (others_with df pn (pl_track e1, pl_artist e1)) as [|n l] eqn:Hothers;
        [congruence|].
      assert (Hn : In n (others_with df pn (pl_track e1, pl_artist e1)))
        by (rewrite Hothers; now left).
      apply others_with_spec in Hn as (Hn & e2 & t' & a' & He2 & <- & Heq & Hk2).
      injection Heq as Ht' Ha'. exists e1, e2. repeat split; try assumption.
      * unfold key_pair. now rewrite Ht, Ha.
      * congruence.
    + intros (e1 & e2 & He1 & He2 & Hn1 & Hn2 & Hk1 & Hk2).
      assert (Hcells : (pl_track e1, pl_artist e1) = (Some t, Some a)).
      { unfold key_pair in Hk1. destruct (pl_track e1), (pl_artist e1); congruence. }
      assert (Hin : In (playlist e2) (others_with df pn (Some t, Some a))).
      { apply others_with_spec. split; [exact Hn2|]. now exists e2, t, a. }
      eexists. split; [|split].
      * apply Hrow. exists (Some t, Some a). split.
        -- apply Hpairs. exists e1. now rewrite Hcells.
        -- apply overlap_row_spec. split; [|reflexivity].
           intros Hnil. rewrite Hnil in Hin. destruct Hin.
      * reflexivity.
      * reflexivity.
  - apply List.Forall_forall. intros r Hr. apply Hrow in Hr as (pair & Hpair & Hr).
    apply overlap_row_spec in Hr as [Hne ->].
    cbn [ov_track ov_artist other_playlists overlap_count].
    destruct (others_with df pn pair) as [|n l] eqn:Hothers; [congruence|].
    assert (Hn : In n (others_with df pn pair)) by (rewrite Hothers; now left).
    apply others_with_spec in Hn as (_ & _ & t & a & _ & _ & -> & _).
    exists t, a. cbn [fst snd]. rewrite <- Hothers.
    split; [reflexivity|split; [reflexivity|split; [reflexivity|split; [|split]]]].
    + rewrite Hothers. cbn [length]. lia.
    + apply NoDup_ListNoDup. unfold others_with. apply unique_spec.
    + intros n'. rewrite others_with_spec. split.
      * intros (Hne' & e & t' & a' & He & Hn' & [= <- <-] & Hk). eauto.
      * intros (Hne' & e & He & Hn' & Hk). split; [exact Hne'|]. now exists e, t, a.
  - apply (Permutation.Permutation_NoDup
             (Permutation_map (fun r => (ov_track r, ov_artist r)) Hres)).
    pose proof (proj1 (drop_duplicates_spec pairs)) as Hnd. apply NoDup_ListNoDup in Hnd.
    clear Hres Hpairs Hrow. induction Hnd as [|pair l Hnotin Hnd IH]; cbn [omap list_omap map]; [constructor|].
    destruct (overlap_row df pn pair) as [r|] eqn:Hr; [|exact IH].
    cbn [map]. constructor; [|exact IH].
    apply overlap_row_spec in Hr as [_ ->]. cbn [ov_track ov_artist].
    rewrite <- surjective_pairing. intros Hin. apply Hnotin.
    apply List.in_map_iff in Hin as (r' & Heq & Hin).
    apply list_elem_of_In, list_elem_of_omap in Hin as (pair' & Hin & Hr').
    apply overlap_row_spec in Hr' as [_ ->]. cbn [ov_track ov_artist] in Heq.
    rewrite <- surjective_pairing in Heq. subst pair'. now apply list_elem_of_In.
  - unfold get_playlist_track_overlaps. destruct df as [|e df]; [constructor|].
    destruct (drop_duplicates _); [constructor|].
    destruct (omap _ _); [constructor|].
    apply sorted_by_nat_count, sort_values_sorted.
Qed.

(** ** get_overall_playlist_summary *)

Lemma omap_length_le {A B} (f : A -> option B) (l : list A) :
  (length (omap f l) <= length l)%nat.
Proof.
  induction l as [|x l IH]; cbn [omap list_omap length]; [lia|].
  destruct (f x); cbn [length]; lia.
Qed.

(** There are no more distinct artists than distinct (track, artist)
    pairs. *)
Lemma artists_le_pairs (df : list PlaylistEntry) :
  (nunique (map pl_artist df) <= size (playlist_set df))%nat.
Proof.
  unfold nunique.
  assert (Heq : (list_to_set (omap id (map pl_artist df)) : gset string)
                = set_omap snd (playlist_set df)).
  { apply set_eq. intros a. rewrite elem_of_list_to_set, list_elem_of_omap, elem_of_set_omap.
    unfold playlist_set. split.
    - intros (x & Hx & Hid). apply list_elem_of_fmap in Hx as (e & -> & He).
      exists (pl_track e, pl_artist e). split; [|exact Hid].
      apply elem_of_list_to_set, list_elem_of_fmap. now exists e.
    - intros (p & Hp & Hsnd).
      apply elem_of_list_to_set, list_elem_of_fmap in Hp as (e & -> & He).
      exists (pl_artist e). split; [|exact Hsnd].
      apply list_elem_of_fmap. now exists e. }
  rewrite Heq. unfold set_omap.
  etransitivity; [apply size_list_to_set_le|].
  etransitivity; [apply omap_length_le|]. reflexivity.
Qed.

(** The first row of a table in descending order is a largest one. *)
Lemma first_is_largest {A} (f : A -> nat) (x : A) (l : list A) :
  StronglySorted (fun a b => (f b <= f a)%nat) (x :: l) ->
  Forall (fun y => (f y <= f x)%nat) (x :: l).
Proof.
  intros Hs. apply StronglySorted_inv in Hs as [_ Hall]. constructor; [lia | exact Hall].
Qed.

(** X14.  [get_overall_playlist_summary] gives nothing exactly when no
    playlist that is not excluded has a track.  Otherwise [total_tracks] is
    the sum of the track counts of [get_playlist_stats], [total_playlists]
    the number of listed names, [largest_playlist] names a playlist whose
    track count [largest_playlist_size] is positive and the highest of
    all, and there are no more unique artists than unique tracks, and no
    more unique tracks than tracks. *)
Theorem playlist_summary_agrees_with_stats :
  forall (S : Sorter) (data : list PlaylistJson),
    match get_overall_playlist_summary data with
    | None => Forall (fun st => track_count st = 0%nat) (get_playlist_stats data)
    | Some s =>
        total_tracks s = list_sum (map track_count (get_playlist_stats data))
        /\ total_playlists s = length (get_playlist_names data)
        /\ (exists st, In st (get_playlist_stats data)
                       /\ stat_name st = largest_playlist s
                       /\ track_count st = largest_playlist_size s)
        /\ Forall (fun st => (track_count st <= largest_playlist_size s)%nat)
                  (get_playlist_stats data)
        /\ (0 < largest_playlist_size s)%nat
        /\ (sum_unique_artists s <= sum_unique_tracks s)%nat
        /\ (sum_unique_tracks s <= total_tracks s)%nat
    end.
Proof.
  intros S data. unfold get_overall_playlist_summary.
  pose proof (playlist_stats_perm data) as Hperm.
  pose proof (frame_length data) as Hlen.
  rewrite (list_sum_perm _ _ (Permutation_map track_count Hperm)) in Hlen.
  assert (Hsorted : StronglySorted (fun a b => (track_count b <= track_count a)%nat)
                      (get_playlist_stats data)).
  { unfold get_playlist_stats.
    destruct (map stat_of (List.filter (fun p => negb (excluded (name p))) data));
      [constructor|].
    apply sorted_by_nat_count, sort_values_sorted. }
  assert (Hnames : length (get_playlist_stats data) = length (get_playlist_names data)).
  { rewrite <- (Permutation_length Hperm). unfold get_playlist_names.
    now rewrite !length_map. }
  destruct (get_all_playlist_tracks data) as [|e df] eqn:Hdf.
  - cbn [length] in Hlen. clear Hsorted Hnames Hperm.
    induction (get_playlist_stats data) as [|st l IH]; [constructor|].
    cbn [map] in Hlen. change (list_sum (?x :: ?l)) with (x + list_sum l)%nat in Hlen.
    constructor; [lia|]. apply IH. lia.
  - cbn [total_tracks total_playlists largest_playlist largest_playlist_size
           sum_unique_tracks sum_unique_artists].
    destruct (get_playlist_stats data) as [|st l] eqn:Hstats; [discriminate Hlen|].
    pose proof (first_is_largest track_count st l Hsorted) as Hmax.
    split; [exact Hlen|split; [exact Hnames|split; [|split; [exact Hmax|split; [|split]]]]].
    + exists st. split; [now left | split; reflexivity].
    + destruct (track_count st) eqn:Hzero; [|lia]. exfalso.
      assert (Hsum : list_sum (map track_count (st :: l)) = 0%nat).
      { clear -Hmax. induction Hmax as [|y l' Hy Hall IH]; [reflexivity|].
        cbn [map]. change (list_sum (?x :: ?l)) with (x + list_sum l)%nat. lia. }
      rewrite Hsum in Hlen. discriminate Hlen.
    + apply artists_le_pairs.
    + unfold playlist_set. etransitivity; [apply size_list_to_set_le|].
      now rewrite length_map.
Qed.

(** ** get_artist_playlist_distribution *)

(** The rows of the playlist frame with this artist. *)
Definition entries_by (a : string) (df : list PlaylistEntry) : list PlaylistEntry :=
  List.filter (fun e => bool_decide (pl_artist e = Some a)) df.

(** X20.  Each row of [get_artist_playlist_distribution] is an artist of
    the playlist frame with the playlists that hold a row of theirs,
    listed without repetition; [playlist_count] is the length of that list
    and at least 1, and [track_count] counts the rows of the artist whose
    track is not null.  No artist is listed twice; the rows are in
    descending order of [playlist_count], and for a limit [N >= 0] there
    are at most [N]. *)
Theorem artist_distribution_counts_playlists :
  forall (S : Sorter) (df : list PlaylistEntry) (limit : Z),
    Forall (fun r =>
              ar_playlist_count r = length (ar_playlists r)
              /\ (1 <= ar_playlist_count r <= length (entries_by (ar_artist r) df))%nat
              /\ List.NoDup (ar_playlists r)
              /\ (forall n, In n (ar_playlists r)
                            <-> exists e, In e df /\ pl_artist e = Some (ar_artist r)
                                          /\ playlist e = n)
              /\ ar_track_count r
                 = length (List.filter (fun e => bool_decide (pl_track e <> None))
                                       (entries_by (ar_artist r) df)))
           (get_artist_playlist_distribution df limit)
    /\ List.NoDup (map ar_artist (get_artist_playlist_distribution df limit))
    /\ StronglySorted (fun a b => (ar_playlist_count b <= ar_playlist_count a)%nat)
                      (get_artist_playlist_distribution df limit)
    /\ (0 <= limit -> Z.of_nat (length (get_artist_playlist_distribution df limit)) <= limit).
Proof.
  intros S df limit. unfold get_artist_playlist_distribution.
  destruct df as [|e0 df0]; [repeat split; try constructor; cbn; lia|].
  set (df := e0 :: df0).
  set (col := fun r : ArtistRow => inject_Z (Z.of_nat (ar_playlist_count r))).
  set (rows := map agg_artist (groupby cmp_str pl_artist df)).
  pose proof (sort_values_perm _ col rows) as Hperm.
  split; [|split; [|split]].
  - apply List.Forall_forall. intros r Hr. apply head_incl in Hr.
    apply (Permutation_in r (Permutation_sym Hperm)) in Hr.
    apply List.in_map_iff in Hr as ([a rs] & <- & Hin).
    apply in_groupby in Hin as [-> Hne]; [|exact _].
    rewrite rows_with_key_filter in * by exact _. fold (entries_by a df) in *.
    cbn [agg_artist ar_artist ar_playlist_count ar_playlists ar_track_count fst snd].
    unfold playlists_nunique. rewrite size_unique.
    destruct (unique_spec (map playlist (entries_by a df))) as [Hnd Hmem].
    assert (Hnames : forall n, In n (SpotifyApi.unique (map playlist (entries_by a df)))
                               <-> exists e, In e df /\ pl_artist e = Some a /\ playlist e = n).
    { intros n. rewrite <- list_elem_of_In, Hmem, list_elem_of_In, List.in_map_iff.
      unfold entries_by. split.
      - intros (e & <- & He). apply List.filter_In in He as [He Ha].
        apply bool_decide_eq_true in Ha. now exists e.
      - intros (e & He & Ha & <-). exists e. split; [reflexivity|].
        apply List.filter_In. split; [exact He | now apply bool_decide_eq_true]. }
    split; [reflexivity|]. split; [split|split; [now apply NoDup_ListNoDup|split]].
    + destruct (entries_by a df) as [|e rest] eqn:Hrows; [congruence|].
      assert (Hin : In (playlist e) (SpotifyApi.unique (map playlist (e :: rest)))).
      { apply list_elem_of_In, Hmem. left. }
      destruct (SpotifyApi.unique (map playlist (e :: rest))); [destruct Hin|].
      cbn [length]. lia.
    + rewrite <- (length_map playlist (entries_by a df)).
      rewrite <- size_unique. apply size_list_to_set_le.
    + exact Hnames.
    + clear. induction (entries_by a df) as [|e l IH]; [reflexivity|].
      cbn [omap list_omap List.filter]. destruct (pl_track e) as [t|].
      * rewrite bool_decide_eq_true_2 by discriminate. cbn [length]. now rewrite IH.
      * rewrite bool_decide_eq_false_2 by (intros H; now apply H). exact IH.
  - apply head_nodup.
    apply (Permutation.Permutation_NoDup (Permutation_map ar_artist Hperm)).
    unfold rows. rewrite map_map. cbn [agg_artist ar_artist].
    apply (keys_ascending_nodup cmp_str), groupby_ascending. exact _.
  - apply head_sorted, sorted_by_nat_count, sort_values_sorted.
  - apply head_length.
Qed.

(** A row without a track name counts for the playlists, not for the
    tracks. *)
Example artist_with_a_nameless_track :
  map (fun r => (ar_artist r, ar_playlist_count r, ar_track_count r))
      (get_artist_playlist_distribution (sorter := stable_sorter)
         [ {| playlist := "Morning"; pl_track := None; pl_artist := Some "Band";
              pl_album := None; pl_uri := None |} ] 20)
  = [("Band", 1%nat, 0%nat)].
Proof. vm_compute. reflexivity. Qed.

End PlaylistsSpec.

(** * More of spotify_api.py *)

Module SpotifyApiMore.
Import Py SpotifyApi SpotifyApiSpec.

(** ** extract_track_id *)

Definition has_char (c : ascii) (s : string) : bool :=
  existsb (Ascii.eqb c) (list_ascii_of_string s).

Lemma append_nil (s : string) : EmptyString +:+ s = s.
Proof. reflexivity. Qed.

Lemma append_cons (c : ascii) (s t : string) : String c s +:+ t = String c (s +:+ t).
Proof. reflexivity. Qed.

Lemma split_last_spec (sep : ascii) (s : string) :
  has_char sep (split_last sep s) = false
  /\ (has_char sep s = false -> split_last sep s = s)
  /\ (has_char sep s = true -> exists pre, s = pre +:+ String sep (split_last sep s)).
Proof.
  induction s as [|c s (IHfree & IHnone & IHsome)]; [repeat split; discriminate || eauto|].
  cbn [split_last]. fold (has_char sep s).
  change (has_char sep (String c s)) with (Ascii.eqb sep c || has_char sep s)%bool.
  destruct (has_char sep s) eqn:Hs.
  - split; [exact IHfree|]. split; [now rewrite orb_true_r|]. intros _.
    destruct (IHsome eq_refl) as (pre & Hpre). exists (String c pre).
    rewrite Hpre at 1. reflexivity.
  - rewrite (Ascii.eqb_sym sep c). destruct (Ascii.eqb_spec c sep) as [->|Hne].
    + split; [exact Hs|]. split; [discriminate|]. intros _. now exists EmptyString.
    + split; [|split; [reflexivity | discriminate]].
      change (has_char sep (String c s)) with (Ascii.eqb sep c || has_char sep s)%bool.
      rewrite Hs, orb_false_r. apply Ascii.eqb_neq. congruence.
Qed.

Lemma has_char_cons (sep c : ascii) (s : string) :
  has_char sep (String c s) = (Ascii.eqb sep c || has_char sep s)%bool.
Proof. reflexivity. Qed.

Lemma split_last_after (sep : ascii) (pre id : string) :
  has_char sep id = false -> split_last sep (pre +:+ String sep id) = id.
Proof.
  intros Hid. induction pre as [|c pre IH]; rewrite ?append_nil, ?append_cons;
    cbn [split_last].
  - fold (has_char sep id). now rewrite Hid, Ascii.eqb_refl.
  - fold (has_char sep (pre +:+ String sep id)).
    assert (Hin : has_char sep (pre +:+ String sep id) = true).
    { clear IH. induction pre as [|c' pre IH]; rewrite ?append_nil, ?append_cons,
        has_char_cons.
      - now rewrite Ascii.eqb_refl.
      - now rewrite IH, orb_true_r. }
    now rewrite Hin.
Qed.

Lemma prefix_append (p s : string) :
  String.prefix p s = true -> exists rest, s = p +:+ rest.
Proof.
  revert s. induction p as [|c p IH]; intros s; [now exists s|].
  destruct s as [|c' s]; [discriminate|]. cbn [String.prefix].
  destruct (ascii_dec c c') as [->|]; [|discriminate].
  intros Hp. destruct (IH s Hp) as (rest & ->). now exists rest.
Qed.

(** X15.  [extract_track_id] accepts exactly the URIs that start with
    [spotify:track:] and returns the text after the last colon of the URI,
    which holds no colon itself.  For an identifier without a colon the
    way back is exact: the URI made of the prefix and the identifier gives
    the identifier. *)
Theorem extract_track_id_takes_text_after_last_colon :
  forall (uri : string),
    match extract_track_id uri with
    | Some id =>
        String.prefix "spotify:track:" uri = true
        /\ (exists pre, uri = pre +:+ String ":" id)
        /\ has_char ":" id = false
    | None => String.prefix "spotify:track:" uri = false
    end
    /\ (forall id, has_char ":" id = false ->
                   extract_track_id ("spotify:track:" +:+ id) = Some id).
Proof.
  intros uri. split.
  - unfold extract_track_id. destruct uri as [|c uri]; [reflexivity|]. cbn [truthy negb].
    destruct (String.prefix "spotify:track:" (String c uri)) eqn:Hp; [|reflexivity].
    destruct (split_last_spec ":" (String c uri)) as (Hfree & _ & Hsome).
    split; [reflexivity|]. split; [|exact Hfree].
    apply Hsome. apply prefix_append in Hp as (rest & ->). reflexivity.
  - intros id Hid. unfold extract_track_id.
    assert (Hp : String.prefix "spotify:track:" ("spotify:track:" +:+ id) = true).
    { rewrite !append_cons, append_nil. cbn. now destruct id. }
    rewrite Hp. rewrite append_cons at 1. cbn [truthy negb]. f_equal.
    apply (split_last_after ":" "spotify:track" id Hid).
Qed.

(** ** get_access_token *)

(** A token server: every request is granted the token, with a lifetime
    in seconds. *)
Definition token_server (token : string) (expires_in : option Z) : nat -> Request -> Reply :=
  fun _ _ =>
    Answers {| status_code := 200; retry_after := None;
               body := Object {| j_artists := None; j_tracks := None;
                                 j_access_token := Some token;
                                 j_expires_in := expires_in |} |}.

(** X16.  With credentials set and no cached token to use, a token
    request that is granted is the one request sent.  When the token can
    be stored (the cache can be written, and the expiry, [expires_in - 60]
    seconds from now with 3600 for a missing [expires_in], is a date the
    calendar has), the token is returned and written to the token file
    with that expiry; from then on, while the file stays and the clock is
    before the expiry, [get_access_token] returns the token and does
    nothing else, and once the clock has reached the expiry the file is
    of no use any more.  When the token cannot be stored, no token is
    returned and the token file is left as it was. *)
Theorem granted_token_is_reused_until_it_expires :
  forall (w : World) (id secret token : string) (expires_in : Z),
    api_configured w = true ->
    usable_token_file w = None ->
    client_id w = Some id -> client_secret w = Some secret ->
    granted (server w (sent w) (PostToken id secret)) = Some (token, expires_in) ->
    exists w1,
      requests_of (trace w1) = requests_of (trace w) ++ [PostToken id secret]
      /\ if storable w expires_in then
           run get_access_token w = (Ok (Some token), w1)
           /\ token_cache_file w1
              = Content {| tf_access_token := Some token;
                           tf_expires_at := ExpiresAt (expiry w expires_in);
                           tf_other_keys := false |}
           /\ (forall w2,
                  api_configured w2 = true ->
                  token_cache_file w2 = token_cache_file w1 ->
                  (now w2 < expiry w expires_in ->
                   run get_access_token w2 = (Ok (Some token), w2))
                  /\ (expiry w expires_in <= now w2 -> usable_token_file w2 = None))
         else
           run get_access_token w = (Ok None, w1)
           /\ token_cache_file w1 = token_cache_file w.
Proof.
  intros w id secret token expires_in Hapi Hfile Hid Hsecret Hreply.
  pose proof (get_access_token_run (L := unit) w tt) as Hget.
  rewrite Hapi, Hfile, (request_token_run w tt id secret Hid Hsecret), Hreply in Hget.
  destruct (storable w expires_in).
  - exists (stored token expires_in (requested (PostToken id secret) w)).
    split; [cbn; rewrite !requests_of_app; cbn; now rewrite !app_nil_r|].
    split; [unfold run; now rewrite Hget|]. split; [reflexivity|].
    intros w2 Hapi2 Hfile2.
    change (token_cache_file (stored token expires_in (requested (PostToken id secret) w)))
      with (Content {| tf_access_token := Some token;
                       tf_expires_at := ExpiresAt (expiry w expires_in);
                       tf_other_keys := false |}) in Hfile2.
    split.
    + intros Hnow. unfold run. rewrite get_access_token_run, Hapi2.
      unfold usable_token_file, valid_token_file. rewrite Hfile2. cbn [tf_expires_at].
      apply Z.ltb_lt in Hnow. rewrite Hnow. reflexivity.
    + intros Hnow. unfold usable_token_file, valid_token_file. rewrite Hfile2.
      cbn [tf_expires_at]. apply Z.ltb_ge in Hnow. now rewrite Hnow.
  - exists (failed (requested (PostToken id secret) w)).
    split; [cbn; rewrite !requests_of_app; cbn; now rewrite !app_nil_r|].
    split; [unfold run; now rewrite Hget | reflexivity].
Qed.

(** The theorem at work: a token granted for an hour. *)
Lemma granted_token_is_reused_until_it_expires_witness :
  exists w1,
    requests_of (trace w1)
    = requests_of (trace (world_with (token_server "t0" (Some 3600))))
        ++ [PostToken "id" "secret"]
    /\ run get_access_token (world_with (token_server "t0" (Some 3600)))
       = (Ok (Some "t0"), w1)
    /\ token_cache_file w1
       = Content {| tf_access_token := Some "t0";
                    tf_expires_at :=
                      ExpiresAt (expiry (world_with (token_server "t0" (Some 3600))) 3600);
                    tf_other_keys := false |}
    /\ (forall w2,
           api_configured w2 = true ->
           token_cache_file w2 = token_cache_file w1 ->
           (now w2 < expiry (world_with (token_server "t0" (Some 3600))) 3600 ->
            run get_access_token w2 = (Ok (Some "t0"), w2))
           /\ (expiry (world_with (token_server "t0" (Some 3600))) 3600 <= now w2 ->
               usable_token_file w2 = None)).
Proof.
  exact (granted_token_is_reused_until_it_expires
           (world_with (token_server "t0" (Some 3600))) "id" "secret" "t0" 3600
           eq_refl eq_refl eq_refl eq_refl eq_refl).
Defined.

(** A lifetime no date can hold: the token is granted and lost. *)
Example token_with_an_endless_lifetime :
  fst (run get_access_token (world_with (token_server "t0" (Some 1000000000000))))
  = Ok None
  /\ token_cache_file
       (snd (run get_access_token (world_with (token_server "t0" (Some 1000000000000)))))
     = Missing.
Proof. split; reflexivity. Qed.

(** ** What a run leaves of the files *)

(** The genre cache file and the leave to write are as they were. *)
Definition same_cache (w w' : World) : Prop :=
  genre_cache_file w' = genre_cache_file w /\ cache_writable w' = cache_writable w.

Definition keeps_cache {L A} (c : M L A) : Prop :=
  forall s, same_cache (fst s) (fst (snd (c s))).

Lemma same_cache_trans (w1 w2 w3 : World) :
  same_cache w1 w2 -> same_cache w2 w3 -> same_cache w1 w3.
Proof. unfold same_cache. intros [-> ->] [-> ->]. now split. Qed.

Lemma keeps_cache_ret {L A} (a : A) : keeps_cache (ret (L := L) a).
Proof. intros s. now split. Qed.

Lemma keeps_cache_raise {L A} (e : exn) : keeps_cache (raise (L := L) (A := A) e).
Proof. intros s. now split. Qed.

Lemma keeps_cache_bind {L A B} (c : M L A) (k : A -> M L B) :
  keeps_cache c -> (forall a, keeps_cache (k a)) -> keeps_cache (bind c k).
Proof.
  intros Hc Hk s. unfold bind. specialize (Hc s).
  destruct (c s) as [[a|e] s1]; [|exact Hc].
  eapply same_cache_trans; [exact Hc | apply Hk].
Qed.

Lemma keeps_cache_try {L A} (c : M L A) (h : exn -> M L A) :
  keeps_cache c -> (forall e, keeps_cache (h e)) -> keeps_cache (try_except c h).
Proof.
  intros Hc Hh s. unfold try_except. specialize (Hc s).
  destruct (c s) as [[a|e] s1]; [exact Hc|].
  eapply same_cache_trans; [exact Hc | apply Hh].
Qed.

Lemma keeps_cache_for_each {L A} (l : list A) (body : A -> M L unit) :
  (forall x, keeps_cache (body x)) -> keeps_cache (for_each l body).
Proof.
  intros Hbody. induction l as [|x l IH]; cbn [for_each].
  - apply keeps_cache_ret.
  - apply keeps_cache_bind; [apply Hbody | intros _; exact IH].
Qed.

Lemma keeps_cache_map_m {L A B} (f : A -> M L B) (l : list A) :
  (forall x, keeps_cache (f x)) -> keeps_cache (map_m f l).
Proof.
  intros Hf. induction l as [|x l IH]; cbn [map_m].
  - apply keeps_cache_ret.
  - apply keeps_cache_bind; [apply Hf | intros y].
    apply keeps_cache_bind; [exact IH | intros ys; apply keeps_cache_ret].
Qed.

Lemma keeps_cache_call {L L' A} (init : L') (c : M L' A) :
  keeps_cache c -> keeps_cache (call (L := L) init c).
Proof.
  intros Hc s. unfold call. specialize (Hc (fst s, init)).
  destruct (c (fst s, init)) as [[a|e] [w' l']]; exact Hc.
Qed.

Lemma keeps_cache_print {L} (msg : string) : keeps_cache (print (L := L) msg).
Proof. intros s. now split. Qed.

Lemma keeps_cache_update_local {L} (f : L -> L) : keeps_cache (update_local f).
Proof. intros s. now split. Qed.

Lemma keeps_cache_getitem {L A} (field : option A) : keeps_cache (getitem (L := L) field).
Proof. intros s. unfold getitem. now destruct field. Qed.

Lemma keeps_cache_json {L} (r : Response) : keeps_cache (json (L := L) r).
Proof. intros s. unfold json. now destruct (body r). Qed.

Lemma keeps_cache_lift {L A} (r : exn + A) : keeps_cache (lift (L := L) r).
Proof. intros s. unfold lift. now destruct r. Qed.

Lemma keeps_cache_raise_for_status {L} (r : Response) :
  keeps_cache (raise_for_status (L := L) r).
Proof. intros s. unfold raise_for_status. now destruct (_ && _)%bool. Qed.

Lemma keeps_cache_time_sleep {L} (ms : Z) : keeps_cache (time_sleep (L := L) ms).
Proof.
  intros [w l]. rewrite time_sleep_run. now destruct (sleep_error w ms).
Qed.

Lemma keeps_cache_send {L} (req : Request) : keeps_cache (send (L := L) req).
Proof.
  intros [w l]. cbv [send bind get_world update_world ret raise fst snd].
  now destruct (server w (sent w) req).
Qed.

(** Take a computation apart down to its effects. *)
Ltac keeps_cache :=
  repeat first
    [ apply keeps_cache_ret | apply keeps_cache_raise | apply keeps_cache_print
    | apply keeps_cache_update_local | apply keeps_cache_getitem | apply keeps_cache_json
    | apply keeps_cache_lift | apply keeps_cache_raise_for_status
    | apply keeps_cache_time_sleep | apply keeps_cache_send
    | apply keeps_cache_bind; [|intros ?]
    | apply keeps_cache_try; [|intros ?]
    | apply keeps_cache_for_each; intros ?
    | apply keeps_cache_map_m; intros ?
    | apply keeps_cache_call
    | match goal with
      | |- keeps_cache (if ?b then _ else _) => destruct b
      | |- keeps_cache (match ?x with Some _ => _ | None => _ end) => destruct x
      end ].



(** ** enrich_with_genres and the cache on disk *)





(** ** The requests of a fetch, whatever the server does *)

(** After [before], each batch was requested once or twice, in the order
    of the batches, and nothing else was requested. *)
Definition once_or_twice_per_batch (req_of : nat * list string -> Request)
    (bs : list (nat * list string)) (before after : list Event) : Prop :=
  exists ks : list nat,
    length ks = length bs
    /\ Forall (fun k => k = 1%nat \/ k = 2%nat) ks
    /\ requests_of after
       = requests_of before
           ++ flat_map (fun bk => repeat (req_of (fst bk)) (snd bk)) (combine bs ks).

Lemma requests_of_announcement (announce : bool) :
  requests_of (announcement announce) = [].
Proof. now destruct announce. Qed.

Lemma batch_requests_once_or_twice {V} (iteration : M (Dict V) unit) (req : Request)
    (announce : bool) (err : string) :
  batch_contract iteration req announce err ->
  forall (w : World) (results : Dict V),
  exists w' results' k,
    iteration (w, results) = (Ok tt, (w', results'))
    /\ server w' = server w
    /\ (k = 1%nat \/ k = 2%nat)
    /\ requests_of (trace w') = requests_of (trace w) ++ repeat req k.
Proof.
  intros Hcontract w results.
  destruct (Hcontract w results)
    as (w' & results' & Hrun & _ & Hserver & Hretry & Hgiveup & Hother).
  exists w', results'.
  assert (Honce : (exists tail, trace w' = trace w ++ [Requested req] ++ tail
                                /\ requests_of tail = []) ->
                  exists k, iteration (w, results) = (Ok tt, (w', results'))
                            /\ server w' = server w
                            /\ (k = 1%nat \/ k = 2%nat)
                            /\ requests_of (trace w') = requests_of (trace w) ++ repeat req k).
  { intros (tail & Htrace & Htail). exists 1%nat.
    split; [exact Hrun|]. split; [exact Hserver|]. split; [now left|].
    rewrite Htrace, !requests_of_app, Htail. reflexivity. }
  destruct (server w (sent w) req) as [e|r1] eqn:Hreply.
  - apply Honce. destruct Hother as (tail & Htrace & Htail & _); [discriminate|].
    exists tail. split; [exact Htrace | now apply requests_of_no_request].
  - destruct (Z.eq_dec (status_code r1) 429) as [H429|Hnot].
    + assert (Hgaveup : (forall s, retry_after_seconds r1 = inr s -> ~ sleepable w s) ->
                exists tail, trace w' = trace w ++ [Requested req] ++ tail
                             /\ requests_of tail = []).
      { intros Hbad. destruct (Hgiveup r1 eq_refl H429 Hbad) as (_ & note & Htrace & Hnote).
        exists (note ++ [Printed err]). split; [exact Htrace|].
        rewrite requests_of_app.
        destruct Hnote as [-> | ->]; [reflexivity|].
        now rewrite requests_of_announcement. }
      destruct (retry_after_seconds r1) as [e|s] eqn:Hdelay.
      * apply Honce, Hgaveup. discriminate.
      * pose proof (sleep_error_none w s) as Hsleep.
        destruct (sleep_error w (1000 * s)) as [e|];
          [assert (Hneg : ~ sleepable w s) by (intros Hs; now apply Hsleep in Hs)
          |assert (Hpos : sleepable w s) by (now apply Hsleep)].
        -- apply Honce, Hgaveup. intros s' [= <-]. exact Hneg.
        -- destruct (Hretry r1 s eq_refl H429 Hdelay Hpos) as (tail & Htrace & Htail & _).
           exists 2%nat. split; [exact Hrun|]. split; [exact Hserver|].
           split; [now right|].
           rewrite Htrace, !requests_of_app, requests_of_announcement,
             (requests_of_no_request tail Htail).
           cbn. rewrite ?app_nil_r. reflexivity.
    + apply Honce. destruct Hother as (tail & Htrace & Htail & _).
      { intros r1' [= <-]. exact Hnot. }
      exists tail. split; [exact Htrace | now apply requests_of_no_request].
Qed.

Lemma loop_requests_once_or_twice {V} (body : nat * list string -> M (Dict V) unit)
    (req_of : nat * list string -> Request) (announce : bool) (err : string) :
  (forall b, batch_contract (body b) (req_of b) announce err) ->
  forall (bs : list (nat * list string)) (w : World) (d : Dict V),
  exists w' d',
    for_each bs body (w, d) = (Ok tt, (w', d'))
    /\ once_or_twice_per_batch req_of bs (trace w) (trace w').
Proof.
  intros Hbody bs. induction bs as [|b bs IH]; intros w d.
  - exists w, d. split; [reflexivity|]. exists []. cbn. now rewrite app_nil_r.
  - destruct (batch_requests_once_or_twice _ _ _ _ (Hbody b) w d)
      as (w1 & d1 & k & Hrun & _ & Hk & Hreqs).
    destruct (IH w1 d1) as (w2 & d2 & Hrun2 & ks & Hlen & Hks & Hreqs2).
    exists w2, d2. cbn [for_each]. unfold bind. rewrite Hrun.
    split; [exact Hrun2|]. exists (k :: ks).
    split; [cbn; now rewrite Hlen|]. split; [now constructor|].
    rewrite Hreqs2, Hreqs. cbn [combine flat_map fst snd]. now rewrite <- app_assoc.
Qed.

(** The guard of the two fetch functions: no identifiers, or no token. *)
Definition nothing_to_fetch (ids : list string) (token : string) : bool :=
  (match ids with [] => true | _ => false end || negb (truthy token))%bool.

(** X18.  Whatever the server answers, [fetch_artists_genres] and
    [fetch_track_artists] return, and they request each batch of 50
    distinct identifiers once or twice, in the order of the batches, and
    nothing else: a batch is never tried a third time, so the requests
    number at least the batches and at most twice as many.  With no
    identifiers or an empty token they return the empty mapping and
    request nothing. *)
Theorem fetch_requests_each_batch_once_or_twice :
  forall (ids : list string) (token : string) (w : World),
    if nothing_to_fetch ids token then
      run (fetch_artists_genres ids token) w = (Ok [], w)
      /\ run (fetch_track_artists ids token) w = (Ok [], w)
    else
      (exists res w',
          run (fetch_artists_genres ids token) w = (Ok res, w')
          /\ once_or_twice_per_batch
               (fun b => GetArtists (String.concat "," (snd b)) token)
               (batches (unique_ids ids)) (trace w) (trace w'))
      /\ (exists res w',
             run (fetch_track_artists ids token) w = (Ok res, w')
             /\ once_or_twice_per_batch
                  (fun b => GetTracks (String.concat "," (snd b)) token)
                  (batches (unique_ids ids)) (trace w) (trace w')).
Proof.
  intros ids token w. unfold run, fetch_artists_genres, fetch_track_artists.
  fold (nothing_to_fetch ids token).
  destruct (nothing_to_fetch ids token); [split; reflexivity|].
  unfold bind, call. cbn [fst snd]. split.
  - destruct (loop_requests_once_or_twice
                (fetch_artists_batch token (length (unique_ids ids)))
                (fun b => GetArtists (String.concat "," (snd b)) token) true
                "Error fetching artist batch"
                (artists_batch_contract token (length (unique_ids ids)))
                (batches (unique_ids ids)) w []) as (w' & d' & Hrun & Hreqs).
    unfold Dict in *. rewrite Hrun. now exists d', w'.
  - destruct (loop_requests_once_or_twice
                (fetch_tracks_batch token (length (unique_ids ids)))
                (fun b => GetTracks (String.concat "," (snd b)) token) false
                "Error fetching track batch"
                (tracks_batch_contract token (length (unique_ids ids)))
                (batches (unique_ids ids)) w []) as (w' & d' & Hrun & Hreqs).
    unfold Dict in *. rewrite Hrun. now exists d', w'.
Qed.

End SpotifyApiMore.
